(** * An explicit free-list heap allocator (mm.c): shallow embedding

    The allocator of [src/mm.c] manages a contiguous heap handed out by a
    heap simulator ([memlib]).  The heap starts with one word holding the
    head of the free list, is followed by the blocks, and ends with an
    end-of-heap word tagged as a used block of size 0.

    The embedding is for an LP64 target: [size_t] and pointers are 64 bits
    wide, [int] is 32 bits wide.  Memory is word-granular: every access of
    mm.c is a [size_t] or pointer access. *)

From Stdlib Require Import ZArith List Lia Bool.
Import ListNotations.
Local Open Scope Z_scope.

(** ** Machine arithmetic *)

(** [size_t] arithmetic wraps modulo 2^64. *)
Definition wrap64 (x : Z) : Z := x mod 2 ^ 64.

(** Conversion of a [size_t] to the [int] parameter of the pointer
    helpers. *)
Definition to_int (x : Z) : Z := (x + 2 ^ 31) mod 2 ^ 32 - 2 ^ 31.

Definition NULL : Z := 0.

(** [static inline void* UNSCALED_POINTER_ADD(void* p, int x)] *)
Definition UNSCALED_POINTER_ADD (p x : Z) : Z := p + to_int x.
(** [static inline void* UNSCALED_POINTER_SUB(void* p, int x)] *)
Definition UNSCALED_POINTER_SUB (p x : Z) : Z := p - to_int x.

(** ** Constants and the layout of [struct block_info] *)

Definition WORD_SIZE : Z := 8.
Definition sizeof_block_info : Z := 3 * WORD_SIZE.
Definition MIN_BLOCK_SIZE : Z := sizeof_block_info + WORD_SIZE.
Definition ALIGNMENT : Z := 8.
Definition TAG_USED : Z := 1.
Definition TAG_PRECEDING_USED : Z := 2.

Definition off_size_and_tags : Z := 0.
Definition off_next : Z := WORD_SIZE.
Definition off_prev : Z := 2 * WORD_SIZE.

(** [static inline size_t SIZE(size_t x) { return x & ~(ALIGNMENT - 1); }] *)
Definition SIZE (x : Z) : Z := Z.land x (wrap64 (Z.lnot (ALIGNMENT - 1))).

(** ** Outcomes of a call

    A call returns ([Ok]), terminates the process through [exit]
    ([Exit]), performs an access outside of the heap or a misaligned one
    ([Fault]), or its loops exceed the fuel of the model ([OutOfFuel]). *)

Inductive result (A : Type) : Type :=
| Ok (a : A)
| Exit (status : Z)
| Fault
| OutOfFuel.
Arguments Ok {A} a.
Arguments Exit {A} status.
Arguments Fault {A}.
Arguments OutOfFuel {A}.

Definition bind {A B : Type} (r : result A) (k : A -> result B) : result B :=
  match r with
  | Ok a => k a
  | Exit c => Exit c
  | Fault => Fault
  | OutOfFuel => OutOfFuel
  end.

Notation "x <- e ;; k" := (bind e (fun x => k))
  (at level 61, e at next level, right associativity).
Notation "' pat <- e ;; k" := (bind e (fun x => let pat := x in k))
  (at level 61, pat pattern, e at next level, right associativity).

(** ** The heap simulator

    memlib.c is not part of the sources.  Its state is modelled from the
    spec (section 6): the bytes of the heap, the stable lowest address,
    the current break, the bound of the simulated memory and the page
    size. *)

Record heap : Type := mkHeap {
  mem : Z -> Z;        (* the word stored at each word-aligned address *)
  mem_start_brk : Z;   (* lowest heap address, stable across calls *)
  mem_brk : Z;         (* first address past the heap *)
  mem_max_addr : Z;    (* the heap cannot grow past this address *)
  pagesize : Z         (* the page size, a stable constant *)
}.

(** The heap with the word at [a] replaced by [v]. *)
Definition upd (st : heap) (a v : Z) : heap :=
  mkHeap (fun x => if x =? a then v else mem st x)
    (mem_start_brk st) (mem_brk st) (mem_max_addr st) (pagesize st).

(** The heap with the break moved by [incr] bytes. *)
Definition grow (st : heap) (incr : Z) : heap :=
  mkHeap (mem st) (mem_start_brk st) (mem_brk st + incr) (mem_max_addr st)
    (pagesize st).

(** Modelled from the spec: [low()], the lowest valid heap address. *)
Definition mem_heap_lo (st : heap) : Z := mem_start_brk st.

(** Modelled from the spec: [high()], the current highest valid heap
    address. *)
Definition mem_heap_hi (st : heap) : Z := mem_brk st - 1.

(** Modelled from the spec: [page_size()], a stable positive constant. *)
Definition mem_pagesize (st : heap) : Z := pagesize st.

(** Modelled from the spec: [grow(n)] extends the heap by exactly [n]
    bytes and returns the address of the first new byte, or a failure
    value on exhaustion. *)
Definition mem_sbrk (st : heap) (incr : Z) : heap * Z :=
  if mem_brk st + incr >? mem_max_addr st then (st, wrap64 (-1))
  else (grow st incr, mem_brk st).

(** The simulator before [mm_init]: an empty heap at [lo] over memory
    contents [m]. *)
Definition mem_init (m : Z -> Z) (lo max ps : Z) : heap := mkHeap m lo lo max ps.

(** *** Word accesses

    An access is inside the heap and word-aligned, or it is a fault. *)

Definition valid_access (st : heap) (a : Z) : bool :=
  (mem_heap_lo st <=? a) && (a + WORD_SIZE <=? mem_brk st)
  && (a mod WORD_SIZE =? 0).

Definition load (st : heap) (a : Z) : result Z :=
  if valid_access st a then Ok (mem st a) else Fault.

Definition store (st : heap) (a v : Z) : result heap :=
  if valid_access st a then Ok (upd st a v) else Fault.

(** Compound assignment [*a op= ...]. *)
Definition modify (st : heap) (a : Z) (f : Z -> Z) : result heap :=
  t <- load st a ;; store st a (f t).

(** The macro [FREE_LIST_HEAD]: the pointer stored in the first word of
    the heap, at [mem_heap_lo()]. *)
Definition get_FREE_LIST_HEAD (st : heap) : result Z := load st (mem_heap_lo st).
Definition set_FREE_LIST_HEAD (st : heap) (v : Z) : result heap :=
  store st (mem_heap_lo st) v.

(** ** The free list *)

Fixpoint search_loop (fuel : nat) (st : heap) (req_size free_block : Z)
  : result Z :=
  match fuel with
  | O => OutOfFuel
  | S fuel' =>
      if free_block =? NULL then Ok NULL
      else
        t <- load st (free_block + off_size_and_tags) ;;
        if SIZE t >=? req_size then Ok free_block
        else
          next <- load st (free_block + off_next) ;;
          search_loop fuel' st req_size next
  end.

(** [static block_info* search_free_list(size_t req_size)] *)
Definition search_free_list (fuel : nat) (st : heap) (req_size : Z)
  : result Z :=
  free_block <- get_FREE_LIST_HEAD st ;;
  search_loop fuel st req_size free_block.

(** [static void insert_free_block(block_info* free_block)] *)
Definition insert_free_block (st : heap) (free_block : Z) : result heap :=
  old_head <- get_FREE_LIST_HEAD st ;;
  st <- store st (free_block + off_next) old_head ;;
  st <- (if negb (old_head =? NULL)
         then store st (old_head + off_prev) free_block
         else Ok st) ;;
  st <- store st (free_block + off_prev) NULL ;;
  set_FREE_LIST_HEAD st free_block.

(** [static void remove_free_block(block_info* free_block)] *)
Definition remove_free_block (st : heap) (free_block : Z) : result heap :=
  next_free <- load st (free_block + off_next) ;;
  prev_free <- load st (free_block + off_prev) ;;
  st <- (if negb (next_free =? NULL)
         then store st (next_free + off_prev) prev_free
         else Ok st) ;;
  head <- get_FREE_LIST_HEAD st ;;
  if free_block =? head
  then set_FREE_LIST_HEAD st next_free
  else store st (prev_free + off_next) next_free.

(** ** Coalescing *)

(** First loop of [coalesce_free_block]: absorb the preceding free
    blocks.  Returns the heap, the running size and the cursor. *)
Fixpoint coalesce_preceding (fuel : nat) (st : heap) (new_size block_cursor : Z)
  : result (heap * Z * Z) :=
  match fuel with
  | O => OutOfFuel
  | S fuel' =>
      t <- load st (block_cursor + off_size_and_tags) ;;
      if Z.land t TAG_PRECEDING_USED =? 0 then
        ft <- load st (UNSCALED_POINTER_SUB block_cursor WORD_SIZE) ;;
        let size := SIZE ft in
        let free_block := UNSCALED_POINTER_SUB block_cursor size in
        st <- remove_free_block st free_block ;;
        coalesce_preceding fuel' st (wrap64 (new_size + size)) free_block
      else Ok (st, new_size, block_cursor)
  end.

(** Second loop of [coalesce_free_block]: absorb the following free
    blocks. *)
Fixpoint coalesce_following (fuel : nat) (st : heap) (new_size block_cursor : Z)
  : result (heap * Z * Z) :=
  match fuel with
  | O => OutOfFuel
  | S fuel' =>
      t <- load st (block_cursor + off_size_and_tags) ;;
      if Z.land t TAG_USED =? 0 then
        let size := SIZE t in
        st <- remove_free_block st block_cursor ;;
        coalesce_following fuel' st (wrap64 (new_size + size))
          (UNSCALED_POINTER_ADD block_cursor size)
      else Ok (st, new_size, block_cursor)
  end.

(** [static void coalesce_free_block(block_info* old_block)] *)
Definition coalesce_free_block (fuel : nat) (st : heap) (old_block : Z)
  : result heap :=
  t <- load st (old_block + off_size_and_tags) ;;
  let old_size := SIZE t in
  let new_size := old_size in
  '(st, new_size, block_cursor) <- coalesce_preceding fuel st new_size old_block ;;
  let new_block := block_cursor in
  '(st, new_size, block_cursor) <-
     coalesce_following fuel st new_size (UNSCALED_POINTER_ADD old_block old_size) ;;
  if negb (new_size =? old_size) then
    st <- remove_free_block st old_block ;;
    st <- store st (new_block + off_size_and_tags)
            (Z.lor new_size TAG_PRECEDING_USED) ;;
    st <- store st (UNSCALED_POINTER_SUB block_cursor WORD_SIZE)
            (Z.lor new_size TAG_PRECEDING_USED) ;;
    insert_free_block st new_block
  else Ok st.

(** ** Heap growth and initialisation *)

(** [static void request_more_space(size_t req_size)] *)
Definition request_more_space (fuel : nat) (st : heap) (req_size : Z)
  : result heap :=
  let pagesize := mem_pagesize st in
  let num_pages := wrap64 (req_size + pagesize - 1) / pagesize in
  let total_size := wrap64 (num_pages * pagesize) in
  let '(st, mem_sbrk_result) := mem_sbrk st total_size in
  if mem_sbrk_result =? wrap64 (-1) then Exit 0
  else
    let new_block := UNSCALED_POINTER_SUB mem_sbrk_result WORD_SIZE in
    t <- load st (new_block + off_size_and_tags) ;;
    let prev_last_word_mask := Z.land t TAG_PRECEDING_USED in
    st <- store st (new_block + off_size_and_tags)
            (Z.lor total_size prev_last_word_mask) ;;
    st <- store st
            (UNSCALED_POINTER_ADD new_block (wrap64 (total_size - WORD_SIZE))
             + off_size_and_tags)
            (Z.lor total_size prev_last_word_mask) ;;
    st <- store st (UNSCALED_POINTER_ADD new_block total_size) TAG_USED ;;
    st <- insert_free_block st new_block ;;
    coalesce_free_block fuel st new_block.

(** [int mm_init()] *)
Definition mm_init (st : heap) : result (heap * Z) :=
  let init_size := wrap64 (WORD_SIZE + MIN_BLOCK_SIZE + WORD_SIZE) in
  let '(st, mem_sbrk_result) := mem_sbrk st init_size in
  if mem_sbrk_result =? wrap64 (-1) then Exit 1
  else
    let first_free_block := UNSCALED_POINTER_ADD (mem_heap_lo st) WORD_SIZE in
    let total_size := wrap64 (wrap64 (init_size - WORD_SIZE) - WORD_SIZE) in
    st <- store st (first_free_block + off_size_and_tags)
            (Z.lor total_size TAG_PRECEDING_USED) ;;
    st <- store st (first_free_block + off_next) NULL ;;
    st <- store st (first_free_block + off_prev) NULL ;;
    st <- store st
            (UNSCALED_POINTER_ADD first_free_block (wrap64 (total_size - WORD_SIZE)))
            (Z.lor total_size TAG_PRECEDING_USED) ;;
    st <- store st (UNSCALED_POINTER_SUB (mem_heap_hi st) (wrap64 (WORD_SIZE - 1)))
            TAG_USED ;;
    st <- set_FREE_LIST_HEAD st first_free_block ;;
    Ok (st, 0).

(** ** The allocator interface *)

(** The request size computed at the start of [mm_malloc]. *)
Definition request_size (size : Z) : Z :=
  let size := wrap64 (size + WORD_SIZE) in
  if size <=? MIN_BLOCK_SIZE then MIN_BLOCK_SIZE
  else wrap64 (ALIGNMENT * (wrap64 (size + ALIGNMENT - 1) / ALIGNMENT)).

(** [mm_malloc] from "Set used tag" on: the block found by the search is
    taken from the list, split when the rest can hold a block, and its
    payload address returned. *)
Definition place_block (st : heap) (ptr_free_block req_size : Z)
  : result (heap * Z) :=
  st <- modify st (ptr_free_block + off_size_and_tags)
          (fun t => Z.lor t TAG_USED) ;;
  st <- remove_free_block st ptr_free_block ;;
  t <- load st (ptr_free_block + off_size_and_tags) ;;
  let block_size := SIZE t in
  t <- load st (ptr_free_block + off_size_and_tags) ;;
  let preceding_block_use_tag := Z.land t TAG_PRECEDING_USED in
  st <- (if wrap64 (block_size - req_size) >=? MIN_BLOCK_SIZE then
           st <- store st (ptr_free_block + off_size_and_tags)
                   (Z.lor req_size preceding_block_use_tag) ;;
           st <- modify st (ptr_free_block + off_size_and_tags)
                   (fun t => Z.lor t TAG_USED) ;;
           let split_ptr := UNSCALED_POINTER_ADD ptr_free_block req_size in
           st <- store st (split_ptr + off_size_and_tags)
                   (wrap64 (block_size - req_size)) ;;
           st <- modify st (split_ptr + off_size_and_tags)
                   (fun t => Z.land t (wrap64 (Z.lnot TAG_USED))) ;;
           st <- modify st (split_ptr + off_size_and_tags)
                   (fun t => Z.lor t TAG_PRECEDING_USED) ;;
           t <- load st (split_ptr + off_size_and_tags) ;;
           let split_size := SIZE t in
           let footer :=
             UNSCALED_POINTER_SUB (UNSCALED_POINTER_ADD split_ptr split_size)
               WORD_SIZE in
           t <- load st (split_ptr + off_size_and_tags) ;;
           st <- store st (footer + off_size_and_tags) t ;;
           insert_free_block st split_ptr
         else
           let following_block :=
             UNSCALED_POINTER_ADD ptr_free_block block_size in
           modify st (following_block + off_size_and_tags)
             (fun t => Z.lor t TAG_PRECEDING_USED)) ;;
  Ok (st, UNSCALED_POINTER_ADD ptr_free_block WORD_SIZE).

(** [void* mm_malloc(size_t size)] *)
Definition mm_malloc (fuel : nat) (st : heap) (size : Z) : result (heap * Z) :=
  if size =? 0 then Ok (st, NULL)
  else
    let req_size := request_size size in
    ptr_free_block <- search_free_list fuel st req_size ;;
    '(st, ptr_free_block) <-
       (if ptr_free_block =? NULL then
          st <- request_more_space fuel st req_size ;;
          ptr_free_block <- search_free_list fuel st req_size ;;
          Ok (st, ptr_free_block)
        else Ok (st, ptr_free_block)) ;;
    place_block st ptr_free_block req_size.

(** [void mm_free(void* ptr)] *)
Definition mm_free (fuel : nat) (st : heap) (ptr : Z) : result heap :=
  let block_to_free := UNSCALED_POINTER_SUB ptr WORD_SIZE in
  t <- load st (block_to_free + off_size_and_tags) ;;
  let block_size := SIZE t in
  let following_block := UNSCALED_POINTER_ADD block_to_free block_size in
  st <- modify st (block_to_free + off_size_and_tags)
          (fun t => Z.land t (wrap64 (Z.lnot TAG_USED))) ;;
  st <- modify st (following_block + off_size_and_tags)
          (fun t => Z.land t (wrap64 (Z.lnot TAG_PRECEDING_USED))) ;;
  t <- load st (block_to_free + off_size_and_tags) ;;
  st <- store st
          (UNSCALED_POINTER_ADD block_to_free (wrap64 (block_size - WORD_SIZE))) t ;;
  st <- insert_free_block st block_to_free ;;
  coalesce_free_block fuel st block_to_free.

(** [int mm_check()]: the body is [return 0;]. *)
Definition mm_check (st : heap) : Z := 0.


(** ** Walking the heap *)

(** One line of the output of [examine_heap]: the block's address, its
    size, its two tags and, for a free block, its list pointers. *)
Record block_row : Type := mkRow {
  row_block : Z;
  row_size : Z;
  row_preceding_used : Z;
  row_used : Z;
  row_links : option (Z * Z)
}.

Fixpoint examine_loop (fuel : nat) (st : heap) (block : Z)
  : result (list block_row) :=
  match fuel with
  | O => OutOfFuel
  | S fuel' =>
      t <- load st (block + off_size_and_tags) ;;
      if negb (SIZE t =? 0) && (block <? mem_heap_hi st) then
        links <-
          (if negb (Z.land t TAG_USED =? 0) then Ok None
           else
             next <- load st (block + off_next) ;;
             prev <- load st (block + off_prev) ;;
             Ok (Some (next, prev))) ;;
        rows <- examine_loop fuel' st (UNSCALED_POINTER_ADD block (SIZE t)) ;;
        Ok (mkRow block (SIZE t) (Z.land t TAG_PRECEDING_USED)
              (Z.land t TAG_USED) links :: rows)
      else Ok []
  end.

(** [static void examine_heap()]: the walk over the heap as an implicit
    list, with the printed lines collected instead of written to stderr:
    the head of the free list, then one row per block. *)
Definition examine_heap (fuel : nat) (st : heap) : result (Z * list block_row) :=
  head <- get_FREE_LIST_HEAD st ;;
  rows <- examine_loop fuel st (UNSCALED_POINTER_ADD (mem_heap_lo st) WORD_SIZE) ;;
  Ok (head, rows).

(** The blocks of the free list in list order, following [next] from the
    head as [search_free_list] does. *)
Fixpoint free_list_from (fuel : nat) (st : heap) (free_block : Z)
  : result (list Z) :=
  match fuel with
  | O => OutOfFuel
  | S fuel' =>
      if free_block =? NULL then Ok []
      else
        next <- load st (free_block + off_next) ;;
        rest <- free_list_from fuel' st next ;;
        Ok (free_block :: rest)
  end.

Definition free_list (fuel : nat) (st : heap) : result (list Z) :=
  head <- get_FREE_LIST_HEAD st ;;
  free_list_from fuel st head.

(** The footer word of each free block of a walk. *)
Definition footers (st : heap) (rows : list block_row) : list (Z * Z) :=
  map (fun r =>
         let f := row_block r + row_size r - WORD_SIZE in (f, mem st f))
    (filter (fun r => row_used r =? 0) rows).

(** The observable heap state: the heap bounds, the block layout with the
    tags and list pointers of every block, the footers of the free
    blocks, the end-of-heap word, and the content of the free list. *)
Record view : Type := mkView {
  view_lo : Z;
  view_hi : Z;
  view_head : Z;
  view_rows : list block_row;
  view_footers : list (Z * Z);
  view_end_word : Z;
  view_free_list : list Z
}.

Definition heap_view (fuel : nat) (st : heap) : result view :=
  '(head, rows) <- examine_heap fuel st ;;
  fl <- free_list fuel st ;;
  end_word <- load st (UNSCALED_POINTER_SUB (mem_heap_hi st) (wrap64 (WORD_SIZE - 1))) ;;
  Ok (mkView (mem_heap_lo st) (mem_heap_hi st) head rows (footers st rows)
        end_word fl).


(** Sum of the block sizes of a walk. *)
Definition total_size (rows : list block_row) : Z :=
  fold_right (fun r acc => row_size r + acc) 0 rows.

(** ** Sequences of calls *)

Inductive call : Type :=
| Malloc (size : Z)
| Free (ptr : Z).

(** * The heap invariants *)

(** A boundary tag: a size with the two tag bits. *)
Definition tagword (s : Z) (pu u : bool) : Z :=
  s + (if pu then TAG_PRECEDING_USED else 0) + (if u then TAG_USED else 0).

(** A block of the layout: its address, its size and whether it is used. *)
Definition blk : Type := Z * Z * bool.
Definition blk_addr (b : blk) : Z := fst (fst b).
Definition blk_size (b : blk) : Z := snd (fst b).
Definition blk_used (b : blk) : bool := snd b.

(** The blocks [bs] tile the addresses from [a] to [e]; every size is a
    multiple of the alignment and at least the minimum block size (I1). *)
Fixpoint chain (a : Z) (bs : list blk) (e : Z) : Prop :=
  match bs with
  | [] => a = e
  | (a', s, u) :: r =>
      a' = a /\ MIN_BLOCK_SIZE <= s /\ s mod ALIGNMENT = 0 /\ chain (a + s) r e
  end.

(** The headers hold the sizes and tags of [bs], where [pu] tells whether
    the block before the first one is used (I2), and the footer of every
    free block repeats its header (I3). *)
Fixpoint tagged (m : Z -> Z) (pu : bool) (bs : list blk) : Prop :=
  match bs with
  | [] => True
  | (a, s, u) :: r =>
      m a = tagword s pu u
      /\ (u = false -> m (a + s - WORD_SIZE) = tagword s pu u)
      /\ tagged m u r
  end.

(** Whether the last block of [bs] is used ([pu] for no block). *)
Fixpoint last_used (pu : bool) (bs : list blk) : bool :=
  match bs with
  | [] => pu
  | (_, _, u) :: r => last_used u r
  end.

(** No two neighbours are free (I4). *)
Fixpoint no_adjacent (pu : bool) (bs : list blk) : Prop :=
  match bs with
  | [] => True
  | (_, _, u) :: r => (pu = true \/ u = true) /\ no_adjacent u r
  end.

(** A doubly-linked list in memory: starting at [h], the blocks of [l]
    follow each other through [next], each [prev] points back ([p] for
    the first block) and the last [next] is null. *)
Fixpoint flist (m : Z -> Z) (p h : Z) (l : list Z) : Prop :=
  match l with
  | [] => h = NULL
  | b :: l' =>
      h = b /\ b <> NULL /\ m (b + off_prev) = p
      /\ flist m b (m (b + off_next)) l'
  end.

Definition free_blocks (bs : list blk) : list Z :=
  map blk_addr (filter (fun b => negb (blk_used b)) bs).

(** The used blocks of a layout, each with its address and size. *)
Definition used_blocks (bs : list blk) : list (Z * Z) :=
  map (fun b => (blk_addr b, blk_size b)) (filter blk_used bs).

(** Memory with the word at [a] replaced by [v]. *)
Definition fupd (m : Z -> Z) (a v : Z) : Z -> Z :=
  fun x => if x =? a then v else m x.

(** The list blocks of [l] lie apart from [x]: their link fields do not
    overlap. *)
Definition far (x : Z) (l : list Z) : Prop :=
  Forall (fun y => x + sizeof_block_info <= y \/ y + sizeof_block_info <= x) l.

Fixpoint sep (l : list Z) : Prop :=
  match l with
  | [] => True
  | x :: r => far x r /\ sep r
  end.

(** The header and both link fields of [b] are words of the heap after
    the head slot. *)
Definition node_ok (st : heap) (b : Z) : Prop :=
  mem_start_brk st + WORD_SIZE <= b
  /\ b + sizeof_block_info <= mem_brk st
  /\ b mod WORD_SIZE = 0.

(** The free list of [st] is the well-formed list [l] (I5, the list
    part). *)
Record FL (st : heap) (l : list Z) : Prop := mkFL {
  fl_lo : 0 < mem_start_brk st
          /\ mem_start_brk st mod WORD_SIZE = 0
          /\ mem_start_brk st + WORD_SIZE <= mem_brk st;
  fl_list : flist (mem st) NULL (mem st (mem_start_brk st)) l;
  fl_sep : sep l;
  fl_nodes : Forall (node_ok st) l
}.

(** The simulator's own fields agree. *)
Definition same_sim (st st' : heap) : Prop :=
  mem_start_brk st' = mem_start_brk st /\ mem_brk st' = mem_brk st
  /\ mem_max_addr st' = mem_max_addr st /\ pagesize st' = pagesize st.

(** [st'] differs from [st] at most in the head slot and in the link
    fields of the blocks of [L]. *)
Definition frame (L : list Z) (st st' : heap) : Prop :=
  same_sim st st'
  /\ forall x, x <> mem_start_brk st ->
       Forall (fun b => x <> b + off_next /\ x <> b + off_prev) L ->
       mem st' x = mem st x.

(** The block found by a first-fit scan of [l]. *)
Definition first_fit (m : Z -> Z) (l : list Z) (n : Z) : Z :=
  match find (fun b => SIZE (m b) >=? n) l with
  | Some b => b
  | None => NULL
  end.

(** What the allocator assumes of the simulator: the heap starts at a
    non-null aligned address, it stays below 2 GiB (sizes pass through
    [int] parameters) and inside the address space, and the page size is
    a positive multiple of the alignment that fits an [int]. *)
Definition env_ok (st : heap) : Prop :=
  0 < mem_start_brk st
  /\ mem_start_brk st mod ALIGNMENT = 0
  /\ mem_max_addr st - mem_start_brk st < 2 ^ 31
  /\ mem_max_addr st < 2 ^ 64 - 1
  /\ 0 < pagesize st < 2 ^ 31
  /\ pagesize st mod ALIGNMENT = 0.

(** The heap of [st] is laid out as the blocks [bs], and its free list
    holds the blocks [fl], in this order (I1 to I6). *)
Record Inv (st : heap) (bs : list blk) (fl : list Z) : Prop := mkInv {
  inv_env : env_ok st;
  inv_brk : mem_brk st <= mem_max_addr st;
  inv_chain : chain (mem_start_brk st + WORD_SIZE) bs (mem_brk st - WORD_SIZE);
  inv_tagged : tagged (mem st) true bs;
  inv_end : mem st (mem_brk st - WORD_SIZE) = tagword 0 (last_used true bs) true;
  inv_noadj : no_adjacent true bs;
  inv_flist : flist (mem st) NULL (mem st (mem_start_brk st)) fl;
  inv_nodup : NoDup fl;
  inv_free : forall b, In b fl <-> In b (free_blocks bs)
}.

(** The layout behind a freshly freed block: the first header has lost
    its [TAG_PRECEDING_USED]; when that block is free its footer is
    stale, which is harmless because coalescing absorbs it. *)
Definition tagged_after (m : Z -> Z) (bs : list blk) : Prop :=
  match bs with
  | [] => True
  | (a, s, u) :: r => m a = tagword s false u /\ tagged m u r
  end.

(** The addresses that hold a boundary tag of the layout [bs] ending at
    [e]: the headers, the footer positions and the end-of-heap word. *)
Definition is_tag (bs : list blk) (e x : Z) : Prop :=
  x = e \/ exists y t v, In (y, t, v) bs /\ (x = y \/ x = y + t - WORD_SIZE).

(** The heap while [coalesce_free_block a] runs: the free region so far
    starts at [c] and has [n] bytes, it contains the block [a] that is
    being coalesced, [bs1] and [bs2] are the blocks before and after the
    region, and the list [l] holds [a] and the free blocks of [bs1] and
    [bs2]. *)
Record Co (st : heap) (bs1 : list blk) (c n a : Z) (bs2 : list blk)
  (l : list Z) : Prop := mkCo {
  co_env : env_ok st;
  co_brk : mem_brk st <= mem_max_addr st;
  co_chain : chain (mem_start_brk st + WORD_SIZE) (bs1 ++ (c, n, false) :: bs2)
               (mem_brk st - WORD_SIZE);
  co_a : c <= a /\ a + MIN_BLOCK_SIZE <= c + n /\ a mod ALIGNMENT = 0;
  co_tagged1 : tagged (mem st) true bs1;
  co_noadj1 : no_adjacent true bs1;
  co_tagged2 : tagged_after (mem st) bs2;
  co_noadj2 : no_adjacent true bs2;
  co_end : mem st (mem_brk st - WORD_SIZE) = tagword 0 (last_used false bs2) true;
  co_list : FL st l;
  co_free : forall b, In b l <-> b = a \/ In b (free_blocks (bs1 ++ bs2))
}.

(** The heap just before a new free block of [s] bytes at [a] enters the
    free list: [l] holds the free blocks of [bs1] and [bs2]; the tags of
    the new block are not constrained. *)
Record Gap (st : heap) (bs1 : list blk) (a s : Z) (bs2 : list blk)
  (l : list Z) : Prop := mkGap {
  ga_env : env_ok st;
  ga_brk : mem_brk st <= mem_max_addr st;
  ga_chain : chain (mem_start_brk st + WORD_SIZE) (bs1 ++ (a, s, false) :: bs2)
               (mem_brk st - WORD_SIZE);
  ga_tagged1 : tagged (mem st) true bs1;
  ga_noadj1 : no_adjacent true bs1;
  ga_tagged2 : tagged_after (mem st) bs2;
  ga_noadj2 : no_adjacent true bs2;
  ga_end : mem st (mem_brk st - WORD_SIZE) = tagword 0 (last_used false bs2) true;
  ga_list : FL st l;
  ga_free : forall b, In b l <-> In b (free_blocks (bs1 ++ bs2))
}.

(** The heap with the region of [n] bytes at [c] taken out of the free
    list and its tags not yet written: the blocks [bs1] before it end
    with a used block, a used block (or the end of the heap) follows it,
    and [l] holds the free blocks of [bs1] and [bs2]. *)
Record Hole (st : heap) (bs1 : list blk) (c n : Z) (bs2 : list blk)
  (l : list Z) : Prop := mkHole {
  ho_env : env_ok st;
  ho_brk : mem_brk st <= mem_max_addr st;
  ho_chain : chain (mem_start_brk st + WORD_SIZE) (bs1 ++ (c, n, false) :: bs2)
               (mem_brk st - WORD_SIZE);
  ho_tagged1 : tagged (mem st) true bs1;
  ho_noadj1 : no_adjacent true bs1;
  ho_last1 : last_used true bs1 = true;
  ho_tagged2 : tagged (mem st) false bs2;
  ho_noadj2 : no_adjacent false bs2;
  ho_end : mem st (mem_brk st - WORD_SIZE) = tagword 0 (last_used false bs2) true;
  ho_list : FL st l;
  ho_free : forall b, In b l <-> In b (free_blocks (bs1 ++ bs2))
}.

(** The simulator's constants agree; the break may have moved. *)
Definition same_consts (st st' : heap) : Prop :=
  mem_start_brk st' = mem_start_brk st /\ mem_max_addr st' = mem_max_addr st
  /\ pagesize st' = pagesize st.

(** A well-formed heap: some layout and some list satisfy the
    invariants. *)
Definition wf_heap (st : heap) : Prop := exists bs fl, Inv st bs fl.

(** The rows that [examine_heap] prints for the layout [bs]. *)
Fixpoint rows_of (m : Z -> Z) (pu : bool) (bs : list blk) : list block_row :=
  match bs with
  | [] => []
  | (a, s, u) :: r =>
      mkRow a s (if pu then TAG_PRECEDING_USED else 0)
        (if u then TAG_USED else 0)
        (if u then None else Some (m (a + off_next), m (a + off_prev)))
      :: rows_of m u r
  end.

(** I1 on a walk: the rows follow each other from [a] on, and every
    size is a multiple of the alignment and at least the minimum block
    size. *)
Fixpoint rows_tile (a : Z) (rows : list block_row) : bool :=
  match rows with
  | [] => true
  | r :: tl =>
      (row_block r =? a) && (MIN_BLOCK_SIZE <=? row_size r)
      && (row_size r mod ALIGNMENT =? 0) && rows_tile (a + row_size r) tl
  end.

(** I2 on a walk: the [TAG_PRECEDING_USED] of every row tells whether
    the row before it is used ([pu] for the first row). *)
Fixpoint tags_chained (pu : bool) (rows : list block_row) : bool :=
  match rows with
  | [] => true
  | r :: tl =>
      (row_preceding_used r =? (if pu then TAG_PRECEDING_USED else 0))
      && tags_chained (negb (row_used r =? 0)) tl
  end.

(** Whether the last row of a walk is used ([pu] for no row). *)
Fixpoint last_row_used (pu : bool) (rows : list block_row) : bool :=
  match rows with
  | [] => pu
  | r :: tl => last_row_used (negb (row_used r =? 0)) tl
  end.

(** The free blocks of a walk. *)
Definition free_rows (rows : list block_row) : list Z :=
  map row_block (filter (fun r => row_used r =? 0) rows).

(** The used blocks of a walk, each with its address and size. *)
Definition used_rows (rows : list block_row) : list (Z * Z) :=
  map (fun r => (row_block r, row_size r))
    (filter (fun r => negb (row_used r =? 0)) rows).


(** A request whose size arithmetic cannot wrap: at most [PTRDIFF_MAX]. *)
Definition valid_size (size : Z) : Prop := 0 <= size < 2 ^ 63.

(** The states reached by valid sequences of calls: [mm_init] on a fresh
    simulator, then [mm_malloc] with valid sizes, [mm_free] of pointers
    that [mm_malloc] returned and that were not freed since, and writes
    of the client to the words of its payloads.  [live] lists the
    payloads the client holds, each with the size it asked for.  Only
    calls that return extend a sequence. *)
Inductive reachable (fuel : nat) : heap -> list (Z * Z) -> Prop :=
| reach_init m lo max ps st r :
    env_ok (mem_init m lo max ps) ->
    max - lo <= Z.of_nat fuel ->
    mm_init (mem_init m lo max ps) = Ok (st, r) ->
    reachable fuel st []
| reach_malloc st live size st' p :
    reachable fuel st live ->
    valid_size size ->
    mm_malloc fuel st size = Ok (st', p) ->
    reachable fuel st' (if p =? NULL then live else (p, size) :: live)
| reach_free st live p size st' :
    reachable fuel st live ->
    In (p, size) live ->
    mm_free fuel st p = Ok st' ->
    reachable fuel st' (filter (fun e => negb (fst e =? p)) live)
| reach_write st live p size x v :
    reachable fuel st live ->
    In (p, size) live ->
    p <= x < p + size -> x mod WORD_SIZE = 0 ->
    0 <= v < 2 ^ 64 ->
    reachable fuel (upd st x v) live.

(** The payloads the client holds are the used blocks of the layout,
    and each fits the size asked for. *)
Definition live_ok (live : list (Z * Z)) (bs : list blk) : Prop :=
  (forall p size, In (p, size) live ->
     exists t, In (p - WORD_SIZE, t) (used_blocks bs) /\ size + WORD_SIZE <= t)
  /\ (forall a t, In (a, t) (used_blocks bs) ->
        exists size, In (a + WORD_SIZE, size) live).

(** [x] lies strictly inside one of the blocks [U] (address and size):
    behind the header word.  For a used block these are the words of the
    payload. *)
Definition inside (U : list (Z * Z)) (x : Z) : Prop :=
  exists y t, In (y, t) U /\ y < x < y + t.

(** [st'] has the contents of [st] inside the blocks [U]. *)
Definition kept (U : list (Z * Z)) (st st' : heap) : Prop :=
  forall x, inside U x -> mem st' x = mem st x.

(** A call that does not end the process. *)
Definition no_exit {A : Type} (r : result A) : Prop :=
  match r with
  | Exit _ => False
  | _ => True
  end.

(** * Scenarios on a concrete simulator

    A heap simulator at address 65536 with room for 8 KiB and pages of
    4096 bytes, over arbitrary initial memory contents. *)

Definition ex_lo : Z := 65536.
Definition ex_max : Z := ex_lo + 8192.
Definition ex_pagesize : Z := 4096.
Definition ex_fuel : nat := Z.to_nat 8192.
Definition ex_sim (m : Z -> Z) : heap := mem_init m ex_lo ex_max ex_pagesize.

(** The heap after [mm_init]. *)
Definition ex_init : heap :=
  match mm_init (ex_sim (fun _ => 0)) with
  | Ok (st, _) => st
  | _ => ex_sim (fun _ => 0)
  end.

(** The heap after [mm_init] and [mm_malloc(16)]: the free list is
    empty. *)
Definition ex_full : heap :=
  match mm_malloc ex_fuel ex_init 16 with
  | Ok (st, _) => st
  | _ => ex_init
  end.

(** The heap [ex_full] grown by [request_more_space(32)]. *)
Definition ex_grown : heap :=
  match request_more_space ex_fuel ex_full 32 with
  | Ok st => st
  | _ => ex_full
  end.

(** The heap after [mm_init] and two calls of [mm_malloc(16)]: the
    second call has grown the heap by a page. *)
Definition ex_two : heap :=
  match mm_malloc ex_fuel ex_full 16 with
  | Ok (st, _) => st
  | _ => ex_full
  end.

(** [ex_init] with the end-of-heap word cleared: I6 is violated. *)
Definition ex_bad : heap := upd ex_init (mem_brk ex_init - WORD_SIZE) 0.

(** Scenario S6 of the spec. *)
Definition lifo_scenario (fuel : nat) (st0 : heap) : result (Z * Z * Z) :=
  '(st, _) <- mm_init st0 ;;
  '(st, a) <- mm_malloc fuel st 16 ;;
  '(st, b) <- mm_malloc fuel st 16 ;;
  st <- mm_free fuel st a ;;
  st <- mm_free fuel st b ;;
  '(st, c) <- mm_malloc fuel st 16 ;;
  Ok (a, b, c).

(** The setup of scenarios S3 and S4 of the spec. *)
Definition three_blocks (fuel : nat) (st0 : heap) : result (heap * Z * Z * Z) :=
  '(st, _) <- mm_init st0 ;;
  '(st, a) <- mm_malloc fuel st 64 ;;
  '(st, b) <- mm_malloc fuel st 64 ;;
  '(st, c) <- mm_malloc fuel st 64 ;;
  Ok (st, a, b, c).

(** Scenario S3: [free(b)] then [free(c)]. *)
Definition free_b_then_c (fuel : nat) (st0 : heap) : result view :=
  '(st, a, b, c) <- three_blocks fuel st0 ;;
  st <- mm_free fuel st b ;;
  st <- mm_free fuel st c ;;
  heap_view fuel st.

(** Scenario S4: [free(c)] then [free(b)]. *)
Definition free_c_then_b (fuel : nat) (st0 : heap) : result view :=
  '(st, a, b, c) <- three_blocks fuel st0 ;;
  st <- mm_free fuel st c ;;
  st <- mm_free fuel st b ;;
  heap_view fuel st.

(** * Machine arithmetic *)

(** Linear arithmetic with the constants of the model unfolded and
    divisions and remainders turned into equations. *)
Ltac consts :=
  unfold MIN_BLOCK_SIZE, sizeof_block_info, off_size_and_tags, off_next,
    off_prev, ALIGNMENT, WORD_SIZE, TAG_USED, TAG_PRECEDING_USED, NULL in *;
  change (2 ^ 64) with 18446744073709551616 in *;
  change (2 ^ 63) with 9223372036854775808 in *;
  change (2 ^ 32) with 4294967296 in *;
  change (2 ^ 31) with 2147483648 in *.

Ltac zlia := consts; Z.div_mod_to_equations; lia.

Lemma wrap64_small x : 0 <= x < 2 ^ 64 -> wrap64 x = x.
Proof. intros H. unfold wrap64. apply Z.mod_small. exact H. Qed.

Lemma wrap64_range x : 0 <= wrap64 x < 2 ^ 64.
Proof. unfold wrap64. apply Z.mod_pos_bound. reflexivity. Qed.

Lemma to_int_small x : - 2 ^ 31 <= x < 2 ^ 31 -> to_int x = x.
Proof. intros H. unfold to_int. zlia. Qed.

Lemma to_int_wrap_neg x : - 2 ^ 31 <= x < 0 -> to_int (wrap64 x) = x.
Proof. intros H. unfold to_int, wrap64. zlia. Qed.

Lemma land_low_mask x m : 0 <= m < 8 -> Z.land x m = Z.land (x mod 8) m.
Proof.
  intros Hm.
  assert (E : Z.land 7 m = m).
  { assert (C : m = 0 \/ m = 1 \/ m = 2 \/ m = 3 \/ m = 4 \/ m = 5 \/ m = 6 \/ m = 7)
      by lia.
    repeat (destruct C as [C | C]; [subst m; reflexivity |]). subst m; reflexivity. }
  rewrite <- E at 1. rewrite Z.land_assoc.
  change 7 with (Z.ones 3). rewrite Z.land_ones by lia. reflexivity.
Qed.

Lemma land_wrap_lnot x m :
  0 <= x < 2 ^ 64 -> Z.land x (wrap64 (Z.lnot m)) = x - Z.land x m.
Proof.
  intros Hx. unfold wrap64.
  rewrite <- (Z.land_ones (Z.lnot m) 64) by lia.
  rewrite (Z.land_comm (Z.lnot m)), Z.land_assoc.
  rewrite (Z.land_ones x 64) by lia. rewrite Z.mod_small by exact Hx.
  symmetry. apply Z.sub_land_same_l.
Qed.

Lemma lor_low_mask x m : Z.lor x m = x + m - Z.land x m.
Proof. pose proof (Z.add_lor_land x m). lia. Qed.

(** ** Boundary tags *)

Section Tagword.
Variable s : Z.
Hypothesis s_range : 0 <= s < 2 ^ 63.
Hypothesis s_aligned : s mod ALIGNMENT = 0.

Lemma tagword_mod8 pu u :
  tagword s pu u mod 8
  = (if pu then TAG_PRECEDING_USED else 0) + (if u then TAG_USED else 0).
Proof.
  unfold tagword. destruct pu, u; zlia.
Qed.

Lemma tagword_range pu u : 0 <= tagword s pu u < 2 ^ 64.
Proof.
  unfold tagword, TAG_PRECEDING_USED, TAG_USED. destruct pu, u; lia.
Qed.

Lemma SIZE_tagword pu u : SIZE (tagword s pu u) = s.
Proof.
  unfold SIZE. rewrite land_wrap_lnot by apply tagword_range.
  change (ALIGNMENT - 1) with 7.
  rewrite land_low_mask by lia. rewrite tagword_mod8.
  unfold tagword, TAG_PRECEDING_USED, TAG_USED. destruct pu, u; simpl; lia.
Qed.

Lemma tagword_used pu u :
  Z.land (tagword s pu u) TAG_USED = if u then TAG_USED else 0.
Proof.
  unfold TAG_USED at 1. rewrite land_low_mask by lia. rewrite tagword_mod8.
  destruct pu, u; reflexivity.
Qed.

Lemma tagword_preceding_used pu u :
  Z.land (tagword s pu u) TAG_PRECEDING_USED
  = if pu then TAG_PRECEDING_USED else 0.
Proof.
  unfold TAG_PRECEDING_USED at 1. rewrite land_low_mask by lia.
  rewrite tagword_mod8. destruct pu, u; reflexivity.
Qed.

Lemma tagword_set_used pu u :
  Z.lor (tagword s pu u) TAG_USED = tagword s pu true.
Proof.
  rewrite lor_low_mask, tagword_used. unfold tagword, TAG_USED.
  destruct pu, u; lia.
Qed.

Lemma tagword_set_preceding_used pu u :
  Z.lor (tagword s pu u) TAG_PRECEDING_USED = tagword s true u.
Proof.
  rewrite lor_low_mask, tagword_preceding_used.
  unfold tagword, TAG_PRECEDING_USED. destruct pu, u; lia.
Qed.

Lemma tagword_clear_used pu u :
  Z.land (tagword s pu u) (wrap64 (Z.lnot TAG_USED)) = tagword s pu false.
Proof.
  rewrite land_wrap_lnot by apply tagword_range. rewrite tagword_used.
  unfold tagword, TAG_USED. destruct pu, u; lia.
Qed.

Lemma tagword_clear_preceding_used pu u :
  Z.land (tagword s pu u) (wrap64 (Z.lnot TAG_PRECEDING_USED))
  = tagword s false u.
Proof.
  rewrite land_wrap_lnot by apply tagword_range.
  rewrite tagword_preceding_used.
  unfold tagword, TAG_PRECEDING_USED. destruct pu, u; lia.
Qed.

Lemma lor_size_mask (pu : bool) :
  Z.lor s (if pu then TAG_PRECEDING_USED else 0) = tagword s pu false.
Proof.
  destruct pu.
  - replace s with (tagword s false false) at 1
      by (unfold tagword; lia).
    apply tagword_set_preceding_used.
  - rewrite Z.lor_0_r. unfold tagword; lia.
Qed.

Lemma plain_size_tagword : s = tagword s false false.
Proof. unfold tagword; lia. Qed.

End Tagword.

Lemma tagword_inj s pu u s' pu' u' :
  s mod ALIGNMENT = 0 -> s' mod ALIGNMENT = 0 ->
  tagword s pu u = tagword s' pu' u' -> s = s' /\ pu = pu' /\ u = u'.
Proof.
  unfold tagword.
  intros H1 H2 H. destruct pu, u, pu', u'; repeat split; try zlia.
Qed.

(** * Word accesses *)

Lemma valid_access_intro st a :
  mem_start_brk st <= a -> a + WORD_SIZE <= mem_brk st -> a mod WORD_SIZE = 0 ->
  valid_access st a = true.
Proof.
  intros H1 H2 H3. unfold valid_access, mem_heap_lo.
  rewrite (proj2 (Z.leb_le _ _) H1), (proj2 (Z.leb_le _ _) H2), H3. reflexivity.
Qed.

Lemma valid_access_elim st a :
  valid_access st a = true ->
  mem_start_brk st <= a /\ a + WORD_SIZE <= mem_brk st /\ a mod WORD_SIZE = 0.
Proof.
  unfold valid_access, mem_heap_lo. intros H.
  apply andb_prop in H. destruct H as [H H3].
  apply andb_prop in H. destruct H as [H1 H2].
  apply Z.leb_le in H1. apply Z.leb_le in H2. apply Z.eqb_eq in H3. auto.
Qed.

Lemma load_ok st a : valid_access st a = true -> load st a = Ok (mem st a).
Proof. intros H. unfold load. rewrite H. reflexivity. Qed.

Lemma store_ok st a v : valid_access st a = true -> store st a v = Ok (upd st a v).
Proof. intros H. unfold store. rewrite H. reflexivity. Qed.

Lemma modify_ok st a f :
  valid_access st a = true -> modify st a f = Ok (upd st a (f (mem st a))).
Proof.
  intros H. unfold modify. rewrite load_ok by exact H. simpl.
  apply store_ok. exact H.
Qed.

Lemma load_fault st a : valid_access st a = false -> load st a = Fault.
Proof. intros H. unfold load. rewrite H. reflexivity. Qed.

Lemma store_fault st a v : valid_access st a = false -> store st a v = Fault.
Proof. intros H. unfold store. rewrite H. reflexivity. Qed.

Lemma mem_upd_same st a v : mem (upd st a v) a = v.
Proof. simpl. rewrite Z.eqb_refl. reflexivity. Qed.

Lemma mem_upd_other st a v x : x <> a -> mem (upd st a v) x = mem st x.
Proof. intros H. simpl. apply Z.eqb_neq in H. rewrite H. reflexivity. Qed.

Lemma valid_access_upd st a v x : valid_access (upd st a v) x = valid_access st x.
Proof. reflexivity. Qed.

(** * The free list *)

Lemma fupd_same m a v : fupd m a v a = v.
Proof. unfold fupd. rewrite Z.eqb_refl. reflexivity. Qed.

Lemma fupd_other m a v x : x <> a -> fupd m a v x = m x.
Proof. intros H. unfold fupd. apply Z.eqb_neq in H. rewrite H. reflexivity. Qed.

Lemma mem_upd st a v : mem (upd st a v) = fupd (mem st) a v.
Proof. reflexivity. Qed.

Lemma last_cons {A} (x : A) l d : last (x :: l) d = last l x.
Proof.
  revert x d. induction l as [|y l IH]; intros x d; [reflexivity|].
  change (last (x :: y :: l) d) with (last (y :: l) d).
  rewrite !IH. reflexivity.
Qed.

Lemma last_In {A} (l : list A) d : l <> [] -> In (last l d) l.
Proof.
  induction l as [|x l IH]; intros H; [congruence|].
  destruct l as [|y l]; [left; reflexivity|].
  right. apply IH. discriminate.
Qed.

Lemma far_app x l1 l2 : far x (l1 ++ l2) <-> far x l1 /\ far x l2.
Proof. unfold far. apply Forall_app. Qed.

Lemma far_In x l y :
  far x l -> In y l -> x + sizeof_block_info <= y \/ y + sizeof_block_info <= x.
Proof. unfold far. rewrite Forall_forall. intros H Hy. apply H, Hy. Qed.

Lemma sep_app l1 l2 :
  sep (l1 ++ l2) <-> sep l1 /\ sep l2 /\ Forall (fun x => far x l2) l1.
Proof.
  induction l1 as [|x l1 IH]; simpl.
  - intuition.
  - rewrite far_app, IH. split.
    + intros ((H1 & H2) & H3 & H4 & H5). repeat split; auto.
    + intros ((H1 & H2) & H3 & H4). inversion H4; subst. tauto.
Qed.

Lemma sep_remove_mid l1 b l2 : sep (l1 ++ b :: l2) -> sep (l1 ++ l2).
Proof.
  rewrite !sep_app. simpl. intros (H1 & (H2 & H3) & H4).
  repeat split; auto.
  eapply Forall_impl; [|exact H4]. simpl. unfold far.
  intros a Ha. inversion Ha; auto.
Qed.

Lemma sep_NoDup l : sep l -> NoDup l.
Proof.
  induction l as [|x l IH]; simpl; intros H; constructor.
  - destruct H as [H _]. intros Hin. pose proof (far_In _ _ _ H Hin). zlia.
  - apply IH, H.
Qed.

Lemma sep_In_far l x y :
  sep l -> In x l -> In y l -> x <> y ->
  x + sizeof_block_info <= y \/ y + sizeof_block_info <= x.
Proof.
  induction l as [|z l IH]; simpl; intros Hs Hx Hy Hne; [contradiction|].
  destruct Hs as [Hf Hs]. destruct Hx as [-> | Hx], Hy as [-> | Hy].
  - congruence.
  - eapply far_In; eauto.
  - pose proof (far_In _ _ _ Hf Hx). lia.
  - auto.
Qed.

Lemma flist_frame m m' p h l :
  Forall (fun b => m' (b + off_next) = m (b + off_next)
                   /\ m' (b + off_prev) = m (b + off_prev)) l ->
  flist m p h l -> flist m' p h l.
Proof.
  revert p h. induction l as [|b l IH]; simpl; intros p h HF H; [exact H|].
  inversion HF as [|? ? [E1 E2] HF']; subst.
  destruct H as (H1 & H2 & H3 & H4). repeat split; auto.
  - congruence.
  - rewrite E1. apply IH; auto.
Qed.

Lemma flist_hd m p h l : flist m p h l -> h = hd NULL l.
Proof. destruct l; simpl; intuition. Qed.

Lemma flist_nonnull m p h l b : flist m p h l -> In b l -> b <> NULL.
Proof.
  revert p h. induction l as [|x l IH]; simpl; intros p h H Hin; [contradiction|].
  destruct H as (_ & H2 & _ & H4). destruct Hin as [<- | Hin]; eauto.
Qed.

Lemma flist_mid m l2 b : forall l1 p h,
  flist m p h (l1 ++ b :: l2) ->
  m (b + off_prev) = last l1 p /\ m (b + off_next) = hd NULL l2
  /\ h = hd b l1 /\ b <> NULL.
Proof.
  induction l1 as [|x l1 IH]; simpl app; intros p h H.
  - simpl in H. destruct H as (H1 & H2 & H3 & H4).
    apply flist_hd in H4. simpl. auto.
  - destruct H as (H1 & H2 & H3 & H4).
    apply IH in H4. rewrite last_cons. simpl hd. tauto.
Qed.

Lemma hd_In_nonnull m p h l : flist m p h l -> hd NULL l <> NULL -> In (hd NULL l) l.
Proof. destruct l; simpl; intros H Hn; [congruence | auto]. Qed.

(** Unlinking [b] from the middle of a list, as [remove_free_block]
    patches the memory. *)
Lemma flist_remove m l2 b : forall l1 p h,
  flist m p h (l1 ++ b :: l2) ->
  sep (l1 ++ b :: l2) ->
  let next := hd NULL l2 in
  let prev := last l1 p in
  let m1 := if next =? NULL then m else fupd m (next + off_prev) prev in
  (l1 = [] -> flist m1 p next l2)
  /\ (l1 <> [] -> flist (fupd m1 (prev + off_next) next) p h (l1 ++ l2)).
Proof.
  induction l1 as [|x l1 IH]; intros p h H Hsep next prev m1.
  - split; [intros _ | congruence].
    simpl in H. destruct H as (H1 & H2 & H3 & H4).
    simpl in Hsep. destruct Hsep as (_ & Hsep).
    subst next prev m1. simpl last.
    destruct l2 as [|n l2]; simpl hd.
    + simpl. reflexivity.
    + simpl in H4. destruct H4 as (E1 & E2 & E3 & E4).
      simpl in Hsep. destruct Hsep as (Hfar & _).
      apply Z.eqb_neq in E2. rewrite E2. simpl. repeat split.
      * apply Z.eqb_neq, E2.
      * apply fupd_same.
      * rewrite fupd_other by zlia.
        eapply flist_frame; [|exact E4].
        unfold far in Hfar. eapply Forall_impl; [|exact Hfar].
        simpl. intros y Hy. rewrite !fupd_other by zlia. auto.
  - split; [congruence | intros _].
    simpl app in *. simpl in Hsep. destruct Hsep as (Hfx & Hsep).
    destruct H as (H1 & H2 & H3 & H4).
    specialize (IH x (m (x + off_next)) H4 Hsep). cbv zeta in IH.
    destruct IH as [IH1 IH2].
    assert (Hprev : prev = last l1 x) by (subst prev; apply last_cons).
    fold next in IH1, IH2. rewrite <- Hprev in IH1, IH2. fold m1 in IH1, IH2.
    apply far_app in Hfx. destruct Hfx as (Hfx1 & Hfx2).
    assert (Hfb : far x l2) by (inversion Hfx2; assumption).
    assert (Hm1 : forall a, (next = NULL \/ a <> next + off_prev) -> m1 a = m a).
    { intros a Ha. subst m1. destruct (Z.eqb_spec next NULL) as [E|E]; auto.
      apply fupd_other. destruct Ha; congruence. }
    assert (Hnext : next = NULL \/ In next l2).
    { subst next. destruct l2; simpl; auto. }
    assert (Hnx : forall k, k = off_next \/ k = off_prev ->
                            next = NULL \/ x + k <> next + off_prev).
    { intros k Hk. destruct Hnext as [E | Hin]; [left; exact E | right].
      pose proof (far_In _ _ _ Hfb Hin). destruct Hk; subst k; zlia. }
    simpl. repeat split; auto.
    + destruct l1 as [|y l1].
      * simpl in Hprev. rewrite fupd_other by (rewrite Hprev; zlia).
        rewrite Hm1 by auto. exact H3.
      * assert (Hin : In prev (y :: l1)) by (rewrite Hprev; apply last_In; discriminate).
        pose proof (far_In _ _ _ Hfx1 Hin).
        rewrite fupd_other by zlia. rewrite Hm1 by auto. exact H3.
    + destruct l1 as [|y l1].
      * simpl in Hprev. rewrite Hprev. rewrite fupd_same.
        simpl app. specialize (IH1 eq_refl).
        eapply flist_frame; [|exact IH1].
        unfold far in Hfb. eapply Forall_impl; [|exact Hfb].
        simpl. intros z Hz. rewrite !fupd_other by zlia. auto.
      * assert (Hin : In prev (y :: l1)) by (rewrite Hprev; apply last_In; discriminate).
        pose proof (far_In _ _ _ Hfx1 Hin).
        rewrite fupd_other by zlia. rewrite Hm1 by auto.
        apply IH2. discriminate.
Qed.

(** ** The list operations of mm.c *)

Lemma node_access st b :
  mem_start_brk st mod WORD_SIZE = 0 -> node_ok st b ->
  valid_access st b = true /\ valid_access st (b + off_next) = true
  /\ valid_access st (b + off_prev) = true.
Proof.
  intros Hlo (H1 & H2 & H3).
  repeat split; apply valid_access_intro; zlia.
Qed.

Lemma head_access st :
  mem_start_brk st mod WORD_SIZE = 0 ->
  mem_start_brk st + WORD_SIZE <= mem_brk st ->
  valid_access st (mem_heap_lo st) = true.
Proof. intros. apply valid_access_intro; unfold mem_heap_lo; zlia. Qed.

Lemma same_sim_refl st : same_sim st st.
Proof. unfold same_sim; auto. Qed.

Lemma same_sim_trans st1 st2 st3 :
  same_sim st1 st2 -> same_sim st2 st3 -> same_sim st1 st3.
Proof. unfold same_sim. intuition congruence. Qed.

Lemma same_sim_upd st a v : same_sim st (upd st a v).
Proof. unfold same_sim; auto. Qed.

Lemma node_ok_same st st' b : same_sim st st' -> node_ok st b -> node_ok st' b.
Proof.
  unfold same_sim, node_ok. intros (E1 & E2 & _) H. rewrite E1, E2. exact H.
Qed.

Lemma valid_access_same st st' a :
  same_sim st st' -> valid_access st' a = valid_access st a.
Proof.
  unfold same_sim, valid_access, mem_heap_lo. intros (E1 & E2 & _).
  rewrite E1, E2. reflexivity.
Qed.

Lemma frame_refl L st : frame L st st.
Proof. split; [apply same_sim_refl | auto]. Qed.

Lemma frame_trans L st1 st2 st3 :
  frame L st1 st2 -> frame L st2 st3 -> frame L st1 st3.
Proof.
  intros [S1 F1] [S2 F2]. split; [eapply same_sim_trans; eauto|].
  intros x Hx HL. rewrite F2, F1; auto.
  destruct S1 as (E & _). rewrite E. exact Hx.
Qed.

Lemma frame_weaken L L' st st' :
  (forall b, In b L -> In b L') -> frame L st st' -> frame L' st st'.
Proof.
  intros Hsub [S F]. split; [exact S|]. intros x Hx HL. apply F; auto.
  rewrite Forall_forall in *. intros b Hb. apply HL, Hsub, Hb.
Qed.

Lemma search_loop_spec st req l : forall p h fuel,
  mem_start_brk st mod WORD_SIZE = 0 ->
  flist (mem st) p h l -> Forall (node_ok st) l ->
  (length l < fuel)%nat ->
  search_loop fuel st req h = Ok (first_fit (mem st) l req).
Proof.
  induction l as [|b l IH]; intros p h fuel Hlo H Hn Hfuel.
  - simpl in H. subst h. destruct fuel; [simpl in Hfuel; lia|]. reflexivity.
  - destruct fuel as [|fuel]; [simpl in Hfuel; lia|].
    simpl in H. destruct H as (-> & H2 & H3 & H4).
    inversion Hn as [|? ? Hb Hn']; subst.
    destruct (node_access _ _ Hlo Hb) as (A1 & A2 & A3).
    simpl search_loop. apply Z.eqb_neq in H2. rewrite H2.
    unfold off_size_and_tags. rewrite Z.add_0_r.
    rewrite load_ok by exact A1. simpl bind.
    unfold first_fit. simpl find.
    destruct (SIZE (mem st b) >=? req); [reflexivity|].
    rewrite load_ok by exact A2. simpl bind.
    erewrite IH; eauto. simpl in Hfuel. lia.
Qed.

Lemma free_list_from_spec st l : forall p h fuel,
  mem_start_brk st mod WORD_SIZE = 0 ->
  flist (mem st) p h l -> Forall (node_ok st) l ->
  (length l < fuel)%nat ->
  free_list_from fuel st h = Ok l.
Proof.
  induction l as [|b l IH]; intros p h fuel Hlo H Hn Hfuel.
  - simpl in H. subst h. destruct fuel; [simpl in Hfuel; lia|]. reflexivity.
  - destruct fuel as [|fuel]; [simpl in Hfuel; lia|].
    simpl in H. destruct H as (-> & H2 & H3 & H4).
    inversion Hn as [|? ? Hb Hn']; subst.
    destruct (node_access _ _ Hlo Hb) as (A1 & A2 & A3).
    simpl free_list_from. apply Z.eqb_neq in H2. rewrite H2.
    rewrite load_ok by exact A2. simpl bind.
    erewrite IH; eauto. simpl in Hfuel. lia.
Qed.

Lemma search_free_list_spec st l req fuel :
  FL st l -> (length l < fuel)%nat ->
  search_free_list fuel st req = Ok (first_fit (mem st) l req).
Proof.
  intros [(Hp & Hlo & Hbrk) Hl Hs Hn] Hfuel.
  unfold search_free_list, get_FREE_LIST_HEAD.
  rewrite load_ok by (apply head_access; assumption). simpl bind.
  eapply search_loop_spec; eauto.
Qed.

Lemma free_list_spec st l fuel :
  FL st l -> (length l < fuel)%nat -> free_list fuel st = Ok l.
Proof.
  intros [(Hp & Hlo & Hbrk) Hl Hs Hn] Hfuel.
  unfold free_list, get_FREE_LIST_HEAD.
  rewrite load_ok by (apply head_access; assumption). simpl bind.
  eapply free_list_from_spec; eauto.
Qed.

Lemma FL_same_nodes st st' l :
  same_sim st st' -> Forall (node_ok st) l -> Forall (node_ok st') l.
Proof.
  intros S H. eapply Forall_impl; [|exact H]. intros b. apply node_ok_same, S.
Qed.

(** Changes away from the head slot and from the link fields keep the
    list. *)
Lemma FL_frame st st' l :
  FL st l -> same_sim st st' ->
  mem st' (mem_start_brk st) = mem st (mem_start_brk st) ->
  Forall (fun b => mem st' (b + off_next) = mem st (b + off_next)
                   /\ mem st' (b + off_prev) = mem st (b + off_prev)) l ->
  FL st' l.
Proof.
  intros [Hlo Hl Hs Hn] S Hh Hf.
  pose proof S as (E1 & E2 & _).
  constructor.
  - rewrite E1, E2. exact Hlo.
  - rewrite E1, Hh. eapply flist_frame; eauto.
  - exact Hs.
  - eapply FL_same_nodes; eauto.
Qed.

Lemma FL_upd st l a v :
  FL st l -> a <> mem_start_brk st ->
  Forall (fun b => a <> b + off_next /\ a <> b + off_prev) l ->
  FL (upd st a v) l.
Proof.
  intros H Ha Hl. eapply FL_frame; eauto.
  - apply same_sim_upd.
  - apply mem_upd_other. auto.
  - eapply Forall_impl; [|exact Hl]. simpl. intros b [H1 H2].
    split; apply mem_upd_other; auto.
Qed.

Lemma insert_free_block_spec st l b :
  FL st l -> node_ok st b -> far b l ->
  exists st', insert_free_block st b = Ok st'
              /\ frame (b :: l) st st' /\ FL st' (b :: l).
Proof.
  intros [(Hp & Hlo & Hbrk) Hl Hs Hn] Hb Hfar.
  destruct (node_access _ _ Hlo Hb) as (A1 & A2 & A3).
  pose proof (head_access _ Hlo Hbrk) as Ah.
  pose proof Hb as (B1 & B2 & B3).
  unfold insert_free_block, get_FREE_LIST_HEAD, set_FREE_LIST_HEAD.
  rewrite load_ok by exact Ah. simpl bind.
  rewrite store_ok by exact A2. simpl bind.
  pose proof (flist_hd _ _ _ _ Hl) as Hh. unfold mem_heap_lo in *.
  destruct l as [|h l].
  - simpl in Hh. rewrite Hh. simpl negb. cbv iota. simpl bind.
    rewrite store_ok by exact A3. simpl bind.
    rewrite store_ok by exact Ah. eexists. split; [reflexivity|]. split.
    + split; [repeat split|]. intros x Hx HL. inversion HL as [|? ? [X1 X2] _]; subst.
      rewrite !mem_upd. rewrite !fupd_other by auto. reflexivity.
    + constructor.
      * simpl. auto.
      * rewrite !mem_upd. simpl mem_start_brk. rewrite fupd_same.
        simpl. repeat split.
        -- zlia.
        -- rewrite fupd_other by zlia. apply fupd_same.
        -- rewrite (fupd_other _ _ _ (b + off_next)) by zlia.
           rewrite (fupd_other _ _ _ (b + off_next)) by zlia.
           apply fupd_same.
      * split; [constructor | exact I].
      * constructor; [|constructor]. exact Hb.
  - simpl in Hh. rewrite Hh.
    simpl in Hl. destruct Hl as (_ & Hhn & Hhp & Hl). clear Hh.
    inversion Hn as [|? ? Hhok Hn']; subst.
    destruct (node_access _ _ Hlo Hhok) as (C1 & C2 & C3).
    pose proof Hhok as (D1 & D2 & D3).
    simpl in Hs. destruct Hs as (Hfh & Hs).
    pose proof (far_In _ _ _ Hfar (or_introl eq_refl)) as Hbh.
    apply Z.eqb_neq in Hhn. rewrite Hhn. simpl negb. cbv iota.
    rewrite store_ok by exact C3. simpl bind.
    rewrite store_ok by exact A3. simpl bind.
    rewrite store_ok by exact Ah. eexists. split; [reflexivity|]. split.
    + split; [repeat split|]. intros x Hx HL.
      inversion HL as [|? ? [X1 X2] HL']; subst.
      inversion HL' as [|? ? [Y1 Y2] _]; subst.
      rewrite !mem_upd. rewrite !fupd_other by auto. reflexivity.
    + constructor.
      * simpl. auto.
      * rewrite !mem_upd. simpl mem_start_brk. rewrite fupd_same.
        simpl. repeat split.
        -- zlia.
        -- rewrite fupd_other by zlia. apply fupd_same.
        -- rewrite (fupd_other _ _ _ (b + off_next)) by zlia.
           rewrite (fupd_other _ _ _ (b + off_next)) by zlia.
           rewrite (fupd_other _ _ _ (b + off_next)) by zlia.
           apply fupd_same.
        -- apply Z.eqb_neq, Hhn.
        -- rewrite (fupd_other _ _ _ (h + off_prev)) by zlia.
           rewrite (fupd_other _ _ _ (h + off_prev)) by zlia.
           apply fupd_same.
        -- rewrite !(fupd_other _ _ _ (h + off_next)) by zlia.
           eapply flist_frame; [|exact Hl].
           rewrite Forall_forall. intros y Hy.
           pose proof (far_In _ _ _ Hfar (or_intror Hy)).
           pose proof (far_In _ _ _ Hfh Hy).
           rewrite Forall_forall in Hn'. pose proof (Hn' _ Hy) as (E1 & E2 & E3).
           rewrite !fupd_other by zlia. auto.
      * simpl. auto.
      * constructor; [exact Hb|]. constructor; [exact Hhok|].
        eapply FL_same_nodes; [|exact Hn']. repeat split.
Qed.

Lemma remove_free_block_spec st l1 b l2 :
  FL st (l1 ++ b :: l2) ->
  exists st', remove_free_block st b = Ok st'
              /\ frame (l1 ++ b :: l2) st st' /\ FL st' (l1 ++ l2).
Proof.
  intros [(Hp & Hlo & Hbrk) Hl Hs Hn].
  pose proof (flist_mid _ _ _ _ _ _ Hl) as (Eprev & Enext & Ehead & Hbn).
  pose proof (flist_remove _ _ _ _ _ _ Hl Hs) as Hrem. cbv zeta in Hrem.
  pose proof Hn as Hn0.
  apply Forall_app in Hn. destruct Hn as (Hn1 & Hn).
  inversion Hn as [|? ? Hb Hn2]; subst.
  destruct (node_access _ _ Hlo Hb) as (A1 & A2 & A3).
  pose proof (head_access _ Hlo Hbrk) as Ah. unfold mem_heap_lo in Ah.
  set (next := hd NULL l2) in *. set (prev := last l1 NULL) in *.
  assert (Hnext : next = NULL \/ (In next l2 /\ node_ok st next)).
  { subst next. destruct l2 as [|n l2]; simpl; auto. right. split; auto.
    inversion Hn2; assumption. }
  assert (Hprev : l1 <> [] -> In prev l1 /\ node_ok st prev).
  { intros Hne. assert (Hin : In prev l1) by (apply last_In, Hne).
    split; auto. rewrite Forall_forall in Hn1. auto. }
  set (st1 := if next =? NULL then st else upd st (next + off_prev) prev).
  assert (E1 : (if negb (next =? NULL) then store st (next + off_prev) prev
                else Ok st) = Ok st1).
  { subst st1. destruct (Z.eqb_spec next NULL) as [E|E]; [reflexivity|].
    simpl negb. cbv iota. destruct Hnext as [? | (_ & Hok)]; [congruence|].
    apply store_ok. apply (node_access _ _ Hlo Hok). }
  assert (Em1 : mem st1 = if next =? NULL then mem st
                          else fupd (mem st) (next + off_prev) prev).
  { subst st1. destruct (next =? NULL); reflexivity. }
  assert (S1 : same_sim st st1).
  { subst st1. destruct (next =? NULL); repeat split. }
  assert (Eh1 : mem st1 (mem_start_brk st) = hd b l1).
  { rewrite Em1, <- Ehead. destruct (Z.eqb_spec next NULL) as [E|E]; [reflexivity|].
    destruct Hnext as [? | (_ & Hok)]; [congruence|].
    destruct Hok as (O1 & _). apply fupd_other. zlia. }
  assert (F1 : forall x,
             Forall (fun y => x <> y + off_next /\ x <> y + off_prev)
               (l1 ++ b :: l2) -> mem st1 x = mem st x).
  { intros x Hx. rewrite Em1. destruct (Z.eqb_spec next NULL) as [E|E]; [reflexivity|].
    destruct Hnext as [? | (Hin & _)]; [congruence|].
    rewrite Forall_forall in Hx. apply fupd_other.
    apply (Hx next). apply in_or_app. right. right. exact Hin. }
  unfold remove_free_block, get_FREE_LIST_HEAD, set_FREE_LIST_HEAD, mem_heap_lo.
  rewrite load_ok by exact A2. simpl bind.
  rewrite load_ok by exact A3. simpl bind.
  rewrite Enext, Eprev. fold next prev. rewrite E1. simpl bind.
  pose proof S1 as (Es1 & Es2 & _).
  rewrite Es1. rewrite load_ok by (rewrite (valid_access_same st st1); auto).
  simpl bind. rewrite Eh1.
  destruct l1 as [|x l1].
  - simpl hd. rewrite Z.eqb_refl.
    rewrite store_ok by (rewrite (valid_access_same st st1); auto).
    eexists. split; [reflexivity|]. split.
    + split; [eapply same_sim_trans; [exact S1 | apply same_sim_upd]|].
      intros y Hy HL. rewrite mem_upd_other by congruence. apply F1, HL.
    + destruct Hrem as (Hrem & _). specialize (Hrem eq_refl).
      simpl last in Hrem. fold next in Hrem. rewrite <- Em1 in Hrem.
      simpl app. simpl in Hs. destruct Hs as (Hfb & Hs).
      constructor.
      * simpl. rewrite Es1, Es2. auto.
      * simpl mem_start_brk. rewrite Es1. rewrite mem_upd_same.
        eapply flist_frame; [|exact Hrem].
        rewrite Forall_forall in *. intros y Hy.
        pose proof (Hn2 _ Hy) as (O1 & _).
        rewrite !mem_upd_other by zlia. auto.
      * exact Hs.
      * eapply FL_same_nodes; [|exact Hn2].
        eapply same_sim_trans; [exact S1 | apply same_sim_upd].
  - simpl hd.
    simpl app in Hs. simpl in Hs. destruct Hs as (Hfx & Hs).
    assert (Hxb : x <> b).
    { apply far_app in Hfx. destruct Hfx as (_ & Hfx).
      pose proof (far_In _ _ _ Hfx (or_introl eq_refl)). zlia. }
    apply Z.eqb_neq in Hxb. rewrite Z.eqb_sym in Hxb. rewrite Hxb.
    destruct (Hprev ltac:(discriminate)) as (Hpin & Hpok).
    destruct (node_access _ _ Hlo Hpok) as (P1 & P2 & P3).
    rewrite store_ok by (rewrite (valid_access_same st st1); auto).
    eexists. split; [reflexivity|]. split.
    + split; [eapply same_sim_trans; [exact S1 | apply same_sim_upd]|].
      intros y Hy HL. rewrite mem_upd_other.
      * apply F1, HL.
      * rewrite Forall_forall in HL. apply (HL prev).
        apply in_or_app. left. exact Hpin.
    + destruct Hrem as (_ & Hrem). specialize (Hrem ltac:(discriminate)).
      fold next prev in Hrem. rewrite <- Em1 in Hrem.
      constructor.
      * simpl. rewrite Es1, Es2. auto.
      * simpl mem_start_brk. rewrite Es1. rewrite mem_upd.
        rewrite fupd_other by (destruct Hpok as (O1 & _); zlia).
        rewrite Eh1. simpl hd.
        replace (mem st (mem_start_brk st)) with x in Hrem by (rewrite Ehead; reflexivity).
        exact Hrem.
      * apply (sep_remove_mid (x :: l1) b l2). simpl. auto.
      * apply Forall_app. split.
        -- eapply FL_same_nodes; [|exact Hn1].
           eapply same_sim_trans; [exact S1 | apply same_sim_upd].
        -- eapply FL_same_nodes; [|exact Hn2].
           eapply same_sim_trans; [exact S1 | apply same_sim_upd].
Qed.

(** The same for a block anywhere in the list. *)
Lemma remove_free_block_In st l b :
  FL st l -> In b l ->
  exists st' l', remove_free_block st b = Ok st'
                 /\ frame l st st' /\ FL st' l'
                 /\ (forall x, In x l' <-> In x l /\ x <> b)
                 /\ (forall x, hd NULL l = x -> x <> b -> hd NULL l' = x).
Proof.
  intros HFL Hin. apply in_split in Hin. destruct Hin as (l1 & l2 & ->).
  destruct (remove_free_block_spec _ _ _ _ HFL) as (st' & E & F & HFL').
  exists st', (l1 ++ l2).
  split; [exact E|]. split; [exact F|]. split; [exact HFL'|]. split.
  - intros x. split.
    + intros H. split.
      * apply in_app_or in H. apply in_or_app. simpl. tauto.
      * intros ->. pose proof (sep_NoDup _ (fl_sep _ _ HFL)) as Hnd.
        apply NoDup_remove_2 in Hnd. apply Hnd. exact H.
    + intros (H1 & H2). apply in_app_or in H1. apply in_or_app.
      simpl in H1. intuition congruence.
  - intros x Hx Hne. destruct l1; simpl in *; [congruence | exact Hx].
Qed.

(** * The block layout *)

Lemma chain_app l1 : forall a l2 e,
  chain a (l1 ++ l2) e <-> exists mid, chain a l1 mid /\ chain mid l2 e.
Proof.
  induction l1 as [|[[x s] u] l1 IH]; intros a l2 e; simpl.
  - split.
    + intros H. exists a. auto.
    + intros (mid & -> & H). exact H.
  - rewrite IH. split.
    + intros (H1 & H2 & H3 & mid & H4 & H5). exists mid. tauto.
    + intros (mid & (H1 & H2 & H3 & H4) & H5). repeat split; auto.
      exists mid. auto.
Qed.

Lemma chain_le bs : forall a e, chain a bs e -> a <= e.
Proof.
  induction bs as [|[[x s] u] bs IH]; simpl; intros a e H.
  - lia.
  - destruct H as (_ & H1 & _ & H2). apply IH in H2. zlia.
Qed.

Lemma chain_In bs : forall a e x s u,
  chain a bs e -> In (x, s, u) bs ->
  a <= x /\ x + s <= e /\ MIN_BLOCK_SIZE <= s /\ s mod ALIGNMENT = 0.
Proof.
  induction bs as [|[[y t] v] bs IH]; simpl; intros a e x s u H Hin.
  - contradiction.
  - destruct H as (-> & H1 & H2 & H3). destruct Hin as [E | Hin].
    + inversion E; subst. apply chain_le in H3. repeat split; zlia.
    + destruct (IH _ _ _ _ _ H3 Hin) as (I1 & I2 & I3 & I4).
      repeat split; zlia.
Qed.

Lemma chain_aligned bs : forall a e,
  a mod ALIGNMENT = 0 -> chain a bs e ->
  e mod ALIGNMENT = 0
  /\ forall x s u, In (x, s, u) bs -> x mod ALIGNMENT = 0.
Proof.
  induction bs as [|[[y t] v] bs IH]; simpl; intros a e Ha H.
  - subst. split; [exact Ha | contradiction].
  - destruct H as (-> & H1 & H2 & H3).
    assert (Ha' : (a + t) mod ALIGNMENT = 0) by zlia.
    destruct (IH _ _ Ha' H3) as (I1 & I2). split; [exact I1|].
    intros x s u [E | Hin]; [inversion E; subst; exact Ha | eauto].
Qed.

Lemma chain_disjoint bs : forall a e x s u y t v,
  chain a bs e -> In (x, s, u) bs -> In (y, t, v) bs ->
  (x, s, u) = (y, t, v) \/ x + s <= y \/ y + t <= x.
Proof.
  induction bs as [|[[z r] w] bs IH]; simpl; intros a e x s u y t v H Hx Hy.
  - contradiction.
  - destruct H as (-> & H1 & H2 & H3).
    destruct Hx as [Ex | Hx], Hy as [Ey | Hy].
    + left. congruence.
    + inversion Ex; subst. right. left.
      pose proof (chain_In _ _ _ _ _ _ H3 Hy). lia.
    + inversion Ey; subst. right. right.
      pose proof (chain_In _ _ _ _ _ _ H3 Hx). lia.
    + eapply IH; eauto.
Qed.

Lemma chain_same_addr bs a e x s u t v :
  chain a bs e -> In (x, s, u) bs -> In (x, t, v) bs -> s = t /\ u = v.
Proof.
  intros H Hx Hy.
  pose proof (chain_In _ _ _ _ _ _ H Hx). pose proof (chain_In _ _ _ _ _ _ H Hy).
  destruct (chain_disjoint _ _ _ _ _ _ _ _ _ H Hx Hy) as [E | [E | E]];
    [inversion E; auto | zlia | zlia].
Qed.

(** A header, a footer or the end-of-heap word never is a link field. *)
Lemma tag_not_link bs a e x s u y t v :
  chain a bs e -> In (x, s, u) bs -> In (y, t, v) bs ->
  (x <> y + off_next /\ x <> y + off_prev)
  /\ (x + s - WORD_SIZE <> y + off_next /\ x + s - WORD_SIZE <> y + off_prev)
  /\ (e <> y + off_next /\ e <> y + off_prev).
Proof.
  intros H Hx Hy.
  pose proof (chain_In _ _ _ _ _ _ H Hx). pose proof (chain_In _ _ _ _ _ _ H Hy).
  destruct (chain_disjoint _ _ _ _ _ _ _ _ _ H Hx Hy) as [E | [E | E]];
    [inversion E; subst | |]; repeat split; zlia.
Qed.

Lemma last_used_app l1 : forall pu l2,
  last_used pu (l1 ++ l2) = last_used (last_used pu l1) l2.
Proof.
  induction l1 as [|[[x s] u] l1 IH]; simpl; intros pu l2; auto.
Qed.

Lemma tagged_app m l1 : forall pu l2,
  tagged m pu (l1 ++ l2) <-> tagged m pu l1 /\ tagged m (last_used pu l1) l2.
Proof.
  induction l1 as [|[[x s] u] l1 IH]; simpl; intros pu l2.
  - tauto.
  - rewrite IH. tauto.
Qed.

Lemma no_adjacent_app l1 : forall pu l2,
  no_adjacent pu (l1 ++ l2)
  <-> no_adjacent pu l1 /\ no_adjacent (last_used pu l1) l2.
Proof.
  induction l1 as [|[[x s] u] l1 IH]; simpl; intros pu l2.
  - tauto.
  - rewrite IH. tauto.
Qed.

Lemma no_adjacent_weaken bs pu : no_adjacent pu bs -> no_adjacent true bs.
Proof. destruct bs as [|[[x s] u] bs]; simpl; tauto. Qed.

Lemma tagged_frame m m' bs : forall pu,
  (forall a s u, In (a, s, u) bs ->
     m' a = m a /\ (u = false -> m' (a + s - WORD_SIZE) = m (a + s - WORD_SIZE))) ->
  tagged m pu bs -> tagged m' pu bs.
Proof.
  induction bs as [|[[x s] u] bs IH]; simpl; intros pu HF H; [exact I|].
  destruct H as (H1 & H2 & H3).
  destruct (HF x s u (or_introl eq_refl)) as (E1 & E2).
  repeat split.
  - congruence.
  - intros Hu. rewrite E2 by exact Hu. auto.
  - apply IH; auto.
Qed.

Lemma tagged_In m bs : forall pu a s u,
  tagged m pu bs -> In (a, s, u) bs ->
  exists pu', m a = tagword s pu' u
              /\ (u = false -> m (a + s - WORD_SIZE) = tagword s pu' u).
Proof.
  induction bs as [|[[x t] v] bs IH]; simpl; intros pu a s u H Hin.
  - contradiction.
  - destruct H as (H1 & H2 & H3). destruct Hin as [E | Hin].
    + inversion E; subst. eauto.
    + eauto.
Qed.

Lemma tagged_free m bs : forall pu a s,
  tagged m pu bs -> no_adjacent pu bs -> In (a, s, false) bs ->
  m a = tagword s true false /\ m (a + s - WORD_SIZE) = tagword s true false.
Proof.
  induction bs as [|[[x t] v] bs IH]; simpl; intros pu a s H Hn Hin.
  - contradiction.
  - destruct H as (H1 & H2 & H3). destruct Hn as (N1 & N2).
    destruct Hin as [E | Hin].
    + inversion E; subst. destruct N1 as [-> | ?]; [|discriminate].
      split; auto.
    + eauto.
Qed.

(** ** Free blocks and used payloads *)

Lemma In_free_blocks bs b :
  In b (free_blocks bs) <-> exists s, In (b, s, false) bs.
Proof.
  unfold free_blocks. rewrite in_map_iff. split.
  - intros ([[x s] u] & E & H). apply filter_In in H. destruct H as (H & Hu).
    unfold blk_addr, blk_used in *. simpl in *. subst.
    destruct u; [discriminate|]. eauto.
  - intros (s & H). exists (b, s, false). split; [reflexivity|].
    apply filter_In. auto.
Qed.

Lemma In_used_blocks bs x s :
  In (x, s) (used_blocks bs) <-> In (x, s, true) bs.
Proof.
  unfold used_blocks. rewrite in_map_iff. split.
  - intros ([[y t] u] & E & H). apply filter_In in H. destruct H as (H & Hu).
    unfold blk_addr, blk_size, blk_used in *. simpl in *.
    inversion E; subst. exact H.
  - intros H. exists (x, s, true). split; [reflexivity|].
    apply filter_In. auto.
Qed.

Lemma free_blocks_app l1 l2 :
  free_blocks (l1 ++ l2) = free_blocks l1 ++ free_blocks l2.
Proof. unfold free_blocks. rewrite filter_app, map_app. reflexivity. Qed.

Lemma used_blocks_app l1 l2 :
  used_blocks (l1 ++ l2) = used_blocks l1 ++ used_blocks l2.
Proof. unfold used_blocks. rewrite filter_app, map_app. reflexivity. Qed.

(** ** From the invariant to the list *)

Lemma sep_intro l :
  NoDup l ->
  (forall x y, In x l -> In y l -> x <> y ->
     x + sizeof_block_info <= y \/ y + sizeof_block_info <= x) ->
  sep l.
Proof.
  induction l as [|x l IH]; simpl; intros Hnd H; [exact I|].
  inversion Hnd; subst. split.
  - unfold far. rewrite Forall_forall. intros y Hy. apply H; auto.
    intros ->. contradiction.
  - apply IH; auto.
Qed.

Lemma blocks_far bs a e x s u y t v :
  chain a bs e -> In (x, s, u) bs -> In (y, t, v) bs -> x <> y ->
  x + sizeof_block_info <= y \/ y + sizeof_block_info <= x.
Proof.
  intros H Hx Hy Hne.
  pose proof (chain_In _ _ _ _ _ _ H Hx). pose proof (chain_In _ _ _ _ _ _ H Hy).
  destruct (chain_disjoint _ _ _ _ _ _ _ _ _ H Hx Hy) as [E | [E | E]];
    [inversion E; congruence | zlia | zlia].
Qed.

Lemma block_node_ok st bs x s u :
  mem_start_brk st mod ALIGNMENT = 0 ->
  chain (mem_start_brk st + WORD_SIZE) bs (mem_brk st - WORD_SIZE) ->
  In (x, s, u) bs -> node_ok st x.
Proof.
  intros Hlo H Hx. pose proof (chain_In _ _ _ _ _ _ H Hx).
  assert (Ha : (mem_start_brk st + WORD_SIZE) mod ALIGNMENT = 0) by zlia.
  destruct (chain_aligned _ _ _ Ha H) as (_ & Hal).
  specialize (Hal _ _ _ Hx). unfold node_ok. repeat split; zlia.
Qed.

(** A list of distinct blocks of the layout is a well-spaced list of
    nodes. *)
Lemma blocks_sep st bs l :
  mem_start_brk st mod ALIGNMENT = 0 ->
  chain (mem_start_brk st + WORD_SIZE) bs (mem_brk st - WORD_SIZE) ->
  NoDup l ->
  (forall b, In b l -> exists s u, In (b, s, u) bs) ->
  sep l /\ Forall (node_ok st) l.
Proof.
  intros Hlo H Hnd Hsub. split.
  - apply sep_intro; auto. intros x y Hx Hy Hne.
    destruct (Hsub _ Hx) as (s & u & Hx'). destruct (Hsub _ Hy) as (t & v & Hy').
    eapply blocks_far; eauto.
  - rewrite Forall_forall. intros x Hx.
    destruct (Hsub _ Hx) as (s & u & Hx'). eapply block_node_ok; eauto.
Qed.

Lemma Inv_FL st bs fl : Inv st bs fl -> FL st fl.
Proof.
  intros [Henv Hbrk Hch Htag Hend Hna Hfl Hnd Hfree].
  destruct Henv as (E1 & E2 & E3 & E4 & E5 & E6).
  destruct (blocks_sep st bs fl E2 Hch Hnd) as (Hs & Hn).
  { intros b Hb. apply Hfree, In_free_blocks in Hb. destruct Hb as (s & Hb). eauto. }
  pose proof (chain_le _ _ _ Hch).
  constructor; auto. repeat split; zlia.
Qed.

(** * Words inside used blocks *)

Lemma kept_refl U st : kept U st st.
Proof. intros x _. reflexivity. Qed.

Lemma kept_trans U st1 st2 st3 : kept U st1 st2 -> kept U st2 st3 -> kept U st1 st3.
Proof. intros H1 H2 x Hx. rewrite (H2 x Hx). apply H1. exact Hx. Qed.

Lemma kept_sub U U' st st' :
  (forall q, In q U' -> In q U) -> kept U st st' -> kept U' st st'.
Proof.
  intros Hsub H x (y & t & Hy & Hx). apply H. exists y, t. auto.
Qed.

Lemma kept_upd U st x v : ~ inside U x -> kept U st (upd st x v).
Proof.
  intros Hx z Hz. apply mem_upd_other. intros ->. contradiction.
Qed.

Lemma kept_frame U L st st' :
  frame L st st' ->
  ~ inside U (mem_start_brk st) ->
  (forall b, In b L -> ~ inside U (b + off_next) /\ ~ inside U (b + off_prev)) ->
  kept U st st'.
Proof.
  intros [_ F] Hlo HL x Hx. apply F.
  - intros ->. contradiction.
  - rewrite Forall_forall. intros b Hb. destruct (HL b Hb) as (H1 & H2).
    split; intros ->; contradiction.
Qed.

(** The words of a block of the layout, its header and the word behind
    it lie inside no other used block. *)
Lemma chain_not_inside bs a e U b tb v x :
  chain a bs e ->
  (forall q, In q U -> In q (used_blocks bs)) ->
  In (b, tb, v) bs ->
  (forall t, ~ In (b, t) U) ->
  b <= x <= b + tb ->
  ~ inside U x.
Proof.
  intros Hch HU Hb Hnot Hx (y & t & Hy & Hin).
  pose proof (HU _ Hy) as Hy'. apply In_used_blocks in Hy'.
  destruct (chain_disjoint _ _ _ _ _ _ _ _ _ Hch Hb Hy') as [E | [E | E]].
  - inversion E; subst. exact (Hnot _ Hy).
  - lia.
  - lia.
Qed.

(** Neither do the words before the first block or from the end on. *)
Lemma chain_not_inside_out bs a e U x :
  chain a bs e ->
  (forall q, In q U -> In q (used_blocks bs)) ->
  x <= a \/ e <= x ->
  ~ inside U x.
Proof.
  intros Hch HU Hx (y & t & Hy & Hin).
  pose proof (HU _ Hy) as Hy'. apply In_used_blocks in Hy'.
  pose proof (chain_In _ _ _ _ _ _ Hch Hy'). lia.
Qed.

(** * Coalescing *)

Lemma last_used_false bs : forall pu,
  last_used pu bs = false ->
  (bs = [] /\ pu = false) \/ exists bs' p sp, bs = bs' ++ [(p, sp, false)].
Proof.
  induction bs as [|[[x s] u] bs IH]; simpl; intros pu H.
  - left. auto.
  - right. destruct (IH u H) as [(-> & ->) | (bs' & p & sp & ->)].
    + exists [], x, s. reflexivity.
    + exists ((x, s, u) :: bs'), p, sp. reflexivity.
Qed.

Lemma in_app_mid {A} (x y : A) l1 l2 : In x (l1 ++ l2) -> In x (l1 ++ y :: l2).
Proof. intros H. apply in_app_or in H. apply in_or_app. simpl. tauto. Qed.

Lemma chain_merge a p sp u1 s u2 r e :
  chain a ((p, sp, u1) :: (p + sp, s, u2) :: r) e ->
  chain a ((p, sp + s, false) :: r) e.
Proof.
  simpl. intros (H1 & H2 & H3 & H4 & H5 & H6 & H7).
  repeat split; auto; try zlia. replace (a + (sp + s)) with (a + sp + s) by lia.
  exact H7.
Qed.

Lemma chain_mid l1 a x s u l2 e :
  chain a (l1 ++ (x, s, u) :: l2) e ->
  chain a l1 x /\ MIN_BLOCK_SIZE <= s /\ s mod ALIGNMENT = 0 /\ chain (x + s) l2 e.
Proof.
  intros H. apply chain_app in H. destruct H as (mid & H1 & H2).
  simpl in H2. destruct H2 as (-> & H3 & H4 & H5). auto.
Qed.

Lemma chain_mid_intro l1 a x s u l2 e :
  chain a l1 x -> MIN_BLOCK_SIZE <= s -> s mod ALIGNMENT = 0 ->
  chain (x + s) l2 e -> chain a (l1 ++ (x, s, u) :: l2) e.
Proof.
  intros H1 H2 H3 H4. apply chain_app. exists x. split; [exact H1|].
  simpl. auto.
Qed.

Section CoFacts.
Variables (st : heap) (bs1 : list blk) (c n a : Z) (bs2 : list blk) (l : list Z).
Hypothesis HCo : Co st bs1 c n a bs2 l.

Lemma Co_geom :
  0 < mem_start_brk st /\ mem_start_brk st mod ALIGNMENT = 0
  /\ mem_start_brk st + WORD_SIZE <= c /\ c + n <= mem_brk st - WORD_SIZE
  /\ MIN_BLOCK_SIZE <= n /\ n mod ALIGNMENT = 0 /\ c mod ALIGNMENT = 0
  /\ mem_brk st <= mem_max_addr st
  /\ mem_max_addr st - mem_start_brk st < 2 ^ 31
  /\ mem_brk st mod ALIGNMENT = 0.
Proof.
  destruct HCo as [Henv Hbrk Hch Ha _ _ _ _ _ _ _].
  destruct Henv as (E1 & E2 & E3 & E4 & E5 & E6).
  assert (Hin : In (c, n, false) (bs1 ++ (c, n, false) :: bs2))
    by (apply in_or_app; right; left; reflexivity).
  pose proof (chain_In _ _ _ _ _ _ Hch Hin) as (I1 & I2 & I3 & I4).
  assert (Hal : (mem_start_brk st + WORD_SIZE) mod ALIGNMENT = 0) by zlia.
  destruct (chain_aligned _ _ _ Hal Hch) as (Hal1 & Hal2).
  specialize (Hal2 _ _ _ Hin).
  repeat split; auto; zlia.
Qed.

Lemma Co_tag_sep x :
  is_tag (bs1 ++ (c, n, false) :: bs2) (mem_brk st - WORD_SIZE) x ->
  x <> mem_start_brk st
  /\ Forall (fun b => x <> b + off_next /\ x <> b + off_prev) l.
Proof.
  intros Hx. pose proof Co_geom as (G1 & G2 & G3 & G4 & G5 & G6 & G7 & G8 & G9 & G10).
  destruct HCo as [Henv Hbrk Hch Ha _ _ _ _ _ _ Hfree].
  assert (Hin : In (c, n, false) (bs1 ++ (c, n, false) :: bs2))
    by (apply in_or_app; right; left; reflexivity).
  split.
  - destruct Hx as [-> | (y & t & v & Hy & Hx)]; [zlia|].
    pose proof (chain_In _ _ _ _ _ _ Hch Hy). zlia.
  - rewrite Forall_forall. intros b Hb. apply Hfree in Hb.
    destruct Hb as [-> | Hb].
    + destruct Hx as [-> | (y & t & v & Hy & Hx)]; [zlia|].
      pose proof (chain_In _ _ _ _ _ _ Hch Hy).
      destruct (chain_disjoint _ _ _ _ _ _ _ _ _ Hch Hy Hin) as [E | [E | E]];
        [inversion E; subst | |]; zlia.
    + apply In_free_blocks in Hb. destruct Hb as (t & Hb).
      apply (in_app_mid _ (c, n, false)) in Hb.
      destruct Hx as [-> | (y & r & v & Hy & Hx)].
      * apply (tag_not_link _ _ _ _ _ _ _ _ _ Hch Hb Hb).
      * pose proof (tag_not_link _ _ _ _ _ _ _ _ _ Hch Hy Hb) as (T1 & T2 & T3).
        destruct Hx as [-> | ->]; assumption.
Qed.

Lemma Co_tag_access x :
  is_tag (bs1 ++ (c, n, false) :: bs2) (mem_brk st - WORD_SIZE) x ->
  valid_access st x = true.
Proof.
  intros Hx. pose proof Co_geom as (G1 & G2 & G3 & G4 & G5 & G6 & G7 & G8 & G9 & G10).
  destruct HCo as [Henv Hbrk Hch Ha _ _ _ _ _ _ Hfree].
  assert (Hal : (mem_start_brk st + WORD_SIZE) mod ALIGNMENT = 0) by zlia.
  destruct (chain_aligned _ _ _ Hal Hch) as (Hal1 & Hal2).
  destruct Hx as [-> | (y & t & v & Hy & Hx)].
  - apply valid_access_intro; zlia.
  - pose proof (chain_In _ _ _ _ _ _ Hch Hy). specialize (Hal2 _ _ _ Hy).
    destruct Hx as [-> | ->]; apply valid_access_intro; zlia.
Qed.

Lemma Co_frame_tag st' x :
  frame l st st' ->
  is_tag (bs1 ++ (c, n, false) :: bs2) (mem_brk st - WORD_SIZE) x ->
  mem st' x = mem st x.
Proof.
  intros [_ F] Hx. destruct (Co_tag_sep x Hx) as (H1 & H2). apply F; auto.
Qed.

End CoFacts.

Lemma tagged_framed m m' bs e bs' : forall pu,
  (forall x, is_tag bs e x -> m' x = m x) ->
  (forall b, In b bs' -> In b bs) ->
  tagged m pu bs' -> tagged m' pu bs'.
Proof.
  intros pu HF Hsub. apply tagged_frame. intros y t v Hy.
  apply Hsub in Hy. split.
  - apply HF. right. exists y, t, v. auto.
  - intros _. apply HF. right. exists y, t, v. auto.
Qed.

Lemma tagged_after_framed m m' bs e bs' :
  (forall x, is_tag bs e x -> m' x = m x) ->
  (forall b, In b bs' -> In b bs) ->
  tagged_after m bs' -> tagged_after m' bs'.
Proof.
  intros HF Hsub. destruct bs' as [|[[y t] v] r]; simpl; [auto|].
  intros (H1 & H2). split.
  - rewrite HF; [exact H1|]. right. exists y, t, v. split; [|auto].
    apply Hsub. left. reflexivity.
  - eapply tagged_framed; eauto. intros b Hb. apply Hsub. right. exact Hb.
Qed.

Lemma tagged_after_weaken m bs : tagged m false bs -> tagged_after m bs.
Proof. destruct bs as [|[[y t] v] r]; simpl; tauto. Qed.

Lemma env_ok_same st st' : same_sim st st' -> env_ok st -> env_ok st'.
Proof.
  unfold same_sim, env_ok. intros (E1 & E2 & E3 & E4) H.
  rewrite E1, E3, E4. exact H.
Qed.

Lemma ptr_sub_small p x :
  - 2 ^ 31 <= x < 2 ^ 31 -> UNSCALED_POINTER_SUB p x = p - x.
Proof. intros H. unfold UNSCALED_POINTER_SUB. rewrite to_int_small by exact H. reflexivity. Qed.

Lemma ptr_add_small p x :
  - 2 ^ 31 <= x < 2 ^ 31 -> UNSCALED_POINTER_ADD p x = p + x.
Proof. intros H. unfold UNSCALED_POINTER_ADD. rewrite to_int_small by exact H. reflexivity. Qed.

Lemma coalesce_preceding_spec fuel st bs1 a s bs2 l :
  Co st bs1 a s a bs2 l ->
  mem st a = tagword s (last_used true bs1) false ->
  (2 <= fuel)%nat ->
  exists st1 bs1' c n l1,
    coalesce_preceding fuel st s a = Ok (st1, n, c)
    /\ frame l st st1
    /\ Co st1 bs1' c n a bs2 l1
    /\ last_used true bs1' = true
    /\ c + n = a + s /\ s <= n
    /\ (n = s -> st1 = st /\ bs1' = bs1 /\ l1 = l)
    /\ (forall p, In p (used_blocks bs1') <-> In p (used_blocks bs1))
    /\ (hd NULL l = a -> hd NULL l1 = a).
Proof.
  intros HCo Hhdr Hfuel.
  pose proof (Co_geom _ _ _ _ _ _ _ HCo)
    as (G1 & G2 & G3 & G4 & G5 & G6 & G7 & G8 & G9 & G10).
  destruct fuel as [|[|fuel]]; try lia.
  assert (Hin : In (a, s, false) (bs1 ++ (a, s, false) :: bs2))
    by (apply in_or_app; right; left; reflexivity).
  assert (Aa : valid_access st a = true).
  { apply (Co_tag_access _ _ _ _ _ _ _ HCo). right. exists a, s, false. auto. }
  assert (Hs : 0 <= s < 2 ^ 63) by zlia.
  cbn [coalesce_preceding]. unfold off_size_and_tags. rewrite !Z.add_0_r.
  rewrite load_ok by exact Aa. cbn [bind]. rewrite Hhdr.
  rewrite tagword_preceding_used by assumption.
  destruct (last_used true bs1) eqn:Hlu.
  - change (TAG_PRECEDING_USED =? 0) with false. cbv iota.
    exists st, bs1, a, s, l.
    split; [reflexivity|]. split; [apply frame_refl|]. split; [exact HCo|].
    split; [exact Hlu|]. split; [lia|]. split; [lia|]. split; [auto|].
    split; [tauto | auto].
  - change (0 =? 0) with true. cbv iota.
    destruct (last_used_false _ _ Hlu) as [(_ & Habs) | (bs1' & p & sp & ->)];
      [discriminate|].
    pose proof HCo as [Henv Hbrk Hch Ha Ht1 Hn1 Ht2 Hn2 Hend HFL Hfree].
    pose proof Hch as Hch'.
    rewrite <- app_assoc in Hch'. simpl in Hch'.
    pose proof (chain_mid _ _ _ _ _ _ _ Hch') as (C1 & C2 & C3 & C4).
    pose proof C4 as C4'. simpl in C4'. destruct C4' as (Eap & _ & _ & C5).
    apply tagged_app in Ht1. destruct Ht1 as (Ht1 & (Hp1 & Hp2 & _)).
    apply no_adjacent_app in Hn1. destruct Hn1 as (Hn1 & (Hpu & _)).
    destruct Hpu as [Hpu | Hpu]; [|discriminate].
    rewrite Hpu in Hp1, Hp2. specialize (Hp2 eq_refl).
    pose proof (chain_le _ _ _ C1) as Hlep.
    assert (Hsp : 0 <= sp < 2 ^ 63) by zlia.
    assert (Hinp : In (p, sp, false) ((bs1' ++ [(p, sp, false)]) ++ (a, s, false) :: bs2)).
    { apply in_or_app. left. apply in_or_app. right. left. reflexivity. }
    rewrite ptr_sub_small by zlia.
    replace (a - WORD_SIZE) with (p + sp - WORD_SIZE) by lia.
    rewrite load_ok
      by (apply (Co_tag_access _ _ _ _ _ _ _ HCo); right; exists p, sp, false; auto).
    cbn [bind]. rewrite Hp2. rewrite SIZE_tagword by assumption.
    rewrite ptr_sub_small by zlia. replace (a - sp) with p by lia.
    assert (Hpl : In p l).
    { apply Hfree. right. apply In_free_blocks. exists sp.
      apply in_or_app. left. apply in_or_app. right. left. reflexivity. }
    destruct (remove_free_block_In _ _ _ HFL Hpl)
      as (st1 & l1 & Erm & Hfr & HFL1 & Hl1 & Hhd).
    rewrite Erm. cbn [bind]. rewrite wrap64_small by zlia.
    pose proof Hfr as (Hsim & _). pose proof Hsim as (S1 & S2 & S3 & S4).
    assert (Hft : forall x,
               is_tag ((bs1' ++ [(p, sp, false)]) ++ (a, s, false) :: bs2)
                 (mem_brk st - WORD_SIZE) x -> mem st1 x = mem st x).
    { intros x Hx. eapply Co_frame_tag; eauto. }
    cbn [coalesce_preceding]. rewrite Z.add_0_r.
    rewrite load_ok.
    2:{ rewrite (valid_access_same st st1) by exact Hsim.
        apply (Co_tag_access _ _ _ _ _ _ _ HCo). right. exists p, sp, false. auto. }
    cbn [bind]. rewrite Hft by (right; exists p, sp, false; auto).
    rewrite Hp1. rewrite tagword_preceding_used by assumption.
    change (TAG_PRECEDING_USED =? 0) with false. cbv iota.
    exists st1, bs1', p, (s + sp), l1.
    split; [reflexivity|]. split; [exact Hfr|]. split.
    { constructor.
      - eapply env_ok_same; eauto.
      - rewrite S2, S3. exact Hbrk.
      - rewrite S1, S2. apply chain_mid_intro; auto; try zlia.
        replace (p + (s + sp)) with (p + sp + s) by lia. exact C5.
      - repeat split; zlia.
      - eapply tagged_framed; [exact Hft | | exact Ht1].
        intros b Hb. apply in_or_app. left. apply in_or_app. left. exact Hb.
      - exact Hn1.
      - eapply tagged_after_framed; [exact Hft | | exact Ht2].
        intros b Hb. apply in_or_app. right. right. exact Hb.
      - exact Hn2.
      - rewrite S2. rewrite Hft by (left; reflexivity). exact Hend.
      - exact HFL1.
      - intros b. rewrite Hl1, Hfree. rewrite !free_blocks_app. simpl.
        rewrite <- app_assoc. simpl. split.
        + intros ([-> | Hb] & Hne); [left; reflexivity | right].
          apply in_app_or in Hb. apply in_or_app. simpl in Hb.
          destruct Hb as [Hb | [Hb | Hb]]; auto.
          unfold blk_addr in Hb. simpl in Hb. congruence.
        + intros [-> | Hb].
          * split; [left; reflexivity | zlia].
          * split.
            -- right. apply in_app_or in Hb. apply in_or_app. simpl. tauto.
            -- apply in_app_or in Hb. destruct Hb as [Hb | Hb];
                 apply In_free_blocks in Hb; destruct Hb as (t & Hb).
               ++ pose proof (chain_In _ _ _ _ _ _ C1 Hb). zlia.
               ++ pose proof (chain_In _ _ _ _ _ _ C5 Hb). zlia. }
    split; [exact Hpu|]. split; [lia|]. split; [lia|]. split; [intros; zlia|].
    split.
    { intros q. rewrite used_blocks_app. simpl. rewrite app_nil_r. tauto. }
    intros Hh. apply Hhd; auto. zlia.
Qed.

Lemma zero_size : 0 <= 0 < 2 ^ 63 /\ 0 mod ALIGNMENT = 0.
Proof. split; [lia | reflexivity]. Qed.

Lemma coalesce_following_spec fuel st bs1 c n a bs2 l :
  Co st bs1 c n a bs2 l ->
  (2 <= fuel)%nat ->
  exists st2 bs2' n' l2,
    coalesce_following fuel st n (c + n) = Ok (st2, n', c + n')
    /\ frame l st st2
    /\ Co st2 bs1 c n' a bs2' l2
    /\ tagged (mem st2) false bs2' /\ no_adjacent false bs2'
    /\ n <= n'
    /\ (n' = n -> st2 = st /\ bs2' = bs2 /\ l2 = l)
    /\ (forall p, In p (used_blocks bs2') <-> In p (used_blocks bs2))
    /\ (hd NULL l = a -> hd NULL l2 = a).
Proof.
  intros HCo Hfuel.
  pose proof (Co_geom _ _ _ _ _ _ _ HCo)
    as (G1 & G2 & G3 & G4 & G5 & G6 & G7 & G8 & G9 & G10).
  destruct fuel as [|[|fuel]]; try lia.
  pose proof HCo as [Henv Hbrk Hch Ha Ht1 Hn1 Ht2 Hn2 Hend HFL Hfree].
  pose proof (chain_mid _ _ _ _ _ _ _ Hch) as (C1 & C2 & C3 & C4).
  destruct zero_size as (Z1 & Z2).
  cbn [coalesce_following]. unfold off_size_and_tags. rewrite !Z.add_0_r.
  destruct bs2 as [|[[y t] [|]] r].
  - (* the region ends the heap *)
    simpl in C4. simpl in Hend.
    rewrite load_ok
      by (apply (Co_tag_access _ _ _ _ _ _ _ HCo); left; exact C4).
    cbn [bind]. rewrite C4, Hend. rewrite tagword_used by assumption.
    change (TAG_USED =? 0) with false. cbv iota.
    exists st, [], n, l. rewrite <- C4.
    split; [reflexivity|]. split; [apply frame_refl|]. split; [exact HCo|].
    split; [exact I|]. split; [exact I|]. split; [lia|]. split; [auto|].
    split; [tauto | auto].
  - (* a used block follows *)
    simpl in C4. destruct C4 as (Ey & C5 & C6 & C7). subst y.
    simpl in Ht2. destruct Ht2 as (Hy & Ht2).
    simpl in Hn2. destruct Hn2 as (_ & Hn2).
    pose proof (chain_le _ _ _ C7) as Hle7.
    rewrite load_ok.
    2:{ apply (Co_tag_access _ _ _ _ _ _ _ HCo). right. exists (c + n), t, true.
        split; [|auto]. apply in_or_app. right. right. left. reflexivity. }
    cbn [bind]. rewrite Hy.
    rewrite tagword_used by (try assumption; zlia).
    change (TAG_USED =? 0) with false. cbv iota.
    exists st, ((c + n, t, true) :: r), n, l.
    split; [reflexivity|]. split; [apply frame_refl|]. split; [exact HCo|].
    split; [simpl; split; [exact Hy | split; [discriminate | exact Ht2]]|].
    split; [simpl; split; [right; reflexivity | exact Hn2]|].
    split; [lia|]. split; [auto|]. split; [tauto | auto].
  - (* a free block follows: absorb it *)
    simpl in C4. destruct C4 as (Ey & C5 & C6 & C7). subst y.
    simpl in Ht2. destruct Ht2 as (Hy & Ht2).
    simpl in Hn2. destruct Hn2 as (_ & Hn2).
    pose proof (chain_le _ _ _ C7) as Hle7.
    assert (Ht : 0 <= t < 2 ^ 63) by zlia.
    assert (Hiny : In (c + n, t, false) (bs1 ++ (c, n, false) :: (c + n, t, false) :: r)).
    { apply in_or_app. right. right. left. reflexivity. }
    rewrite load_ok
      by (apply (Co_tag_access _ _ _ _ _ _ _ HCo); right; exists (c + n), t, false; auto).
    cbn [bind]. rewrite Hy.
    rewrite tagword_used by assumption.
    change (0 =? 0) with true. cbv iota.
    rewrite SIZE_tagword by assumption.
    assert (Hyl : In (c + n) l).
    { apply Hfree. right. apply In_free_blocks. exists t.
      apply in_or_app. right. left. reflexivity. }
    destruct (remove_free_block_In _ _ _ HFL Hyl)
      as (st1 & l1 & Erm & Hfr & HFL1 & Hl1 & Hhd).
    rewrite Erm. cbn [bind]. rewrite wrap64_small by zlia.
    rewrite ptr_add_small by zlia.
    pose proof Hfr as (Hsim & _). pose proof Hsim as (S1 & S2 & S3 & S4).
    assert (Hft : forall x,
               is_tag (bs1 ++ (c, n, false) :: (c + n, t, false) :: r)
                 (mem_brk st - WORD_SIZE) x -> mem st1 x = mem st x).
    { intros x Hx. eapply Co_frame_tag; eauto. }
    assert (Hnext : is_tag (bs1 ++ (c, n, false) :: (c + n, t, false) :: r)
                      (mem_brk st - WORD_SIZE) (c + n + t)
                    /\ exists t', (0 <= t' < 2 ^ 63 /\ t' mod ALIGNMENT = 0)
                                  /\ mem st (c + n + t) = tagword t' false true).
    { destruct r as [|[[g sg] ug] r'].
      - simpl in C7. split; [left; exact C7|]. exists 0. split; [exact zero_size|].
        rewrite C7. exact Hend.
      - simpl in C7. destruct C7 as (Eg & D1 & D2 & D3). subst g.
        simpl in Hn2. destruct Hn2 as ([Habs | ->] & Hn2); [discriminate|].
        simpl in Ht2. destruct Ht2 as (Hg & _).
        pose proof (chain_le _ _ _ D3).
        split.
        + right. exists (c + n + t), sg, true. split; [|auto].
          apply in_or_app. right. right. right. left. reflexivity.
        + exists sg. split; [split; zlia | exact Hg]. }
    destruct Hnext as (Htag & t' & (T1 & T2) & Hval).
    cbn [coalesce_following]. rewrite Z.add_0_r.
    rewrite load_ok
      by (rewrite (valid_access_same st st1) by exact Hsim;
          apply (Co_tag_access _ _ _ _ _ _ _ HCo); exact Htag).
    cbn [bind]. rewrite Hft by exact Htag. rewrite Hval.
    rewrite tagword_used by assumption.
    change (TAG_USED =? 0) with false. cbv iota.
    exists st1, r, (n + t), l1.
    split; [rewrite Z.add_assoc; reflexivity|]. split; [exact Hfr|]. split.
    { constructor.
      - eapply env_ok_same; eauto.
      - rewrite S2, S3. exact Hbrk.
      - rewrite S1, S2. apply chain_mid_intro; auto; try zlia.
        rewrite Z.add_assoc. exact C7.
      - repeat split; zlia.
      - eapply tagged_framed; [exact Hft | | exact Ht1].
        intros b Hb. apply in_or_app. left. exact Hb.
      - exact Hn1.
      - apply tagged_after_weaken.
        eapply tagged_framed; [exact Hft | | exact Ht2].
        intros b Hb. apply in_or_app. right. right. right. exact Hb.
      - eapply no_adjacent_weaken; eauto.
      - rewrite S2. rewrite Hft by (left; reflexivity). exact Hend.
      - exact HFL1.
      - intros b. rewrite Hl1, Hfree. rewrite !free_blocks_app.
        change (free_blocks ((c + n, t, false) :: r))
          with ((c + n) :: free_blocks r). split.
        + intros ([-> | Hb] & Hne); [left; reflexivity | right].
          apply in_app_or in Hb. apply in_or_app. simpl in Hb.
          destruct Hb as [Hb | [Hb | Hb]]; auto. congruence.
        + intros [-> | Hb].
          * split; [left; reflexivity | zlia].
          * split.
            -- right. apply in_app_or in Hb. apply in_or_app. simpl. tauto.
            -- apply in_app_or in Hb. destruct Hb as [Hb | Hb];
                 apply In_free_blocks in Hb; destruct Hb as (u & Hb).
               ++ pose proof (chain_In _ _ _ _ _ _ C1 Hb). zlia.
               ++ pose proof (chain_In _ _ _ _ _ _ C7 Hb). zlia. }
    split.
    { eapply tagged_framed; [exact Hft | | exact Ht2].
      intros b Hb. apply in_or_app. right. right. right. exact Hb. }
    split; [exact Hn2|]. split; [lia|]. split; [intros; zlia|].
    split.
    { intros q. change ((c + n, t, false) :: r) with ([(c + n, t, false)] ++ r).
      rewrite used_blocks_app. simpl. tauto. }
    intros Hh. apply Hhd; auto. zlia.
Qed.

(** * Words inside the used blocks around a block *)

Lemma used_blocks_mid bs1 c n v bs2 q :
  In q (used_blocks (bs1 ++ bs2)) -> In q (used_blocks (bs1 ++ (c, n, v) :: bs2)).
Proof.
  rewrite !used_blocks_app, !in_app_iff. intros [H | H]; [left; exact H|].
  right. destruct v; [right; exact H | exact H].
Qed.

(** The words of a block, its header and the word behind it lie inside
    no used block around it. *)
Lemma mid_not_inside bs1 c n v bs2 a e x :
  chain a (bs1 ++ (c, n, v) :: bs2) e ->
  c <= x <= c + n ->
  ~ inside (used_blocks (bs1 ++ bs2)) x.
Proof.
  intros Hch Hx (y & t & Hy & Hin).
  pose proof (chain_mid _ _ _ _ _ _ _ Hch) as (C1 & C2 & C3 & C4).
  apply In_used_blocks, in_app_or in Hy. destruct Hy as [Hy | Hy].
  - pose proof (chain_In _ _ _ _ _ _ C1 Hy). lia.
  - pose proof (chain_In _ _ _ _ _ _ C4 Hy). lia.
Qed.

Lemma mid_free_not_inside bs1 c n v bs2 a e b x :
  chain a (bs1 ++ (c, n, v) :: bs2) e ->
  In b (free_blocks (bs1 ++ bs2)) ->
  b <= x <= b + MIN_BLOCK_SIZE ->
  ~ inside (used_blocks (bs1 ++ bs2)) x.
Proof.
  intros Hch Hb Hx. apply In_free_blocks in Hb. destruct Hb as (tb & Hb).
  apply (in_app_mid _ (c, n, v)) in Hb.
  pose proof (chain_In _ _ _ _ _ _ Hch Hb) as (I1 & I2 & I3 & I4).
  apply (chain_not_inside _ _ _ _ b tb false x Hch).
  - intros q. apply used_blocks_mid.
  - exact Hb.
  - intros t Ht. apply (used_blocks_mid _ c n v), In_used_blocks in Ht.
    destruct (chain_same_addr _ _ _ _ _ _ _ _ Hch Hb Ht) as (_ & Habs). discriminate.
  - lia.
Qed.

Lemma mid_out_not_inside bs1 c n v bs2 a e x :
  chain a (bs1 ++ (c, n, v) :: bs2) e ->
  x <= a \/ e <= x ->
  ~ inside (used_blocks (bs1 ++ bs2)) x.
Proof.
  intros Hch Hx. apply (chain_not_inside_out _ _ _ _ _ Hch); [|exact Hx].
  intros q. apply used_blocks_mid.
Qed.

(** A change of the head slot and of the links of blocks that are free
    or lie in the block [c] keeps the contents of the used blocks around
    [c]. *)
Lemma mid_frame_kept st st' bs1 c n v bs2 L :
  chain (mem_start_brk st + WORD_SIZE) (bs1 ++ (c, n, v) :: bs2)
    (mem_brk st - WORD_SIZE) ->
  frame L st st' ->
  (forall b, In b L ->
     (c <= b /\ b + sizeof_block_info <= c + n)
     \/ In b (free_blocks (bs1 ++ bs2))) ->
  kept (used_blocks (bs1 ++ bs2)) st st'.
Proof.
  intros Hch Hfr HL. apply (kept_frame _ L); [exact Hfr | |].
  - apply (mid_out_not_inside _ _ _ _ _ _ _ _ Hch). left. unfold WORD_SIZE. lia.
  - intros b Hb. destruct (HL b Hb) as [(H1 & H2) | Hfree].
    + split; apply (mid_not_inside _ _ _ _ _ _ _ _ Hch); zlia.
    + split; apply (mid_free_not_inside _ _ _ _ _ _ _ _ _ Hch Hfree); zlia.
Qed.

(** * Filling a hole of the layout *)

(** Tag words are neither the head slot nor link fields of blocks. *)
Lemma tags_sep bs a e L x :
  chain a bs e ->
  (forall b, In b L -> exists t v, In (b, t, v) bs) ->
  is_tag bs e x ->
  a <= x /\ Forall (fun b => x <> b + off_next /\ x <> b + off_prev) L.
Proof.
  intros Hch HL Hx. split.
  - destruct Hx as [-> | (y & t & v & Hy & Hx)].
    + eapply chain_le; eauto.
    + pose proof (chain_In _ _ _ _ _ _ Hch Hy). zlia.
  - rewrite Forall_forall. intros b Hb. destruct (HL _ Hb) as (t & v & Hb').
    destruct Hx as [-> | (y & r & w & Hy & Hx)].
    + apply (tag_not_link _ _ _ _ _ _ _ _ _ Hch Hb' Hb').
    + pose proof (tag_not_link _ _ _ _ _ _ _ _ _ Hch Hy Hb') as (T1 & T2 & T3).
      destruct Hx as [-> | ->]; assumption.
Qed.

Lemma frame_tags st st' bs L x :
  chain (mem_start_brk st + WORD_SIZE) bs (mem_brk st - WORD_SIZE) ->
  (forall b, In b L -> exists t v, In (b, t, v) bs) ->
  frame L st st' ->
  is_tag bs (mem_brk st - WORD_SIZE) x ->
  mem st' x = mem st x.
Proof.
  intros Hch HL [_ F] Hx.
  destruct (tags_sep _ _ _ _ _ Hch HL Hx) as (H1 & H2).
  apply F; auto. zlia.
Qed.

Lemma tag_access st bs x :
  mem_start_brk st mod ALIGNMENT = 0 ->
  chain (mem_start_brk st + WORD_SIZE) bs (mem_brk st - WORD_SIZE) ->
  is_tag bs (mem_brk st - WORD_SIZE) x ->
  valid_access st x = true.
Proof.
  intros Hlo Hch Hx.
  assert (Hal : (mem_start_brk st + WORD_SIZE) mod ALIGNMENT = 0) by zlia.
  destruct (chain_aligned _ _ _ Hal Hch) as (Hal1 & Hal2).
  pose proof (chain_le _ _ _ Hch).
  destruct Hx as [-> | (y & t & v & Hy & Hx)].
  - apply valid_access_intro; zlia.
  - pose proof (chain_In _ _ _ _ _ _ Hch Hy). specialize (Hal2 _ _ _ Hy).
    destruct Hx as [-> | ->]; apply valid_access_intro; zlia.
Qed.

Lemma free_blocks_sub bs b : In b (free_blocks bs) -> exists t v, In (b, t, v) bs.
Proof. intros H. apply In_free_blocks in H. destruct H as (t & H). eauto. Qed.

Section HoleFacts.
Variables (st : heap) (bs1 : list blk) (c n : Z) (bs2 : list blk) (l : list Z).
Hypothesis HH : Hole st bs1 c n bs2 l.

Lemma Hole_geom :
  0 < mem_start_brk st /\ mem_start_brk st mod ALIGNMENT = 0
  /\ mem_start_brk st + WORD_SIZE <= c /\ c + n <= mem_brk st - WORD_SIZE
  /\ MIN_BLOCK_SIZE <= n /\ n mod ALIGNMENT = 0 /\ c mod ALIGNMENT = 0
  /\ mem_brk st <= mem_max_addr st
  /\ mem_max_addr st - mem_start_brk st < 2 ^ 31
  /\ mem_brk st mod ALIGNMENT = 0.
Proof.
  destruct HH as [Henv Hbrk Hch _ _ _ _ _ _ _ _].
  destruct Henv as (E1 & E2 & E3 & E4 & E5 & E6).
  assert (Hin : In (c, n, false) (bs1 ++ (c, n, false) :: bs2))
    by (apply in_or_app; right; left; reflexivity).
  pose proof (chain_In _ _ _ _ _ _ Hch Hin) as (I1 & I2 & I3 & I4).
  assert (Hal : (mem_start_brk st + WORD_SIZE) mod ALIGNMENT = 0) by zlia.
  destruct (chain_aligned _ _ _ Hal Hch) as (Hal1 & Hal2).
  specialize (Hal2 _ _ _ Hin).
  repeat split; auto; zlia.
Qed.

Lemma Hole_list_sub b :
  In b l -> exists t v, In (b, t, v) (bs1 ++ (c, n, false) :: bs2).
Proof.
  intros Hb. apply (ho_free _ _ _ _ _ _ HH) in Hb.
  apply free_blocks_sub in Hb. destruct Hb as (t & v & Hb).
  exists t, v. apply in_app_mid. exact Hb.
Qed.

(** The blocks around the hole lie outside of it. *)
Lemma Hole_outside y t v :
  In (y, t, v) (bs1 ++ bs2) ->
  MIN_BLOCK_SIZE <= t /\ (y + t <= c \/ c + n <= y).
Proof.
  intros Hy. destruct HH as [_ _ Hch _ _ _ _ _ _ _ _].
  pose proof (chain_mid _ _ _ _ _ _ _ Hch) as (C1 & C2 & C3 & C4).
  apply in_app_or in Hy. destruct Hy as [Hy | Hy].
  - pose proof (chain_In _ _ _ _ _ _ C1 Hy). split; [tauto | left; tauto].
  - pose proof (chain_In _ _ _ _ _ _ C4 Hy). split; [tauto | right; tauto].
Qed.

(** Writing inside the hole keeps it. *)
Lemma Hole_upd x v :
  c <= x -> x + WORD_SIZE <= c + n -> Hole (upd st x v) bs1 c n bs2 l.
Proof.
  intros Hx1 Hx2.
  pose proof Hole_geom as (G1 & G2 & G3 & G4 & G5 & G6 & G7 & G8 & G9 & G10).
  pose proof HH as [Henv Hbrk Hch Ht1 Hn1 Hl1 Ht2 Hn2 Hend HFL Hfree].
  assert (Hout : forall y t u, In (y, t, u) (bs1 ++ bs2) ->
                   mem (upd st x v) y = mem st y
                   /\ (u = false -> mem (upd st x v) (y + t - WORD_SIZE)
                                    = mem st (y + t - WORD_SIZE))).
  { intros y t u Hy. destruct (Hole_outside _ _ _ Hy) as (O1 & O2).
    split; [|intros _]; apply mem_upd_other; zlia. }
  constructor; auto.
  - eapply tagged_frame; [|exact Ht1]. intros y t u Hy. apply Hout.
    apply in_or_app. left. exact Hy.
  - eapply tagged_frame; [|exact Ht2]. intros y t u Hy. apply Hout.
    apply in_or_app. right. exact Hy.
  - simpl mem_brk. rewrite mem_upd_other by zlia. exact Hend.
  - apply FL_upd; auto; [zlia|]. rewrite Forall_forall. intros b Hb.
    apply Hfree, free_blocks_sub in Hb. destruct Hb as (t & u & Hb).
    destruct (Hole_outside _ _ _ Hb) as (O1 & O2). zlia.
Qed.

(** Once the tags of the hole are written, inserting it in the list
    gives back a heap that satisfies the invariants. *)
Lemma Hole_insert_frame :
  mem st c = tagword n true false ->
  mem st (c + n - WORD_SIZE) = tagword n true false ->
  exists st', insert_free_block st c = Ok st'
              /\ Inv st' (bs1 ++ (c, n, false) :: bs2) (c :: l)
              /\ same_sim st st'
              /\ kept (used_blocks (bs1 ++ bs2)) st st'.
Proof.
  intros Hhdr Hftr.
  pose proof Hole_geom as (G1 & G2 & G3 & G4 & G5 & G6 & G7 & G8 & G9 & G10).
  pose proof HH as [Henv Hbrk Hch Ht1 Hn1 Hl1 Ht2 Hn2 Hend HFL Hfree].
  assert (Hin : In (c, n, false) (bs1 ++ (c, n, false) :: bs2))
    by (apply in_or_app; right; left; reflexivity).
  assert (Hnode : node_ok st c) by (eapply block_node_ok; eauto).
  assert (Hfar : far c l).
  { unfold far. rewrite Forall_forall. intros b Hb.
    apply Hfree, free_blocks_sub in Hb. destruct Hb as (t & u & Hb).
    destruct (Hole_outside _ _ _ Hb) as (O1 & O2). zlia. }
  destruct (insert_free_block_spec _ _ _ HFL Hnode Hfar) as (st' & E & Hfr & HFL').
  exists st'. split; [exact E|].
  pose proof Hfr as (Hsim & _). pose proof Hsim as (S1 & S2 & S3 & S4).
  split; [|split; [exact Hsim|]].
  2:{ apply (mid_frame_kept _ _ _ _ _ _ _ _ Hch Hfr).
      intros b [<- | Hb]; [left; zlia | right; apply Hfree; exact Hb]. }
  assert (Hsub : forall b, In b (c :: l) ->
                   exists t v, In (b, t, v) (bs1 ++ (c, n, false) :: bs2)).
  { intros b [<- | Hb]; [eauto | apply Hole_list_sub, Hb]. }
  assert (Hft : forall x,
             is_tag (bs1 ++ (c, n, false) :: bs2) (mem_brk st - WORD_SIZE) x ->
             mem st' x = mem st x).
  { intros x Hx. eapply frame_tags; eauto. }
  constructor.
  - eapply env_ok_same; eauto.
  - rewrite S2, S3. exact Hbrk.
  - rewrite S1, S2. exact Hch.
  - apply tagged_app. split.
    + eapply tagged_framed; [exact Hft | | exact Ht1].
      intros b Hb. apply in_or_app. left. exact Hb.
    + rewrite Hl1. simpl. split; [|split].
      * rewrite Hft by (right; exists c, n, false; auto). exact Hhdr.
      * intros _. rewrite Hft by (right; exists c, n, false; auto). exact Hftr.
      * eapply tagged_framed; [exact Hft | | exact Ht2].
        intros b Hb. apply in_or_app. right. right. exact Hb.
  - rewrite S2. rewrite Hft by (left; reflexivity).
    rewrite last_used_app. simpl. exact Hend.
  - apply no_adjacent_app. split; [exact Hn1|]. simpl. split; [left; exact Hl1 | exact Hn2].
  - apply (fl_list _ _ HFL').
  - apply sep_NoDup. apply (fl_sep _ _ HFL').
  - intros b. rewrite free_blocks_app.
    change (free_blocks ((c, n, false) :: bs2)) with (c :: free_blocks bs2).
    simpl. rewrite Hfree, free_blocks_app. rewrite !in_app_iff. simpl. tauto.
Qed.

Lemma Hole_insert :
  mem st c = tagword n true false ->
  mem st (c + n - WORD_SIZE) = tagword n true false ->
  exists st', insert_free_block st c = Ok st'
              /\ Inv st' (bs1 ++ (c, n, false) :: bs2) (c :: l)
              /\ same_sim st st'.
Proof.
  intros Hhdr Hftr.
  destruct (Hole_insert_frame Hhdr Hftr) as (st' & E & HInv & Hsim & _). eauto.
Qed.

(** When the whole hole becomes a used block, the block behind it learns
    that its predecessor is used. *)
Lemma Hole_used_kept :
  mem st c = tagword n true true ->
  exists st',
    modify st (c + n) (fun t => Z.lor t TAG_PRECEDING_USED) = Ok st'
    /\ Inv st' (bs1 ++ (c, n, true) :: bs2) l
    /\ same_sim st st'
    /\ kept (used_blocks (bs1 ++ bs2)) st st'.
Proof.
  intros Hhdr.
  pose proof Hole_geom as (G1 & G2 & G3 & G4 & G5 & G6 & G7 & G8 & G9 & G10).
  pose proof HH as [Henv Hbrk Hch Ht1 Hn1 Hl1 Ht2 Hn2 Hend HFL Hfree].
  pose proof (chain_mid _ _ _ _ _ _ _ Hch) as (C1 & C2 & C3 & C4).
  assert (Hnext : is_tag (bs1 ++ (c, n, false) :: bs2) (mem_brk st - WORD_SIZE) (c + n)).
  { destruct bs2 as [|[[y t] v] r]; simpl in C4.
    - left. exact C4.
    - destruct C4 as (-> & _). right. exists (c + n), t, v. split; [|auto].
      apply in_or_app. right. right. left. reflexivity. }
  rewrite modify_ok by (eapply tag_access; eauto).
  eexists. split; [reflexivity|]. split; [|split; [apply same_sim_upd|]].
  2:{ apply kept_upd. apply (mid_not_inside _ _ _ _ _ _ _ _ Hch). zlia. }
  set (w := Z.lor (mem st (c + n)) TAG_PRECEDING_USED).
  assert (Hout : forall y t u, In (y, t, u) bs1 \/ (In (y, t, u) bs2 /\ y <> c + n) ->
                   mem (upd st (c + n) w) y = mem st y
                   /\ (u = false -> mem (upd st (c + n) w) (y + t - WORD_SIZE)
                                    = mem st (y + t - WORD_SIZE))).
  { intros y t u Hy. destruct Hy as [Hy | (Hy & Hne)].
    - pose proof (chain_In _ _ _ _ _ _ C1 Hy).
      split; [|intros _]; apply mem_upd_other; zlia.
    - pose proof (chain_In _ _ _ _ _ _ C4 Hy).
      split; [|intros _]; apply mem_upd_other; zlia. }
  assert (Hsep : c + n <> mem_start_brk st
                 /\ Forall (fun b => c + n <> b + off_next /\ c + n <> b + off_prev) l).
  { destruct (tags_sep _ _ _ l (c + n) Hch Hole_list_sub Hnext) as (H1 & H2).
    split; [zlia | exact H2]. }
  constructor.
  - exact Henv.
  - exact Hbrk.
  - simpl mem_start_brk. simpl mem_brk. apply chain_mid_intro; auto.
  - apply tagged_app. split.
    + eapply tagged_frame; [|exact Ht1]. intros y t u Hy. apply Hout. auto.
    + rewrite Hl1. cbn [tagged]. split; [|split].
      * rewrite mem_upd_other by zlia. exact Hhdr.
      * discriminate.
      * destruct bs2 as [|[[y t] v] r]; [exact I|].
        simpl in C4. destruct C4 as (-> & D1 & D2 & D3).
        simpl in Ht2. destruct Ht2 as (Hy & Hy' & Ht2).
        simpl in Hn2. destruct Hn2 as ([Habs | ->] & Hn2); [discriminate|].
        pose proof (chain_le _ _ _ D3).
        cbn [tagged]. split; [|split].
        -- rewrite mem_upd_same. subst w. rewrite Hy.
           apply tagword_set_preceding_used; zlia.
        -- discriminate.
        -- eapply tagged_frame; [|exact Ht2]. intros z r' u Hz.
           pose proof (chain_In _ _ _ _ _ _ D3 Hz).
           split; [|intros _]; apply mem_upd_other; zlia.
  - simpl mem_brk. rewrite last_used_app. cbn [last_used].
    destruct bs2 as [|[[y t] v] r].
    + simpl in C4. simpl in Hend. rewrite <- C4. rewrite mem_upd_same.
      subst w. rewrite C4, Hend. cbn [last_used].
      apply tagword_set_preceding_used; [lia | reflexivity].
    + simpl in C4. destruct C4 as (-> & D1 & D2 & D3).
      pose proof (chain_le _ _ _ D3).
      rewrite mem_upd_other by zlia. exact Hend.
  - apply no_adjacent_app. split; [exact Hn1|]. simpl.
    split; [right; reflexivity | eapply no_adjacent_weaken; eauto].
  - apply (fl_list _ _ (FL_upd _ _ _ w HFL (proj1 Hsep) (proj2 Hsep))).
  - apply sep_NoDup. apply (fl_sep _ _ HFL).
  - intros b. rewrite free_blocks_app.
    change (free_blocks ((c, n, true) :: bs2)) with (free_blocks bs2).
    rewrite <- free_blocks_app. apply Hfree.
Qed.

Lemma Hole_used :
  mem st c = tagword n true true ->
  exists st',
    modify st (c + n) (fun t => Z.lor t TAG_PRECEDING_USED) = Ok st'
    /\ Inv st' (bs1 ++ (c, n, true) :: bs2) l
    /\ same_sim st st'.
Proof.
  intros Hhdr.
  destruct (Hole_used_kept Hhdr) as (st' & E & HInv & Hsim & _). eauto.
Qed.

(** The hole shrinks when its head becomes a used block. *)
Lemma Hole_split req :
  mem st c = tagword req true true ->
  MIN_BLOCK_SIZE <= req -> req mod ALIGNMENT = 0 ->
  MIN_BLOCK_SIZE <= n - req ->
  Hole st (bs1 ++ [(c, req, true)]) (c + req) (n - req) bs2 l.
Proof.
  intros Hhdr Hr1 Hr2 Hr3.
  pose proof Hole_geom as (G1 & G2 & G3 & G4 & G5 & G6 & G7 & G8 & G9 & G10).
  pose proof HH as [Henv Hbrk Hch Ht1 Hn1 Hl1 Ht2 Hn2 Hend HFL Hfree].
  pose proof (chain_mid _ _ _ _ _ _ _ Hch) as (C1 & C2 & C3 & C4).
  constructor; auto.
  - rewrite <- app_assoc. simpl. apply chain_mid_intro; auto.
    simpl. repeat split; try zlia.
    replace (c + req + (n - req)) with (c + n) by lia. exact C4.
  - apply tagged_app. split; [exact Ht1|]. rewrite Hl1. simpl.
    split; [exact Hhdr | split; [discriminate | exact I]].
  - apply no_adjacent_app. split; [exact Hn1|]. simpl. auto.
  - rewrite last_used_app. reflexivity.
  - intros b. rewrite Hfree. rewrite !free_blocks_app. simpl.
    rewrite app_nil_r. tauto.
Qed.

End HoleFacts.

(** * [coalesce_free_block] *)

Lemma Co_inside_not_block st bs1 c n a bs2 l :
  Co st bs1 c n a bs2 l -> ~ In a (free_blocks (bs1 ++ bs2)).
Proof.
  intros [_ _ Hch Ha _ _ _ _ _ _ _] Hin.
  pose proof (chain_mid _ _ _ _ _ _ _ Hch) as (C1 & C2 & C3 & C4).
  apply In_free_blocks in Hin. destruct Hin as (t & Hin).
  apply in_app_or in Hin. destruct Hin as [Hin | Hin].
  - pose proof (chain_In _ _ _ _ _ _ C1 Hin). zlia.
  - pose proof (chain_In _ _ _ _ _ _ C4 Hin). zlia.
Qed.

Lemma Co_Inv st bs1 c n bs2 l :
  Co st bs1 c n c bs2 l ->
  mem st c = tagword n true false ->
  mem st (c + n - WORD_SIZE) = tagword n true false ->
  last_used true bs1 = true ->
  tagged (mem st) false bs2 -> no_adjacent false bs2 ->
  Inv st (bs1 ++ (c, n, false) :: bs2) l.
Proof.
  intros [Henv Hbrk Hch Ha Ht1 Hn1 _ _ Hend HFL Hfree] Hhdr Hftr Hl1 Ht2 Hn2.
  constructor; auto.
  - apply tagged_app. split; [exact Ht1|]. rewrite Hl1. cbn [tagged]. auto.
  - rewrite last_used_app. exact Hend.
  - apply no_adjacent_app. split; [exact Hn1|]. cbn [no_adjacent]. auto.
  - apply (fl_list _ _ HFL).
  - apply sep_NoDup, (fl_sep _ _ HFL).
  - intros b. rewrite Hfree, !free_blocks_app.
    change (free_blocks ((c, n, false) :: bs2)) with (c :: free_blocks bs2).
    rewrite !in_app_iff. simpl. intuition congruence.
Qed.

Lemma Co_remove_Hole st st' bs1 c n a bs2 l l' :
  Co st bs1 c n a bs2 l ->
  last_used true bs1 = true ->
  tagged (mem st) false bs2 -> no_adjacent false bs2 ->
  frame l st st' -> FL st' l' ->
  (forall x, In x l' <-> In x l /\ x <> a) ->
  Hole st' bs1 c n bs2 l'.
Proof.
  intros HCo Hl1 Ht2 Hn2 Hfr HFL' Hl'.
  pose proof (Co_inside_not_block _ _ _ _ _ _ _ HCo) as Hna.
  pose proof HCo as [Henv Hbrk Hch Ha Ht1 Hn1 _ _ Hend HFL Hfree].
  pose proof Hfr as (Hsim & _). pose proof Hsim as (S1 & S2 & S3 & S4).
  assert (Hft : forall x,
             is_tag (bs1 ++ (c, n, false) :: bs2) (mem_brk st - WORD_SIZE) x ->
             mem st' x = mem st x).
  { intros x Hx. eapply Co_frame_tag; eauto. }
  constructor; auto.
  - eapply env_ok_same; eauto.
  - rewrite S2, S3. exact Hbrk.
  - rewrite S1, S2. exact Hch.
  - eapply tagged_framed; [exact Hft | | exact Ht1].
    intros b Hb. apply in_or_app. left. exact Hb.
  - eapply tagged_framed; [exact Hft | | exact Ht2].
    intros b Hb. apply in_or_app. right. right. exact Hb.
  - rewrite S2. rewrite Hft by (left; reflexivity). exact Hend.
  - intros b. rewrite Hl', Hfree. split.
    + intros ([-> | Hb] & Hne); [congruence | exact Hb].
    + intros Hb. split; [right; exact Hb | intros ->; contradiction].
Qed.

(** A change of the head slot and of the links of the list keeps the
    contents of the used blocks. *)
Lemma Co_frame_kept st bs1 c n a bs2 l st' :
  Co st bs1 c n a bs2 l -> frame l st st' ->
  kept (used_blocks (bs1 ++ bs2)) st st'.
Proof.
  intros HCo Hfr.
  apply (mid_frame_kept _ _ _ _ _ _ _ _ (co_chain _ _ _ _ _ _ _ HCo) Hfr).
  intros b Hb. apply (co_free _ _ _ _ _ _ _ HCo) in Hb. destruct Hb as [-> | Hb].
  - left. pose proof (co_a _ _ _ _ _ _ _ HCo). zlia.
  - right. exact Hb.
Qed.

(** [coalesce_free_block] on the head [a] of the list, a free block of
    [s] bytes whose neighbours may be free: the heap satisfies the
    invariants again, the block that contains [a] heads the list, and
    the contents of the used blocks are kept. *)
Lemma coalesce_free_block_run fuel st bs1 a s bs2 l :
  Co st bs1 a s a bs2 l ->
  mem st a = tagword s (last_used true bs1) false ->
  mem st (a + s - WORD_SIZE) = tagword s (last_used true bs1) false ->
  hd NULL l = a ->
  (2 <= fuel)%nat ->
  exists st' bs' l' c n,
    coalesce_free_block fuel st a = Ok st'
    /\ Inv st' bs' l' /\ same_sim st st'
    /\ hd NULL l' = c /\ In (c, n, false) bs' /\ s <= n
    /\ (forall p, In p (used_blocks bs') <-> In p (used_blocks (bs1 ++ bs2)))
    /\ c <= a /\ a + s <= c + n
    /\ kept (used_blocks (bs1 ++ bs2)) st st'.
Proof.
  intros HCo Hhdr Hftr Hhd Hfuel.
  pose proof (Co_geom _ _ _ _ _ _ _ HCo)
    as (G1 & G2 & G3 & G4 & G5 & G6 & G7 & G8 & G9 & G10).
  assert (Hs : 0 <= s < 2 ^ 63) by zlia.
  assert (Aa : valid_access st a = true).
  { apply (Co_tag_access _ _ _ _ _ _ _ HCo). right. exists a, s, false.
    split; [|auto]. apply in_or_app. right. left. reflexivity. }
  unfold coalesce_free_block. unfold off_size_and_tags. rewrite !Z.add_0_r.
  rewrite load_ok by exact Aa. cbn [bind]. rewrite Hhdr.
  rewrite SIZE_tagword by assumption.
  destruct (coalesce_preceding_spec fuel _ _ _ _ _ _ HCo Hhdr Hfuel)
    as (st1 & bs1' & c & n1 & l1 & E1 & F1 & HCo1 & Hl1 & Hcn & Hle1 & Hsame1
        & Hup1 & Hhd1).
  rewrite E1. cbn [bind]. cbv beta iota.
  rewrite ptr_add_small by zlia. rewrite <- Hcn.
  destruct (coalesce_following_spec fuel _ _ _ _ _ _ _ HCo1 Hfuel)
    as (st2 & bs2' & n2 & l2 & E2 & F2 & HCo2 & Ht2 & Hn2 & Hle2 & Hsame2
        & Hup2 & Hhd2).
  rewrite E2. cbn [bind]. cbv beta iota.
  assert (Hup : forall p, In p (used_blocks (bs1' ++ bs2'))
                          <-> In p (used_blocks (bs1 ++ bs2))).
  { intros p. rewrite !used_blocks_app, !in_app_iff, Hup1, Hup2. tauto. }
  destruct (Z.eqb_spec n2 s) as [En | En].
  - (* nothing was absorbed *)
    cbn [negb]. cbv iota.
    assert (En1 : n1 = s) by lia.
    destruct (Hsame1 En1) as (-> & -> & ->).
    destruct (Hsame2 ltac:(lia)) as (-> & -> & ->).
    assert (Ec : c = a) by lia. subst c.
    rewrite Hl1 in Hhdr, Hftr.
    exists st, (bs1 ++ (a, s, false) :: bs2), l, a, s.
    split; [reflexivity|]. split; [apply Co_Inv; auto|].
    split; [apply same_sim_refl|]. split; [exact Hhd|].
    split; [apply in_or_app; right; left; reflexivity|]. split; [lia|].
    split; [intros p; rewrite !used_blocks_app; simpl; tauto|].
    split; [lia|]. split; [lia|]. apply kept_refl.
  - (* the block grew *)
    cbn [negb]. cbv iota.
    pose proof (Co_geom _ _ _ _ _ _ _ HCo2)
      as (K1 & K2 & K3 & K4 & K5 & K6 & K7 & K8 & K9 & K10).
    assert (Hal2 : In a l2) by (apply (co_free _ _ _ _ _ _ _ HCo2); left; reflexivity).
    destruct (remove_free_block_In _ _ _ (co_list _ _ _ _ _ _ _ HCo2) Hal2)
      as (st3 & l3 & E3 & F3 & HFL3 & Hl3 & _).
    rewrite E3. cbn [bind].
    pose proof (Co_remove_Hole _ _ _ _ _ _ _ _ _ HCo2 Hl1 Ht2 Hn2 F3 HFL3 Hl3) as HH3.
    pose proof (Hole_geom _ _ _ _ _ _ HH3)
      as (J1 & J2 & J3 & J4 & J5 & J6 & J7 & J8 & J9 & J10).
    assert (Hn2r : 0 <= n2 < 2 ^ 63) by zlia.
    pose proof (lor_size_mask n2 Hn2r J6 true) as Hlor. cbv iota in Hlor.
    rewrite Hlor. rewrite Z.add_0_r.
    rewrite store_ok by (apply valid_access_intro; zlia). cbn [bind].
    rewrite ptr_sub_small by zlia.
    rewrite store_ok by (apply valid_access_intro; simpl; zlia). cbn [bind].
    pose proof (Hole_upd _ _ _ _ _ _ HH3 c (tagword n2 true false)
                  ltac:(lia) ltac:(zlia)) as HH4.
    pose proof (Hole_upd _ _ _ _ _ _ HH4 (c + n2 - WORD_SIZE) (tagword n2 true false)
                  ltac:(zlia) ltac:(zlia)) as HH5.
    destruct (Hole_insert_frame _ _ _ _ _ _ HH5) as (st6 & E6 & HInv & Hsim6 & Kins).
    { rewrite mem_upd_other by zlia. apply mem_upd_same. }
    { apply mem_upd_same. }
    rewrite E6.
    assert (Hkept : kept (used_blocks (bs1 ++ bs2)) st st6).
    { assert (Hup1' : forall q, In q (used_blocks (bs1 ++ bs2)) ->
                                In q (used_blocks (bs1' ++ bs2))).
      { intros q. rewrite !used_blocks_app, !in_app_iff, Hup1. tauto. }
      assert (Hup' : forall q, In q (used_blocks (bs1 ++ bs2)) ->
                               In q (used_blocks (bs1' ++ bs2'))).
      { intros q Hq. apply Hup. exact Hq. }
      apply (kept_trans _ _ st1); [exact (Co_frame_kept _ _ _ _ _ _ _ _ HCo F1)|].
      apply (kept_trans _ _ st2).
      { apply (kept_sub _ _ _ _ Hup1'). exact (Co_frame_kept _ _ _ _ _ _ _ _ HCo1 F2). }
      apply (kept_sub _ _ _ _ Hup').
      apply (kept_trans _ _ st3); [exact (Co_frame_kept _ _ _ _ _ _ _ _ HCo2 F3)|].
      apply (kept_trans _ _ (upd st3 c (tagword n2 true false))).
      { apply kept_upd.
        apply (mid_not_inside _ _ _ _ _ _ _ _ (ho_chain _ _ _ _ _ _ HH3)). zlia. }
      apply (kept_trans _ _ (upd (upd st3 c (tagword n2 true false))
                               (c + n2 - WORD_SIZE) (tagword n2 true false)));
        [|exact Kins].
      apply kept_upd.
      apply (mid_not_inside _ _ _ _ _ _ _ _ (ho_chain _ _ _ _ _ _ HH4)). zlia. }
    assert (Hin_a : c <= a /\ a + s <= c + n2).
    { pose proof (co_a _ _ _ _ _ _ _ HCo2). lia. }
    exists st6, (bs1' ++ (c, n2, false) :: bs2'), (c :: l3), c, n2.
    split; [reflexivity|]. split; [exact HInv|]. split.
    { destruct F1 as (X1 & _), F2 as (X2 & _), F3 as (X3 & _).
      eapply same_sim_trans; [exact X1|]. eapply same_sim_trans; [exact X2|].
      eapply same_sim_trans; [exact X3|].
      eapply same_sim_trans; [|exact Hsim6].
      eapply same_sim_trans; apply same_sim_upd. }
    split; [reflexivity|].
    split; [apply in_or_app; right; left; reflexivity|]. split; [lia|].
    split; [|split; [apply Hin_a | split; [lia | exact Hkept]]].
    intros p. rewrite <- Hup. rewrite !used_blocks_app. simpl. tauto.
Qed.

Lemma coalesce_free_block_spec fuel st bs1 a s bs2 l :
  Co st bs1 a s a bs2 l ->
  mem st a = tagword s (last_used true bs1) false ->
  mem st (a + s - WORD_SIZE) = tagword s (last_used true bs1) false ->
  hd NULL l = a ->
  (2 <= fuel)%nat ->
  exists st' bs' l' c n,
    coalesce_free_block fuel st a = Ok st'
    /\ Inv st' bs' l' /\ same_sim st st'
    /\ hd NULL l' = c /\ In (c, n, false) bs' /\ s <= n
    /\ (forall p, In p (used_blocks bs') <-> In p (used_blocks (bs1 ++ bs2))).
Proof.
  intros HCo Hhdr Hftr Hhd Hfuel.
  destruct (coalesce_free_block_run fuel _ _ _ _ _ _ HCo Hhdr Hftr Hhd Hfuel)
    as (st' & bs' & l' & c & n & E & HInv & Hsim & H1 & H2 & H3 & H4 & _).
  exists st', bs', l', c, n. auto 10.
Qed.

(** * Entering a new free block *)

Lemma Gap_insert_Co_kept st bs1 a s bs2 l :
  Gap st bs1 a s bs2 l ->
  exists st', insert_free_block st a = Ok st'
              /\ Co st' bs1 a s a bs2 (a :: l)
              /\ same_sim st st'
              /\ mem st' a = mem st a
              /\ mem st' (a + s - WORD_SIZE) = mem st (a + s - WORD_SIZE)
              /\ kept (used_blocks (bs1 ++ bs2)) st st'.
Proof.
  intros [Henv Hbrk Hch Ht1 Hn1 Ht2 Hn2 Hend HFL Hfree].
  pose proof Henv as (E1 & E2 & E3 & E4 & E5 & E6).
  pose proof (chain_mid _ _ _ _ _ _ _ Hch) as (C1 & C2 & C3 & C4).
  assert (Hin : In (a, s, false) (bs1 ++ (a, s, false) :: bs2))
    by (apply in_or_app; right; left; reflexivity).
  assert (Hnode : node_ok st a) by (eapply block_node_ok; eauto).
  assert (Hal : a mod ALIGNMENT = 0).
  { destruct Hnode as (_ & _ & Hm). exact Hm. }
  assert (Hsubl : forall b, In b l ->
                    exists t v, In (b, t, v) (bs1 ++ (a, s, false) :: bs2)).
  { intros b Hb. apply Hfree, free_blocks_sub in Hb. destruct Hb as (t & v & Hb).
    exists t, v. apply in_app_mid. exact Hb. }
  assert (Hfar : far a l).
  { unfold far. rewrite Forall_forall. intros b Hb.
    apply Hfree, In_free_blocks in Hb. destruct Hb as (t & Hb).
    apply in_app_or in Hb. destruct Hb as [Hb | Hb].
    - pose proof (chain_In _ _ _ _ _ _ C1 Hb). zlia.
    - pose proof (chain_In _ _ _ _ _ _ C4 Hb). zlia. }
  destruct (insert_free_block_spec _ _ _ HFL Hnode Hfar) as (st' & E & Hfr & HFL').
  exists st'. split; [exact E|].
  pose proof Hfr as (Hsim & _). pose proof Hsim as (S1 & S2 & S3 & S4).
  assert (Hsub : forall b, In b (a :: l) ->
                   exists t v, In (b, t, v) (bs1 ++ (a, s, false) :: bs2)).
  { intros b [<- | Hb]; [eauto | apply Hsubl, Hb]. }
  assert (Hft : forall x,
             is_tag (bs1 ++ (a, s, false) :: bs2) (mem_brk st - WORD_SIZE) x ->
             mem st' x = mem st x).
  { intros x Hx. eapply frame_tags; eauto. }
  split; [|split; [exact Hsim | split; [|split]]].
  - constructor.
    + eapply env_ok_same; eauto.
    + rewrite S2, S3. exact Hbrk.
    + rewrite S1, S2. exact Hch.
    + repeat split; zlia.
    + eapply tagged_framed; [exact Hft | | exact Ht1].
      intros b Hb. apply in_or_app. left. exact Hb.
    + exact Hn1.
    + eapply tagged_after_framed; [exact Hft | | exact Ht2].
      intros b Hb. apply in_or_app. right. right. exact Hb.
    + exact Hn2.
    + rewrite S2. rewrite Hft by (left; reflexivity). exact Hend.
    + exact HFL'.
    + intros b. simpl. rewrite Hfree. intuition congruence.
  - apply Hft. right. exists a, s, false. auto.
  - apply Hft. right. exists a, s, false. auto.
  - apply (mid_frame_kept _ _ _ _ _ _ _ _ Hch Hfr).
    intros b [<- | Hb]; [left; zlia | right; apply Hfree; exact Hb].
Qed.

Lemma Gap_insert_Co st bs1 a s bs2 l :
  Gap st bs1 a s bs2 l ->
  exists st', insert_free_block st a = Ok st'
              /\ Co st' bs1 a s a bs2 (a :: l)
              /\ same_sim st st'
              /\ mem st' a = mem st a
              /\ mem st' (a + s - WORD_SIZE) = mem st (a + s - WORD_SIZE).
Proof.
  intros HGap.
  destruct (Gap_insert_Co_kept _ _ _ _ _ _ HGap) as (st' & E & HCo & Hsim & H1 & H2 & _).
  exists st'. auto.
Qed.

(** * [place_block]: the second half of [mm_malloc] *)

(** What the invariant says around a free block. *)
Lemma Inv_free_block st bs1 c n bs2 fl :
  Inv st (bs1 ++ (c, n, false) :: bs2) fl ->
  tagged (mem st) true bs1 /\ no_adjacent true bs1
  /\ last_used true bs1 = true
  /\ mem st c = tagword n true false
  /\ mem st (c + n - WORD_SIZE) = tagword n true false
  /\ tagged (mem st) false bs2 /\ no_adjacent false bs2
  /\ mem st (mem_brk st - WORD_SIZE) = tagword 0 (last_used false bs2) true
  /\ In c fl.
Proof.
  intros [Henv Hbrk Hch Htag Hend Hna Hfl Hnd Hfree].
  apply tagged_app in Htag. destruct Htag as (Ht1 & Hc & Hc' & Ht2).
  apply no_adjacent_app in Hna. destruct Hna as (Hn1 & [Hl1 | Habs] & Hn2);
    [|discriminate].
  rewrite Hl1 in Hc, Hc'. rewrite last_used_app in Hend. simpl in Hend.
  repeat split; auto.
  apply Hfree. rewrite free_blocks_app. apply in_or_app. right. left. reflexivity.
Qed.

(** Accesses to a heap built from known heaps by updates. *)
Ltac acc :=
  apply valid_access_intro;
  repeat match goal with x := _ : heap |- _ => unfold x end;
  simpl; zlia.

Lemma place_block_run st bs1 c n bs2 fl req :
  Inv st (bs1 ++ (c, n, false) :: bs2) fl ->
  MIN_BLOCK_SIZE <= req <= n -> req mod ALIGNMENT = 0 ->
  exists st' bs' fl',
    place_block st c req = Ok (st', c + WORD_SIZE)
    /\ Inv st' bs' fl' /\ same_sim st st'
    /\ (if n - req >=? MIN_BLOCK_SIZE
        then bs' = bs1 ++ (c, req, true) :: (c + req, n - req, false) :: bs2
             /\ hd NULL fl' = c + req
        else bs' = bs1 ++ (c, n, true) :: bs2)
    /\ kept (used_blocks (bs1 ++ bs2)) st st'.
Proof.
  intros HInv Hreq Hreq8.
  pose proof (Inv_free_block _ _ _ _ _ _ HInv)
    as (Ht1 & Hn1 & Hl1 & Hhdr & Hftr & Ht2 & Hn2 & Hend & Hcfl).
  pose proof (Inv_FL _ _ _ HInv) as HFL.
  pose proof HInv as [Henv Hbrk Hch _ _ _ _ _ Hfree].
  pose proof Henv as (E1 & E2 & E3 & E4 & E5 & E6).
  pose proof (chain_mid _ _ _ _ _ _ _ Hch) as (C1 & C2 & C3 & C4).
  pose proof (chain_le _ _ _ C1) as Hle1. pose proof (chain_le _ _ _ C4) as Hle4.
  assert (Hin : In (c, n, false) (bs1 ++ (c, n, false) :: bs2))
    by (apply in_or_app; right; left; reflexivity).
  assert (Hctag : is_tag (bs1 ++ (c, n, false) :: bs2) (mem_brk st - WORD_SIZE) c)
    by (right; exists c, n, false; auto).
  assert (Hsubl : forall b, In b fl ->
                    exists t v, In (b, t, v) (bs1 ++ (c, n, false) :: bs2)).
  { intros b Hb. apply Hfree, free_blocks_sub in Hb. exact Hb. }
  assert (Hnr : 0 <= n < 2 ^ 63) by zlia.
  assert (Hal : c mod ALIGNMENT = 0).
  { pose proof (block_node_ok _ _ _ _ _ E2 Hch Hin) as (_ & _ & Hm). exact Hm. }
  assert (Ac : valid_access st c = true) by (eapply tag_access; eauto).
  unfold place_block. unfold off_size_and_tags. rewrite !Z.add_0_r.
  rewrite modify_ok by exact Ac. cbn [bind].
  rewrite Hhdr. rewrite tagword_set_used by assumption.
  set (st1 := upd st c (tagword n true true)).
  assert (HFL1 : FL st1 fl).
  { destruct (tags_sep _ _ _ fl c Hch Hsubl Hctag) as (X1 & X2).
    apply FL_upd; auto. zlia. }
  destruct (remove_free_block_In _ _ _ HFL1 Hcfl)
    as (st2 & l2 & E2' & F2 & HFL2 & Hl2 & _).
  rewrite E2'. cbn [bind].
  pose proof F2 as (Hsim2 & _). pose proof Hsim2 as (S1 & S2 & S3 & S4).
  unfold st1 in S1, S2, S3, S4. simpl in S1, S2, S3, S4.
  assert (Hft : forall x,
             is_tag (bs1 ++ (c, n, false) :: bs2) (mem_brk st - WORD_SIZE) x ->
             mem st2 x = mem st1 x).
  { intros x Hx. eapply (frame_tags st1 st2); eauto. }
  assert (Hother : forall y t u, In (y, t, u) (bs1 ++ bs2) ->
                     mem st2 y = mem st y
                     /\ (u = false -> mem st2 (y + t - WORD_SIZE)
                                      = mem st (y + t - WORD_SIZE))).
  { intros y t u Hy.
    assert (Hy' : In (y, t, u) (bs1 ++ (c, n, false) :: bs2)) by (apply in_app_mid, Hy).
    assert (Hne : y <> c /\ y + t - WORD_SIZE <> c).
    { apply in_app_or in Hy. destruct Hy as [Hy | Hy].
      - pose proof (chain_In _ _ _ _ _ _ C1 Hy). zlia.
      - pose proof (chain_In _ _ _ _ _ _ C4 Hy). zlia. }
    split; [|intros _].
    - rewrite Hft by (right; exists y, t, u; auto).
      apply mem_upd_other. tauto.
    - rewrite Hft by (right; exists y, t, u; auto).
      apply mem_upd_other. tauto. }
  assert (HH2 : Hole st2 bs1 c n bs2 l2).
  { constructor; auto.
    - eapply env_ok_same; eauto.
    - rewrite S2, S3. exact Hbrk.
    - rewrite S1, S2. exact Hch.
    - eapply tagged_frame; [|exact Ht1]. intros y t u Hy. apply Hother.
      apply in_or_app. left. exact Hy.
    - eapply tagged_frame; [|exact Ht2]. intros y t u Hy. apply Hother.
      apply in_or_app. right. exact Hy.
    - rewrite S2. simpl mem_brk. rewrite Hft by (left; reflexivity).
      unfold st1. rewrite mem_upd_other by zlia. exact Hend.
    - intros b. rewrite Hl2, Hfree, !free_blocks_app.
      change (free_blocks ((c, n, false) :: bs2)) with (c :: free_blocks bs2).
      rewrite !in_app_iff. simpl. split; [intuition congruence|].
      intros Hb. split; [tauto|]. intros ->.
      destruct Hb as [Hb | Hb]; apply In_free_blocks in Hb; destruct Hb as (t & Hb).
      + pose proof (chain_In _ _ _ _ _ _ C1 Hb). zlia.
      + pose proof (chain_In _ _ _ _ _ _ C4 Hb). zlia. }
  assert (Hc2 : mem st2 c = tagword n true true).
  { rewrite Hft by exact Hctag. apply mem_upd_same. }
  assert (Hsim02 : same_sim st st2).
  { eapply same_sim_trans; [apply same_sim_upd | exact Hsim2]. }
  assert (K02 : kept (used_blocks (bs1 ++ bs2)) st st2).
  { apply (kept_trans _ _ st1).
    - apply kept_upd. apply (mid_not_inside _ _ _ _ _ _ _ _ Hch). lia.
    - apply (mid_frame_kept st1 st2 bs1 c n false bs2 fl); [exact Hch | exact F2 |].
      intros b Hb. apply Hfree in Hb. rewrite free_blocks_app in Hb.
      change (free_blocks ((c, n, false) :: bs2)) with (c :: free_blocks bs2) in Hb.
      rewrite free_blocks_app. rewrite in_app_iff in *. simpl in Hb.
      destruct Hb as [Hb | [<- | Hb]]; [right; left; exact Hb | left; zlia
                                        | right; right; exact Hb]. }
  assert (Hin_hole : forall s x v, Hole s bs1 c n bs2 l2 -> c <= x <= c + n ->
                       kept (used_blocks (bs1 ++ bs2)) s (upd s x v)).
  { intros s x v Hs Hx. apply kept_upd.
    apply (mid_not_inside _ _ _ _ _ _ _ _ (ho_chain _ _ _ _ _ _ Hs)). exact Hx. }
  rewrite load_ok by acc. cbn [bind].
  rewrite Hc2. rewrite SIZE_tagword by assumption.
  rewrite tagword_preceding_used by assumption.
  rewrite wrap64_small by zlia.
  destruct (Z.geb_spec (n - req) MIN_BLOCK_SIZE) as [Hsplit | Hnosplit].
  - (* split *)
    assert (Hrr : 0 <= req < 2 ^ 63) by zlia.
    assert (Hdr : 0 <= n - req < 2 ^ 63) by zlia.
    assert (Hd8 : (n - req) mod ALIGNMENT = 0) by zlia.
    rewrite (lor_size_mask req Hrr Hreq8 true).
    rewrite store_ok by acc. cbn [bind].
    rewrite modify_ok by acc.
    cbn [bind]. rewrite mem_upd_same. rewrite tagword_set_used by assumption.
    rewrite ptr_add_small by zlia.
    set (st3 := upd (upd st2 c (tagword req true false)) c (tagword req true true)).
    assert (Hsim3 : same_sim st st3).
    { eapply same_sim_trans; [exact Hsim02|].
      eapply same_sim_trans; apply same_sim_upd. }
    rewrite store_ok by acc. cbn [bind].
    rewrite modify_ok by acc.
    cbn [bind]. rewrite mem_upd_same.
    assert (Hcl : Z.land (n - req) (wrap64 (Z.lnot TAG_USED))
                  = tagword (n - req) false false).
    { pose proof (tagword_clear_used (n - req) Hdr Hd8 false false) as X.
      rewrite <- X. f_equal. unfold tagword. lia. }
    rewrite Hcl.
    rewrite modify_ok by acc.
    cbn [bind]. rewrite mem_upd_same.
    rewrite tagword_set_preceding_used by assumption.
    set (st4 := upd (upd (upd st3 (c + req) (n - req)) (c + req)
                       (tagword (n - req) false false)) (c + req)
                  (tagword (n - req) true false)).
    assert (Hsim4 : same_sim st st4).
    { eapply same_sim_trans; [exact Hsim3|].
      eapply same_sim_trans; [apply same_sim_upd|].
      eapply same_sim_trans; apply same_sim_upd. }
    rewrite load_ok by acc. cbn [bind].
    unfold st4 at 1 2. rewrite mem_upd_same.
    rewrite SIZE_tagword by assumption.
    rewrite ptr_add_small by zlia. rewrite ptr_sub_small by zlia.
    rewrite Z.add_0_r.
    replace (c + req + (n - req) - WORD_SIZE) with (c + n - WORD_SIZE) by lia.
    fold st4.
    rewrite store_ok by acc. cbn [bind].
    replace (mem st4 (c + req)) with (tagword (n - req) true false)
      by (unfold st4; rewrite mem_upd_same; reflexivity).
    set (st5 := upd st4 (c + n - WORD_SIZE) (tagword (n - req) true false)).
    assert (HH5 : Hole st5 bs1 c n bs2 l2).
    { unfold st5, st4, st3. repeat (apply Hole_upd; [|zlia|zlia]). exact HH2. }
    assert (Hc5 : mem st5 c = tagword req true true).
    { unfold st5, st4. rewrite !mem_upd_other by zlia. unfold st3. apply mem_upd_same. }
    pose proof (Hole_split _ _ _ _ _ _ HH5 req Hc5 ltac:(lia) Hreq8 ltac:(lia)) as HH6.
    destruct (insert_free_block_spec st5 l2 (c + req)) as (st6' & Eins' & Fins & _).
    { exact (ho_list _ _ _ _ _ _ HH6). }
    { pose proof (Hole_geom _ _ _ _ _ _ HH6) as (J1 & J2 & J3 & J4 & J5 & J6 & J7 & _).
      unfold node_ok. zlia. }
    { unfold far. rewrite Forall_forall. intros b Hb.
      apply (ho_free _ _ _ _ _ _ HH5), free_blocks_sub in Hb.
      destruct Hb as (t & u & Hb).
      destruct (Hole_outside _ _ _ _ _ _ HH5 _ _ _ Hb) as (O1 & O2). zlia. }
    destruct (Hole_insert _ _ _ _ _ _ HH6) as (st6 & Eins & HInv6 & Hsim6).
    { unfold st5. rewrite mem_upd_other by zlia. unfold st4. apply mem_upd_same. }
    { replace (c + req + (n - req) - WORD_SIZE) with (c + n - WORD_SIZE) by lia.
      unfold st5. apply mem_upd_same. }
    assert (Est6 : st6' = st6) by congruence. subst st6'.
    rewrite Eins. cbn [bind]. rewrite ptr_add_small by zlia.
    exists st6, ((bs1 ++ [(c, req, true)]) ++ (c + req, n - req, false) :: bs2),
      ((c + req) :: l2).
    split; [reflexivity|]. split; [exact HInv6|]. split.
    { eapply same_sim_trans; [exact Hsim4|].
      eapply same_sim_trans; [apply same_sim_upd | exact Hsim6]. }
    split; [split; [|reflexivity]; rewrite <- app_assoc; reflexivity|].
    apply (kept_trans _ _ st2); [exact K02|].
    apply (kept_trans _ _ st5).
    { unfold st5, st4, st3.
      pose proof HH2 as G0.
      pose proof (Hole_upd _ _ _ _ _ _ G0 c (tagword req true false)
                    ltac:(lia) ltac:(zlia)) as G1.
      pose proof (Hole_upd _ _ _ _ _ _ G1 c (tagword req true true)
                    ltac:(lia) ltac:(zlia)) as G2.
      pose proof (Hole_upd _ _ _ _ _ _ G2 (c + req) (n - req)
                    ltac:(lia) ltac:(zlia)) as G3.
      pose proof (Hole_upd _ _ _ _ _ _ G3 (c + req) (tagword (n - req) false false)
                    ltac:(lia) ltac:(zlia)) as G4.
      pose proof (Hole_upd _ _ _ _ _ _ G4 (c + req) (tagword (n - req) true false)
                    ltac:(lia) ltac:(zlia)) as G5.
      eapply kept_trans; [exact (Hin_hole _ c (tagword req true false) G0
                                   ltac:(zlia))|].
      eapply kept_trans; [exact (Hin_hole _ c (tagword req true true) G1
                                   ltac:(zlia))|].
      eapply kept_trans; [exact (Hin_hole _ (c + req) (n - req) G2 ltac:(zlia))|].
      eapply kept_trans; [exact (Hin_hole _ (c + req) (tagword (n - req) false false)
                                   G3 ltac:(zlia))|].
      eapply kept_trans; [exact (Hin_hole _ (c + req) (tagword (n - req) true false)
                                   G4 ltac:(zlia))|].
      exact (Hin_hole _ (c + n - WORD_SIZE) (tagword (n - req) true false) G5
               ltac:(zlia)). }
    apply (mid_frame_kept st5 st6 bs1 c n false bs2 ((c + req) :: l2));
      [exact (ho_chain _ _ _ _ _ _ HH5) | exact Fins |].
    intros b [<- | Hb]; [left; zlia | right; apply (ho_free _ _ _ _ _ _ HH5); exact Hb].
  - (* no split *)
    rewrite ptr_add_small by zlia.
    destruct (Hole_used_kept _ _ _ _ _ _ HH2 Hc2) as (st3 & Eused & HInv3 & Hsim3 & K3).
    rewrite Z.add_0_r. rewrite Eused. cbn [bind]. rewrite ptr_add_small by zlia.
    exists st3, (bs1 ++ (c, n, true) :: bs2), l2.
    split; [reflexivity|]. split; [exact HInv3|].
    split; [eapply same_sim_trans; [exact Hsim02 | exact Hsim3]|].
    split; [reflexivity|]. exact (kept_trans _ _ _ _ K02 K3).
Qed.

Lemma place_block_spec st bs1 c n bs2 fl req :
  Inv st (bs1 ++ (c, n, false) :: bs2) fl ->
  MIN_BLOCK_SIZE <= req <= n -> req mod ALIGNMENT = 0 ->
  exists st' bs' fl',
    place_block st c req = Ok (st', c + WORD_SIZE)
    /\ Inv st' bs' fl' /\ same_sim st st'
    /\ (if n - req >=? MIN_BLOCK_SIZE
        then bs' = bs1 ++ (c, req, true) :: (c + req, n - req, false) :: bs2
             /\ hd NULL fl' = c + req
        else bs' = bs1 ++ (c, n, true) :: bs2).
Proof.
  intros HInv Hreq Hreq8.
  destruct (place_block_run _ _ _ _ _ _ _ HInv Hreq Hreq8)
    as (st' & bs' & fl' & E & HInv' & Hsim & Hbs & _).
  exists st', bs', fl'. auto.
Qed.

(** * [mm_free] *)

(** What the invariant says around a used block. *)
Lemma Inv_used_block st bs1 a s bs2 fl :
  Inv st (bs1 ++ (a, s, true) :: bs2) fl ->
  tagged (mem st) true bs1 /\ no_adjacent true bs1
  /\ mem st a = tagword s (last_used true bs1) true
  /\ tagged (mem st) true bs2 /\ no_adjacent true bs2
  /\ mem st (mem_brk st - WORD_SIZE) = tagword 0 (last_used true bs2) true
  /\ (forall b, In b fl <-> In b (free_blocks (bs1 ++ bs2))).
Proof.
  intros [Henv Hbrk Hch Htag Hend Hna Hfl Hnd Hfree].
  apply tagged_app in Htag. destruct Htag as (Ht1 & Hc & _ & Ht2).
  apply no_adjacent_app in Hna. destruct Hna as (Hn1 & _ & Hn2).
  rewrite last_used_app in Hend. simpl in Hend.
  repeat split; auto.
  - intros Hb. apply Hfree in Hb. rewrite free_blocks_app in *. exact Hb.
  - intros Hb. apply Hfree. rewrite free_blocks_app in *. exact Hb.
Qed.

(** The word behind a used block: the next header or the end-of-heap
    word, with [TAG_PRECEDING_USED] set. *)
Lemma Inv_next_word st bs1 a s bs2 fl :
  Inv st (bs1 ++ (a, s, true) :: bs2) fl ->
  exists t v, 0 <= t < 2 ^ 63 /\ t mod ALIGNMENT = 0
              /\ mem st (a + s) = tagword t true v.
Proof.
  intros HInv.
  pose proof (Inv_used_block _ _ _ _ _ _ HInv) as (_ & _ & _ & Ht2 & _ & Hend & _).
  destruct HInv as [Henv Hbrk Hch _ _ _ _ _ _].
  destruct Henv as (E1 & E2 & E3 & E4 & E5 & E6).
  pose proof (chain_mid _ _ _ _ _ _ _ Hch) as (C1 & C2 & C3 & C4).
  pose proof (chain_le _ _ _ C1).
  destruct bs2 as [|[[y t] v] r]; simpl in C4.
  - exists 0, true. rewrite C4. simpl in Hend. repeat split; auto; lia.
  - destruct C4 as (-> & D1 & D2 & D3). pose proof (chain_le _ _ _ D3).
    simpl in Ht2. destruct Ht2 as (Hy & _).
    exists t, v. repeat split; auto; zlia.
Qed.

Lemma free_Gap st bs1 a s bs2 fl st3 t v :
  Inv st (bs1 ++ (a, s, true) :: bs2) fl ->
  same_sim st st3 ->
  (forall x, x < a \/ a + s < x -> mem st3 x = mem st x) ->
  t mod ALIGNMENT = 0 ->
  mem st (a + s) = tagword t true v ->
  mem st3 (a + s) = tagword t false v ->
  Gap st3 bs1 a s bs2 fl.
Proof.
  intros HInv Hsim Hfr Ht8 Hw Hw3.
  pose proof (Inv_used_block _ _ _ _ _ _ HInv)
    as (Ht1 & Hn1 & Ha & Ht2 & Hn2 & Hend & Hfree).
  pose proof (Inv_FL _ _ _ HInv) as HFL.
  destruct HInv as [Henv Hbrk Hch _ _ _ _ _ _].
  pose proof Henv as (E1 & E2 & E3 & E4 & E5 & E6).
  pose proof Hsim as (S1 & S2 & S3 & S4).
  pose proof (chain_mid _ _ _ _ _ _ _ Hch) as (C1 & C2 & C3 & C4).
  pose proof (chain_le _ _ _ C1) as Hle1.
  constructor.
  - eapply env_ok_same; eauto.
  - rewrite S2, S3. exact Hbrk.
  - rewrite S1, S2. apply chain_mid_intro; auto.
  - eapply tagged_frame; [|exact Ht1]. intros y r u Hy.
    pose proof (chain_In _ _ _ _ _ _ C1 Hy).
    split; [|intros _]; apply Hfr; zlia.
  - exact Hn1.
  - destruct bs2 as [|[[y r] u] bs2]; [exact I|].
    simpl in C4. destruct C4 as (-> & D1 & D2 & D3).
    simpl in Ht2. destruct Ht2 as (Hy & _ & Ht2).
    rewrite Hy in Hw. apply tagword_inj in Hw; auto. destruct Hw as (-> & _ & ->).
    simpl. split; [exact Hw3|].
    eapply tagged_frame; [|exact Ht2]. intros z q w Hz.
    pose proof (chain_In _ _ _ _ _ _ D3 Hz).
    split; [|intros _]; apply Hfr; zlia.
  - exact Hn2.
  - rewrite S2. destruct bs2 as [|[[y r] u] bs2].
    + simpl in C4. simpl in Hend. rewrite <- C4. rewrite <- C4 in Hend.
      rewrite Hend in Hw. apply tagword_inj in Hw; auto.
      destruct Hw as (<- & _ & <-). exact Hw3.
    + simpl in C4. destruct C4 as (-> & D1 & D2 & D3).
      pose proof (chain_le _ _ _ D3).
      rewrite Hfr by zlia. exact Hend.
  - eapply FL_frame; eauto.
    + apply Hfr. pose proof (chain_le _ _ _ C1). zlia.
    + rewrite Forall_forall. intros b Hb.
      apply Hfree, In_free_blocks in Hb. destruct Hb as (r & Hb).
      apply in_app_or in Hb. destruct Hb as [Hb | Hb].
      * pose proof (chain_In _ _ _ _ _ _ C1 Hb). split; apply Hfr; zlia.
      * pose proof (chain_In _ _ _ _ _ _ C4 Hb). split; apply Hfr; zlia.
  - exact Hfree.
Qed.

Lemma used_not_elsewhere bs1 a s u bs2 lo e x t :
  chain lo (bs1 ++ (a, s, u) :: bs2) e ->
  In (x, t) (used_blocks (bs1 ++ bs2)) -> x <> a.
Proof.
  intros Hch Hq. pose proof (chain_mid _ _ _ _ _ _ _ Hch) as (C1 & C2 & C3 & C4).
  apply In_used_blocks in Hq.
  apply in_app_or in Hq. destruct Hq as [Hq | Hq].
  - pose proof (chain_In _ _ _ _ _ _ C1 Hq). zlia.
  - pose proof (chain_In _ _ _ _ _ _ C4 Hq). zlia.
Qed.

(** [mm_free] of the payload of a used block: the heap satisfies the
    invariants again, the other used blocks stay used and keep their
    contents, and the free block that now contains the freed one heads
    the free list. *)
Lemma mm_free_run fuel st bs fl p s :
  Inv st bs fl ->
  In (p - WORD_SIZE, s, true) bs ->
  (2 <= fuel)%nat ->
  exists st' bs' fl' c n,
    mm_free fuel st p = Ok st' /\ Inv st' bs' fl' /\ same_sim st st'
    /\ (forall q, In q (used_blocks bs')
                  <-> In q (used_blocks bs) /\ fst q <> p - WORD_SIZE)
    /\ hd NULL fl' = c /\ In (c, n, false) bs'
    /\ c <= p - WORD_SIZE /\ p - WORD_SIZE + s <= c + n
    /\ kept (used_blocks bs') st st'.
Proof.
  intros HInv Hin Hfuel.
  set (a := p - WORD_SIZE) in *.
  destruct (in_split _ _ Hin) as (bs1 & bs2 & ->).
  pose proof (Inv_used_block _ _ _ _ _ _ HInv)
    as (Ht1 & Hn1 & Ha & Ht2 & Hn2 & Hend & Hfree).
  destruct (Inv_next_word _ _ _ _ _ _ HInv) as (t & v & Htr & Ht8 & Hw).
  pose proof HInv as [Henv Hbrk Hch _ _ _ _ _ _].
  pose proof Henv as (E1 & E2 & E3 & E4 & E5 & E6).
  pose proof (chain_mid _ _ _ _ _ _ _ Hch) as (C1 & C2 & C3 & C4).
  pose proof (chain_le _ _ _ C1) as Hle1. pose proof (chain_le _ _ _ C4) as Hle4.
  assert (Hal : a mod ALIGNMENT = 0).
  { pose proof (block_node_ok _ _ _ _ _ E2 Hch Hin) as (_ & _ & Hm). exact Hm. }
  assert (Hsr : 0 <= s < 2 ^ 63) by zlia.
  unfold mm_free. rewrite ptr_sub_small by zlia. fold a.
  unfold off_size_and_tags. rewrite !Z.add_0_r.
  rewrite load_ok by acc. cbn [bind]. rewrite Ha.
  rewrite SIZE_tagword by assumption.
  rewrite ptr_add_small by zlia. rewrite !Z.add_0_r.
  rewrite modify_ok by acc. cbn [bind]. rewrite Ha.
  rewrite tagword_clear_used by assumption.
  set (pu := last_used true bs1) in *.
  set (st1 := upd st a (tagword s pu false)).
  rewrite modify_ok by acc. cbn [bind].
  replace (mem st1 (a + s)) with (tagword t true v)
    by (unfold st1; rewrite mem_upd_other by zlia; symmetry; exact Hw).
  rewrite tagword_clear_preceding_used by assumption.
  set (st2 := upd st1 (a + s) (tagword t false v)).
  rewrite load_ok by acc. cbn [bind].
  replace (mem st2 a) with (tagword s pu false)
    by (unfold st2; rewrite mem_upd_other by zlia; unfold st1;
        rewrite mem_upd_same; reflexivity).
  rewrite wrap64_small by zlia. rewrite ptr_add_small by zlia.
  rewrite store_ok by acc. cbn [bind].
  set (st3 := upd st2 (a + (s - WORD_SIZE)) (tagword s pu false)).
  assert (HGap : Gap st3 bs1 a s bs2 fl).
  { apply (free_Gap st bs1 a s bs2 fl st3 t v HInv).
    - repeat split.
    - intros x Hx. unfold st3, st2, st1. rewrite !mem_upd_other by zlia. reflexivity.
    - exact Ht8.
    - exact Hw.
    - unfold st3. rewrite mem_upd_other by zlia. unfold st2. apply mem_upd_same. }
  destruct (Gap_insert_Co_kept _ _ _ _ _ _ HGap)
    as (st4 & E4' & HCo & Hsim4 & Hh4 & Hf4 & K4).
  rewrite E4'. cbn [bind].
  destruct (coalesce_free_block_run fuel _ _ _ _ _ _ HCo) as
    (st' & bs' & fl' & c & n & E' & HInv' & Hsim' & Hhd' & Hcin & _ & Hup
     & Hca & Hcs & K5); auto.
  { rewrite Hh4. unfold st3. rewrite mem_upd_other by zlia.
    unfold st2. rewrite mem_upd_other by zlia. unfold st1. apply mem_upd_same. }
  { rewrite Hf4. unfold st3. replace (a + s - WORD_SIZE) with (a + (s - WORD_SIZE)) by lia.
    apply mem_upd_same. }
  assert (Hkept : kept (used_blocks bs') st st').
  { apply (kept_sub (used_blocks (bs1 ++ bs2))); [intros q Hq; apply Hup; exact Hq|].
    assert (Hin_a : forall x, a <= x <= a + s ->
                      ~ inside (used_blocks (bs1 ++ bs2)) x).
    { intros x Hx. apply (mid_not_inside _ _ _ _ _ _ _ _ Hch). exact Hx. }
    apply (kept_trans _ _ st1); [apply kept_upd, Hin_a; lia|].
    apply (kept_trans _ _ st2); [apply kept_upd, Hin_a; lia|].
    apply (kept_trans _ _ st3); [apply kept_upd, Hin_a; zlia|].
    exact (kept_trans _ _ _ _ K4 K5). }
  exists st', bs', fl', c, n. split; [exact E'|]. split; [exact HInv'|]. split.
  { eapply same_sim_trans; [|exact Hsim'].
    eapply same_sim_trans; [|exact Hsim4]. repeat split. }
  split; [|split; [exact Hhd' | split; [exact Hcin | split; [exact Hca
           | split; [exact Hcs | exact Hkept]]]]].
  intros [x r]. rewrite Hup. rewrite !used_blocks_app.
  change (used_blocks ((a, s, true) :: bs2)) with ((a, s) :: used_blocks bs2).
  rewrite !in_app_iff. cbn [In fst]. fold a.
  split.
  - intros Hq. split; [tauto|].
    apply (used_not_elsewhere _ _ _ _ _ _ _ _ r Hch).
    rewrite used_blocks_app, in_app_iff. exact Hq.
  - intros (Hq & Hne). destruct Hq as [Hq | [Hq | Hq]]; auto.
    inversion Hq; subst. congruence.
Qed.

Lemma mm_free_spec fuel st bs fl p s :
  Inv st bs fl ->
  In (p - WORD_SIZE, s, true) bs ->
  (2 <= fuel)%nat ->
  exists st' bs' fl',
    mm_free fuel st p = Ok st' /\ Inv st' bs' fl' /\ same_sim st st'
    /\ (forall q, In q (used_blocks bs')
                  <-> In q (used_blocks bs) /\ fst q <> p - WORD_SIZE).
Proof.
  intros HInv Hin Hfuel.
  destruct (mm_free_run fuel _ _ _ _ _ HInv Hin Hfuel)
    as (st' & bs' & fl' & c & n & E & HInv' & Hsim & Hup & _).
  exists st', bs', fl'. auto.
Qed.

(** * [request_more_space] *)

Lemma page_round req ps :
  0 < ps -> ps mod ALIGNMENT = 0 -> 0 <= req ->
  let total := (req + ps - 1) / ps * ps in
  req <= total < req + ps /\ total mod ALIGNMENT = 0.
Proof.
  intros Hps Hps8 Hreq total.
  pose proof (Z.div_mod (req + ps - 1) ps ltac:(lia)) as Hdm.
  pose proof (Z.mod_pos_bound (req + ps - 1) ps Hps) as Hr.
  assert (Et : total = req + ps - 1 - (req + ps - 1) mod ps) by (unfold total; lia).
  split; [lia|].
  unfold total. apply Z.mod_divide; [discriminate|].
  apply Z.divide_mul_r. apply Z.mod_divide; [discriminate | exact Hps8].
Qed.

Lemma wrap64_minus1 : wrap64 (-1) = 2 ^ 64 - 1.
Proof. reflexivity. Qed.

Lemma node_ok_grow st incr b : 0 <= incr -> node_ok st b -> node_ok (grow st incr) b.
Proof. unfold node_ok. simpl. intros H (H1 & H2 & H3). repeat split; zlia. Qed.

Lemma FL_grow st l incr : 0 <= incr -> FL st l -> FL (grow st incr) l.
Proof.
  intros Hi [(L1 & L2 & L3) Hl Hs Hn]. constructor; simpl; auto.
  - repeat split; zlia.
  - eapply Forall_impl; [|exact Hn]. intros b. apply node_ok_grow, Hi.
Qed.

Lemma same_sim_consts st st' : same_sim st st' -> same_consts st st'.
Proof. unfold same_sim, same_consts. tauto. Qed.

Lemma same_consts_trans st1 st2 st3 :
  same_consts st1 st2 -> same_consts st2 st3 -> same_consts st1 st3.
Proof. unfold same_consts. intuition congruence. Qed.

Lemma request_more_space_run fuel st bs fl req :
  Inv st bs fl ->
  MIN_BLOCK_SIZE <= req -> req + pagesize st <= 2 ^ 64 ->
  (2 <= fuel)%nat ->
  request_more_space fuel st req = Exit 0
  \/ exists st' bs' fl' c n,
       request_more_space fuel st req = Ok st'
       /\ Inv st' bs' fl' /\ same_consts st st'
       /\ hd NULL fl' = c /\ In (c, n, false) bs' /\ req <= n
       /\ (forall q, In q (used_blocks bs') <-> In q (used_blocks bs))
       /\ c + n = mem_brk st' - WORD_SIZE
       /\ kept (used_blocks bs) st st'.
Proof.
  intros HInv Hreq Hreqps Hfuel.
  pose proof (Inv_FL _ _ _ HInv) as HFL.
  pose proof HInv as [Henv Hbrk Hch Htag Hend Hna Hfl Hnd Hfree].
  pose proof Henv as (E1 & E2 & E3 & E4 & E5 & E6).
  pose proof (chain_le _ _ _ Hch) as Hle.
  destruct (page_round req (pagesize st) ltac:(lia) E6 ltac:(zlia)) as (Htot & Htot8).
  unfold request_more_space, mem_pagesize.
  rewrite (wrap64_small (req + pagesize st - 1)) by zlia.
  set (total := (req + pagesize st - 1) / pagesize st * pagesize st) in *.
  rewrite (wrap64_small total) by zlia.
  unfold mem_sbrk.
  destruct (Z.gtb_spec (mem_brk st + total) (mem_max_addr st)) as [Hfull | Hroom].
  { left. reflexivity. }
  right.
  replace (mem_brk st =? wrap64 (-1)) with false
    by (symmetry; apply Z.eqb_neq; rewrite wrap64_minus1; zlia).
  rewrite ptr_sub_small by zlia.
  set (a := mem_brk st - WORD_SIZE) in *.
  set (st1 := grow st total).
  unfold off_size_and_tags. rewrite !Z.add_0_r.
  assert (Hal : a mod ALIGNMENT = 0).
  { assert (Hlo8 : (mem_start_brk st + WORD_SIZE) mod ALIGNMENT = 0) by zlia.
    apply (chain_aligned _ _ _ Hlo8 Hch). }
  assert (Htr : 0 <= total < 2 ^ 63) by zlia.
  rewrite load_ok by acc. cbn [bind].
  change (mem st1 a) with (mem st a).
  replace (mem st a) with (tagword 0 (last_used true bs) true)
    by (symmetry; exact Hend).
  rewrite tagword_preceding_used by (apply zero_size).
  set (pu := last_used true bs) in *.
  rewrite (lor_size_mask total Htr Htot8 pu).
  rewrite store_ok by acc. cbn [bind].
  rewrite wrap64_small by zlia. rewrite !ptr_add_small by zlia.
  rewrite store_ok by acc. cbn [bind].
  rewrite store_ok by acc. cbn [bind].
  set (st4 := upd (upd (upd st1 a (tagword total pu false))
                     (a + (total - WORD_SIZE)) (tagword total pu false))
                (a + total) TAG_USED).
  assert (HGap : Gap st4 bs a total [] fl).
  { constructor.
    - exact Henv.
    - simpl. lia.
    - simpl mem_start_brk. simpl mem_brk. apply chain_mid_intro; auto; try zlia.
      simpl. unfold a. lia.
    - eapply tagged_frame; [|exact Htag]. intros y r u Hy.
      pose proof (chain_In _ _ _ _ _ _ Hch Hy). fold a in H.
      unfold st4. split; [|intros _]; rewrite !mem_upd_other by zlia; reflexivity.
    - exact Hna.
    - exact I.
    - exact I.
    - simpl mem_brk. unfold st4.
      replace (mem_brk st + total - WORD_SIZE) with (a + total) by (unfold a; lia).
      rewrite mem_upd_same. reflexivity.
    - unfold st4. repeat apply FL_upd.
      + apply FL_grow; [lia | exact HFL].
      + simpl. zlia.
      + rewrite Forall_forall. intros b Hb.
        apply Hfree, In_free_blocks in Hb. destruct Hb as (r & Hb).
        pose proof (chain_In _ _ _ _ _ _ Hch Hb). fold a in H. zlia.
      + simpl. zlia.
      + rewrite Forall_forall. intros b Hb.
        apply Hfree, In_free_blocks in Hb. destruct Hb as (r & Hb).
        pose proof (chain_In _ _ _ _ _ _ Hch Hb). fold a in H. zlia.
      + simpl. zlia.
      + rewrite Forall_forall. intros b Hb.
        apply Hfree, In_free_blocks in Hb. destruct Hb as (r & Hb).
        pose proof (chain_In _ _ _ _ _ _ Hch Hb). fold a in H. zlia.
    - intros b. rewrite app_nil_r. apply Hfree. }
  destruct (Gap_insert_Co_kept _ _ _ _ _ _ HGap)
    as (st5 & E5' & HCo & Hsim5 & Hh5 & Hf5 & K5).
  rewrite E5'. cbn [bind].
  destruct (coalesce_free_block_run fuel _ _ _ _ _ _ HCo) as
    (st' & bs' & fl' & c & n & E' & HInv' & Hsim' & Hhd' & Hin' & Hle' & Hup
     & _ & Hcend & K6); auto.
  { rewrite Hh5. unfold st4. rewrite !mem_upd_other by zlia. apply mem_upd_same. }
  { rewrite Hf5. unfold st4. rewrite mem_upd_other by zlia.
    replace (a + total - WORD_SIZE) with (a + (total - WORD_SIZE)) by lia.
    apply mem_upd_same. }
  exists st', bs', fl', c, n.
  split; [exact E'|]. split; [exact HInv'|]. split.
  { apply same_sim_consts in Hsim5. apply same_sim_consts in Hsim'.
    eapply same_consts_trans; [|exact Hsim'].
    eapply same_consts_trans; [|exact Hsim5]. repeat split. }
  split; [exact Hhd'|]. split; [exact Hin'|]. split; [lia|].
  split; [intros q; rewrite Hup, app_nil_r; tauto|].
  split.
  { pose proof (chain_In _ _ _ _ _ _ (inv_chain _ _ _ HInv') Hin') as (_ & Hce & _).
    destruct Hsim' as (_ & Sb & _). destruct Hsim5 as (_ & Sb5 & _).
    rewrite Sb, Sb5 in *. simpl mem_brk in *. unfold a in Hcend. lia. }
  rewrite app_nil_r in K5, K6.
  assert (Hout : forall x, a <= x -> ~ inside (used_blocks bs) x).
  { intros x Hx. apply (chain_not_inside_out _ _ _ _ _ Hch); [auto|].
    right. exact Hx. }
  apply (kept_trans _ _ st1); [intros x _; reflexivity|].
  apply (kept_trans _ _ st4); [|exact (kept_trans _ _ _ _ K5 K6)].
  unfold st4.
  apply (kept_trans _ _ (upd st1 a (tagword total pu false)));
    [apply kept_upd, Hout; lia|].
  apply (kept_trans _ _ (upd (upd st1 a (tagword total pu false))
                           (a + (total - WORD_SIZE)) (tagword total pu false)));
    [apply kept_upd, Hout; zlia|].
  apply kept_upd, Hout. zlia.
Qed.

Lemma request_more_space_spec fuel st bs fl req :
  Inv st bs fl ->
  MIN_BLOCK_SIZE <= req -> req + pagesize st <= 2 ^ 64 ->
  (2 <= fuel)%nat ->
  request_more_space fuel st req = Exit 0
  \/ exists st' bs' fl' c n,
       request_more_space fuel st req = Ok st'
       /\ Inv st' bs' fl' /\ same_consts st st'
       /\ hd NULL fl' = c /\ In (c, n, false) bs' /\ req <= n
       /\ (forall q, In q (used_blocks bs') <-> In q (used_blocks bs)).
Proof.
  intros HInv Hreq Hreqps Hfuel.
  destruct (request_more_space_run fuel _ _ _ _ HInv Hreq Hreqps Hfuel)
    as [E | (st' & bs' & fl' & c & n & E & HInv' & Hc & H1 & H2 & H3 & H4 & _)];
    [left; exact E|].
  right. exists st', bs', fl', c, n. auto 10.
Qed.

(** * [mm_init] *)

Lemma mm_init_spec m lo max ps :
  env_ok (mem_init m lo max ps) ->
  mm_init (mem_init m lo max ps) = Exit 1
  \/ exists st,
       mm_init (mem_init m lo max ps) = Ok (st, 0)
       /\ Inv st [(lo + WORD_SIZE, MIN_BLOCK_SIZE, false)] [lo + WORD_SIZE]
       /\ same_consts (mem_init m lo max ps) st.
Proof.
  intros Henv. pose proof Henv as (E1 & E2 & E3 & E4 & E5 & E6). simpl in *.
  unfold mm_init, mem_sbrk, mem_init. cbn [mem_brk mem_max_addr].
  change (wrap64 (WORD_SIZE + MIN_BLOCK_SIZE + WORD_SIZE)) with 48.
  destruct (Z.gtb_spec (lo + 48) max) as [Hfull | Hroom]; [left; reflexivity|].
  right.
  replace (lo =? wrap64 (-1)) with false
    by (symmetry; apply Z.eqb_neq; rewrite wrap64_minus1; zlia).
  unfold mem_heap_lo, mem_heap_hi, grow, set_FREE_LIST_HEAD. cbn [mem_start_brk mem_brk mem mem_max_addr pagesize].
  change (wrap64 (wrap64 (48 - WORD_SIZE) - WORD_SIZE)) with 32.
  change (wrap64 (32 - WORD_SIZE)) with 24.
  change (wrap64 (WORD_SIZE - 1)) with 7.
  change (Z.lor 32 TAG_PRECEDING_USED) with 34.
  rewrite !ptr_add_small by zlia.
  unfold off_size_and_tags. rewrite !Z.add_0_r.
  rewrite store_ok by acc. cbn [bind].
  rewrite store_ok by acc. cbn [bind].
  rewrite store_ok by acc. cbn [bind].
  rewrite store_ok by acc. cbn [bind].
  cbn [mem_brk upd]. rewrite ptr_sub_small by zlia.
  rewrite store_ok by acc. cbn [bind].
  unfold mem_heap_lo. cbn [mem_start_brk upd].
  rewrite store_ok by acc. cbn [bind].
  eexists. split; [reflexivity|]. split; [|repeat split].
  constructor.
  - exact Henv.
  - simpl. lia.
  - simpl. repeat split; zlia.
  - cbn [tagged]. rewrite !mem_upd. cbn [mem_start_brk mem_brk upd].
    split; [|split; [intros _|exact I]].
    + rewrite !(fupd_other _ _ _ (lo + WORD_SIZE)) by zlia. apply fupd_same.
    + rewrite !(fupd_other _ _ _ (lo + WORD_SIZE + MIN_BLOCK_SIZE - WORD_SIZE)) by zlia.
      replace (lo + WORD_SIZE + MIN_BLOCK_SIZE - WORD_SIZE) with (lo + WORD_SIZE + 24) by zlia.
      apply fupd_same.
  - simpl mem_brk. rewrite mem_upd_other by zlia.
    replace (lo + 48 - WORD_SIZE) with (lo + 48 - 1 - 7) by zlia. apply mem_upd_same.
  - simpl. auto.
  - rewrite !mem_upd. cbn [mem_start_brk]. rewrite fupd_same. cbn [flist].
    split; [reflexivity|]. split; [zlia|]. split.
    + rewrite !(fupd_other _ _ _ (lo + WORD_SIZE + off_prev)) by zlia. apply fupd_same.
    + rewrite !(fupd_other _ _ _ (lo + WORD_SIZE + off_next)) by zlia. apply fupd_same.
  - constructor; [intros [] | constructor].
  - intros b. simpl. tauto.
Qed.

(** * [mm_malloc] *)

Lemma request_size_spec size :
  valid_size size ->
  MIN_BLOCK_SIZE <= request_size size < 2 ^ 63 + 16
  /\ request_size size mod ALIGNMENT = 0
  /\ size + WORD_SIZE <= request_size size.
Proof.
  intros (H1 & H2). unfold request_size.
  rewrite (wrap64_small (size + WORD_SIZE)) by zlia.
  destruct (Z.leb_spec (size + WORD_SIZE) MIN_BLOCK_SIZE) as [Hs | Hs].
  - repeat split; zlia.
  - rewrite (wrap64_small (size + WORD_SIZE + ALIGNMENT - 1)) by zlia.
    rewrite wrap64_small by zlia. repeat split; zlia.
Qed.

Lemma first_fit_found m l n b :
  first_fit m l n = b -> b <> NULL -> In b l /\ n <= SIZE (m b).
Proof.
  unfold first_fit. destruct (find _ l) as [x|] eqn:E; intros <- Hb; [|congruence].
  apply find_some in E. destruct E as (E1 & E2). split; [exact E1 | lia].
Qed.

Lemma first_fit_hd m c l n : n <= SIZE (m c) -> first_fit m (c :: l) n = c.
Proof.
  intros H. unfold first_fit. simpl.
  destruct (Z.geb_spec (SIZE (m c)) n); [reflexivity | lia].
Qed.

Lemma chain_length bs : forall a e,
  chain a bs e -> MIN_BLOCK_SIZE * Z.of_nat (length bs) <= e - a.
Proof.
  induction bs as [|[[x s] u] bs IH]; intros a e H.
  - simpl in *. zlia.
  - simpl in H. destruct H as (-> & H1 & H2 & H3). apply IH in H3.
    cbn [length]. zlia.
Qed.

Lemma free_blocks_length bs : (length (free_blocks bs) <= length bs)%nat.
Proof.
  unfold free_blocks. rewrite length_map. apply filter_length_le.
Qed.

Lemma Inv_fuel st bs fl fuel :
  Inv st bs fl ->
  mem_max_addr st - mem_start_brk st <= Z.of_nat fuel ->
  (2 <= fuel)%nat /\ (length fl < fuel)%nat /\ (length bs < fuel)%nat.
Proof.
  intros [Henv Hbrk Hch _ _ _ _ Hnd Hfree] Hfuel.
  pose proof (chain_length _ _ _ Hch) as Hlen.
  pose proof (chain_le _ _ _ Hch) as Hle.
  assert (Hl : (length fl <= length bs)%nat).
  { etransitivity; [|apply free_blocks_length].
    apply NoDup_incl_length; [exact Hnd|]. intros b Hb. apply Hfree, Hb. }
  repeat split; zlia.
Qed.

(** Writing inside the payload of a used block keeps the layout. *)
Lemma Inv_upd_payload st bs fl a s x v :
  Inv st bs fl -> In (a, s, true) bs ->
  a < x < a + s ->
  Inv (upd st x v) bs fl.
Proof.
  intros HInv Hin Hx.
  pose proof HInv as [Henv Hbrk Hch Htag Hend Hna Hfl Hnd Hfree].
  pose proof (chain_In _ _ _ _ _ _ Hch Hin) as (A1 & A2 & A3 & A4).
  assert (Hsep : forall y t u, In (y, t, u) bs ->
            y <> x /\ (u = false -> y + t - WORD_SIZE <> x
                                   /\ y + off_next <> x /\ y + off_prev <> x)).
  { intros y t u Hy.
    pose proof (chain_In _ _ _ _ _ _ Hch Hy) as (B1 & B2 & B3 & B4).
    destruct (chain_disjoint _ _ _ _ _ _ _ _ _ Hch Hin Hy) as [E | [D | D]].
    - inversion E; subst. split; [lia|]. discriminate.
    - split; [lia|]. intros _. zlia.
    - split; [zlia|]. intros _. zlia. }
  constructor; simpl mem_start_brk; simpl mem_brk; simpl mem_max_addr;
    try assumption.
  - apply (tagged_frame (mem st)); [|exact Htag].
    intros y t u Hy. destruct (Hsep _ _ _ Hy) as (S1 & S2).
    rewrite mem_upd. split.
    + apply fupd_other. exact S1.
    + intros Hu. apply fupd_other. apply S2. exact Hu.
  - rewrite mem_upd, fupd_other by lia. exact Hend.
  - rewrite mem_upd, fupd_other by zlia.
    apply (flist_frame (mem st)); [|exact Hfl].
    apply Forall_forall. intros b Hb.
    apply Hfree, In_free_blocks in Hb. destruct Hb as (t & Hb).
    destruct (Hsep _ _ _ Hb) as (_ & S2). destruct (S2 eq_refl) as (_ & S3 & S4).
    split; apply fupd_other; assumption.
Qed.

Lemma place_block_used st bs fl c n req :
  Inv st bs fl -> In (c, n, false) bs ->
  MIN_BLOCK_SIZE <= req <= n -> req mod ALIGNMENT = 0 ->
  exists st' bs' fl' t,
    place_block st c req = Ok (st', c + WORD_SIZE)
    /\ Inv st' bs' fl' /\ same_sim st st'
    /\ c + WORD_SIZE <> NULL
    /\ req <= t
    /\ (forall s, ~ In (c, s) (used_blocks bs))
    /\ (forall q, In q (used_blocks bs') <-> q = (c, t) \/ In q (used_blocks bs))
    /\ (exists bs1 bs2,
          bs' = bs1 ++ (c, t, true) :: bs2 /\ last_used true bs1 = true).
Proof.
  intros HInv Hin Hreq Hreq8.
  destruct (in_split _ _ Hin) as (bs1 & bs2 & ->).
  destruct (place_block_spec _ _ _ _ _ _ _ HInv Hreq Hreq8)
    as (st' & bs' & fl' & E & HInv' & Hsim & Hbs).
  pose proof HInv as [Henv _ Hch _ _ _ _ _ _].
  pose proof Henv as (E1 & _).
  pose proof (chain_In _ _ _ _ _ _ Hch Hin) as (I1 & _).
  exists st', bs', fl', (if n - req >=? MIN_BLOCK_SIZE then req else n).
  split; [exact E|]. split; [exact HInv'|].
  split; [exact Hsim|]. split; [zlia|].
  split; [destruct (n - req >=? MIN_BLOCK_SIZE); lia|].
  assert (Hup0 : forall q, In q (used_blocks (bs1 ++ (c, n, false) :: bs2))
                           <-> In q (used_blocks (bs1 ++ bs2))).
  { intros q. rewrite !used_blocks_app, !in_app_iff. simpl. tauto. }
  assert (Hlast : last_used true bs1 = true).
  { pose proof (inv_noadj _ _ _ HInv) as Hna.
    apply no_adjacent_app in Hna. destruct Hna as (_ & Hna).
    simpl in Hna. destruct Hna as ([Hl | Hl] & _); [exact Hl | discriminate]. }
  split; [|split].
  - intros s Hq. apply Hup0 in Hq.
    apply (used_not_elsewhere _ _ _ _ _ _ _ _ _ Hch) in Hq. congruence.
  - intros q. rewrite Hup0.
    destruct (n - req >=? MIN_BLOCK_SIZE).
    + destruct Hbs as (-> & _).
      rewrite !used_blocks_app, !in_app_iff.
      change (used_blocks ((c, req, true) :: (c + req, n - req, false) :: bs2))
        with ((c, req) :: used_blocks bs2).
      simpl. intuition congruence.
    + subst bs'. rewrite !used_blocks_app, !in_app_iff.
      change (used_blocks ((c, n, true) :: bs2))
        with ((c, n) :: used_blocks bs2).
      simpl. intuition congruence.
  - destruct (n - req >=? MIN_BLOCK_SIZE).
    + destruct Hbs as (-> & _). eexists bs1, _. split; [reflexivity | exact Hlast].
    + subst bs'. exists bs1, bs2. split; [reflexivity | exact Hlast].
Qed.

Lemma mm_malloc_spec fuel st bs fl size :
  Inv st bs fl -> valid_size size -> size <> 0 ->
  mem_max_addr st - mem_start_brk st <= Z.of_nat fuel ->
  mm_malloc fuel st size = Exit 0
  \/ exists st' bs' fl' p t,
       mm_malloc fuel st size = Ok (st', p)
       /\ Inv st' bs' fl' /\ same_consts st st'
       /\ p <> NULL /\ size + WORD_SIZE <= t
       /\ (forall s, ~ In (p - WORD_SIZE, s) (used_blocks bs))
       /\ (forall q, In q (used_blocks bs')
                     <-> q = (p - WORD_SIZE, t) \/ In q (used_blocks bs))
       /\ (exists bs1 bs2,
             bs' = bs1 ++ (p - WORD_SIZE, t, true) :: bs2
             /\ last_used true bs1 = true).
Proof.
  intros HInv Hsize Hnz Hfuel.
  destruct (request_size_spec size Hsize) as (R1 & R2 & R3).
  destruct (Inv_fuel _ _ _ _ HInv Hfuel) as (F2 & Ffl & _).
  pose proof (Inv_FL _ _ _ HInv) as HFL.
  pose proof HInv as [Henv _ Hch Htag _ Hna _ _ Hfree].
  pose proof Henv as (E1 & E2 & E3 & E4 & E5 & E6).
  unfold mm_malloc. apply Z.eqb_neq in Hnz. rewrite Hnz.
  set (req := request_size size) in *.
  rewrite (search_free_list_spec _ _ req _ HFL Ffl). cbn [bind].
  destruct (Z.eqb_spec (first_fit (mem st) fl req) NULL) as [Enull | Efound].
  - (* no fit: grow the heap *)
    destruct (request_more_space_spec fuel _ _ _ req HInv ltac:(lia) ltac:(zlia) F2)
      as [Eexit | (st1 & bs1 & fl1 & c & n & E1' & HInv1 & Hc1 & Hhd1 & Hin1 & Hle1 & Hup1)].
    { left. rewrite Eexit. reflexivity. }
    right. rewrite E1'. cbn [bind].
    pose proof (Inv_FL _ _ _ HInv1) as HFL1.
    destruct Hc1 as (K1 & K2 & K3).
    assert (Hfuel1 : mem_max_addr st1 - mem_start_brk st1 <= Z.of_nat fuel)
      by (rewrite K1, K2; exact Hfuel).
    destruct (Inv_fuel _ _ _ _ HInv1 Hfuel1) as (_ & Ffl1 & _).
    rewrite (search_free_list_spec _ _ req _ HFL1 Ffl1). cbn [bind].
    assert (Hc : mem st1 c = tagword n true false).
    { apply (tagged_free _ _ _ _ _ (inv_tagged _ _ _ HInv1) (inv_noadj _ _ _ HInv1) Hin1). }
    pose proof (chain_In _ _ _ _ _ _ (inv_chain _ _ _ HInv1) Hin1) as (I1 & I2 & I3 & I4).
    pose proof (chain_le _ _ _ (inv_chain _ _ _ HInv1)) as Hle.
    pose proof (inv_brk _ _ _ HInv1) as Hbrk1.
    assert (Hnr : 0 <= n < 2 ^ 63) by zlia.
    assert (Hfit : first_fit (mem st1) fl1 req = c).
    { assert (Hcin : In c fl1).
      { apply (inv_free _ _ _ HInv1), In_free_blocks. eauto. }
      destruct fl1 as [|c' fl1]; [contradiction|]. simpl in Hhd1. subst c'.
      apply first_fit_hd. rewrite Hc, SIZE_tagword by assumption. lia. }
    rewrite Hfit.
    destruct (place_block_used _ _ _ _ _ req HInv1 Hin1 ltac:(lia) R2)
      as (st' & bs' & fl' & t & E & HInv' & Hsim & Hp & Ht & Hnew & Hup & Hpos).
    cbn [bind]. cbv beta iota. rewrite E.
    exists st', bs', fl', (c + WORD_SIZE), t.
    replace (c + WORD_SIZE - WORD_SIZE) with c by lia.
    split; [reflexivity|]. split; [exact HInv'|]. split.
    { eapply same_consts_trans; [|apply same_sim_consts; exact Hsim]. repeat split; auto. }
    split; [exact Hp|]. split; [lia|]. split.
    { intros s Hq. apply (Hnew s). apply Hup1. exact Hq. }
    split; [|exact Hpos].
    intros q. rewrite Hup, Hup1. tauto.
  - (* a fit in the list *)
    right.
    destruct (first_fit_found _ _ _ _ eq_refl Efound) as (Hb & Hsz).
    set (b := first_fit (mem st) fl req) in *.
    apply Hfree, In_free_blocks in Hb. destruct Hb as (n & Hin).
    assert (Hc : mem st b = tagword n true false).
    { apply (tagged_free _ _ _ _ _ Htag Hna Hin). }
    pose proof (chain_In _ _ _ _ _ _ Hch Hin) as (I1 & I2 & I3 & I4).
    pose proof (chain_le _ _ _ Hch) as Hle.
    pose proof (inv_brk _ _ _ HInv) as Hbrk.
    assert (Hnr : 0 <= n < 2 ^ 63) by zlia.
    rewrite Hc, SIZE_tagword in Hsz by assumption.
    destruct (place_block_used _ _ _ _ _ req HInv Hin ltac:(lia) R2)
      as (st' & bs' & fl' & t & E & HInv' & Hsim & Hp & Ht & Hnew & Hup & Hpos).
    cbn [bind]. cbv beta iota. rewrite E.
    exists st', bs', fl', (b + WORD_SIZE), t.
    replace (b + WORD_SIZE - WORD_SIZE) with b by lia.
    split; [reflexivity|]. split; [exact HInv'|].
    split; [apply same_sim_consts; exact Hsim|].
    split; [exact Hp|]. split; [lia|]. auto.
Qed.

(** * Walking a well-formed heap *)

Lemma examine_loop_spec st bs : forall a pu fuel,
  mem_start_brk st + WORD_SIZE <= a -> a mod ALIGNMENT = 0 ->
  mem_brk st - mem_start_brk st < 2 ^ 31 ->
  mem_start_brk st mod ALIGNMENT = 0 ->
  chain a bs (mem_brk st - WORD_SIZE) ->
  tagged (mem st) pu bs ->
  mem st (mem_brk st - WORD_SIZE) = tagword 0 (last_used pu bs) true ->
  (length bs < fuel)%nat ->
  examine_loop fuel st a = Ok (rows_of (mem st) pu bs).
Proof.
  induction bs as [|[[y t] u] bs IH]; intros a pu fuel Ha Ha8 Hsmall Hlo8 Hch Htag Hend Hfuel.
  - destruct fuel as [|fuel]; [simpl in Hfuel; lia|].
    simpl in Hch. simpl in Hend. cbn [examine_loop].
    unfold off_size_and_tags. rewrite Z.add_0_r.
    rewrite load_ok by acc. cbn [bind]. rewrite Hch, Hend.
    rewrite SIZE_tagword by apply zero_size. reflexivity.
  - destruct fuel as [|fuel]; [simpl in Hfuel; lia|].
    simpl in Hch. destruct Hch as (-> & C1 & C2 & C3).
    simpl in Htag. destruct Htag as (Hy & _ & Htag).
    pose proof (chain_le _ _ _ C3) as Hle.
    assert (Htr : 0 <= t < 2 ^ 63) by zlia.
    cbn [examine_loop]. unfold off_size_and_tags. rewrite Z.add_0_r.
    rewrite load_ok by acc. cbn [bind]. rewrite Hy.
    rewrite SIZE_tagword by assumption.
    replace (negb (t =? 0) && (a <? mem_heap_hi st)) with true.
    2:{ symmetry. apply andb_true_intro. split.
        - apply negb_true_iff, Z.eqb_neq. zlia.
        - apply Z.ltb_lt. unfold mem_heap_hi. zlia. }
    rewrite tagword_used, tagword_preceding_used by assumption.
    rewrite ptr_add_small by zlia.
    rewrite (IH (a + t) u fuel); auto; try zlia.
    2:{ simpl in Hfuel. lia. }
    destruct u; cbn [negb bind rows_of].
    + change (TAG_USED =? 0) with false. cbn [negb bind]. reflexivity.
    + change (0 =? 0) with true. cbn [negb].
      rewrite load_ok by acc. cbn [bind].
      rewrite load_ok by acc. cbn [bind]. reflexivity.
Qed.

Lemma examine_heap_spec st bs fl fuel :
  Inv st bs fl -> (length bs < fuel)%nat ->
  examine_heap fuel st = Ok (hd NULL fl, rows_of (mem st) true bs).
Proof.
  intros [Henv Hbrk Hch Htag Hend Hna Hfl Hnd Hfree] Hfuel.
  destruct Henv as (E1 & E2 & E3 & E4 & E5 & E6).
  pose proof (chain_le _ _ _ Hch) as Hle.
  unfold examine_heap, get_FREE_LIST_HEAD, mem_heap_lo.
  rewrite load_ok by acc. cbn [bind].
  rewrite ptr_add_small by zlia.
  rewrite (examine_loop_spec st bs _ true fuel); auto; try zlia.
  cbn [bind]. rewrite (flist_hd _ _ _ _ Hfl). reflexivity.
Qed.



Lemma total_size_rows m bs : forall pu a e,
  chain a bs e -> total_size (rows_of m pu bs) = e - a.
Proof.
  induction bs as [|[[y t] u] bs IH]; intros pu a e H.
  - simpl in *. lia.
  - simpl in H. destruct H as (-> & _ & _ & H).
    unfold total_size in *. cbn [rows_of fold_right row_size].
    rewrite (IH u _ _ H). lia.
Qed.

(** * Reachable heaps satisfy the invariants *)

Lemma reachable_Inv fuel st live :
  reachable fuel st live ->
  exists bs fl,
    Inv st bs fl
    /\ live_ok live bs
    /\ mem_max_addr st - mem_start_brk st <= Z.of_nat fuel.
Proof.
  induction 1 as [m lo max ps st r Henv Hfuel Hinit
                 | st live size st' p Hreach IH Hsize Hmalloc
                 | st live p size st' Hreach IH Hlive Hfree
                 | st live p size x v Hreach IH Hlive Hx Hal Hv].
  - destruct (mm_init_spec m lo max ps Henv) as [E | (st1 & E & HInv & K1 & K2 & K3)];
      rewrite E in Hinit; [discriminate|]. inversion Hinit; subst.
    eexists _, _. split; [exact HInv|]. split.
    + split; simpl; intros; contradiction.
    + rewrite K1, K2. simpl. exact Hfuel.
  - destruct IH as (bs & fl & HInv & (Hl1 & Hl2) & Hf).
    destruct (Z.eq_dec size 0) as [-> | Hnz].
    + unfold mm_malloc in Hmalloc. simpl in Hmalloc. inversion Hmalloc; subst.
      exists bs, fl. simpl. split; [exact HInv|]. split; [split|]; assumption.
    + destruct (mm_malloc_spec fuel _ _ _ size HInv Hsize Hnz Hf)
        as [E | (st1 & bs' & fl' & q & t & E & HInv' & (K1 & K2 & K3)
                 & Hq & Ht & Hnew & Hup & _)];
        rewrite E in Hmalloc; [discriminate|]. inversion Hmalloc; subst.
      exists bs', fl'. split; [exact HInv'|]. split.
      * apply Z.eqb_neq in Hq. rewrite Hq. split.
        -- intros x sz [Hx | Hx].
           ++ inversion Hx; subst. exists t. split; [|exact Ht].
              apply Hup. left. reflexivity.
           ++ destruct (Hl1 _ _ Hx) as (t' & H1 & H2). exists t'.
              split; [|exact H2]. apply Hup. right. exact H1.
        -- intros a t' Ha. apply Hup in Ha. destruct Ha as [Ha | Ha].
           ++ inversion Ha; subst. exists size. left. f_equal. lia.
           ++ destruct (Hl2 _ _ Ha) as (sz & Hsz). exists sz. right. exact Hsz.
      * rewrite K1, K2. exact Hf.
  - destruct IH as (bs & fl & HInv & (Hl1 & Hl2) & Hf).
    destruct (Hl1 _ _ Hlive) as (s & Hp & _). apply In_used_blocks in Hp.
    destruct (Inv_fuel _ _ _ _ HInv Hf) as (F2 & _).
    destruct (mm_free_spec fuel _ _ _ _ _ HInv Hp F2)
      as (st1 & bs' & fl' & E & HInv' & (K1 & K2 & K3 & K4) & Hup).
    rewrite E in Hfree. inversion Hfree; subst.
    exists bs', fl'. split; [exact HInv'|]. split.
    + split.
      * intros x sz Hx. apply filter_In in Hx. destruct Hx as (Hx & Hne).
        simpl in Hne. apply negb_true_iff, Z.eqb_neq in Hne.
        destruct (Hl1 _ _ Hx) as (t & H1 & H2). exists t.
        split; [|exact H2]. apply Hup. split; [exact H1|]. simpl. lia.
      * intros a t Ha. apply Hup in Ha. destruct Ha as (Ha & Hne).
        simpl in Hne. destruct (Hl2 _ _ Ha) as (sz & Hsz). exists sz.
        apply filter_In. split; [exact Hsz|]. simpl.
        apply negb_true_iff, Z.eqb_neq. lia.
    + rewrite K1, K3. exact Hf.
  - destruct IH as (bs & fl & HInv & (Hl1 & Hl2) & Hf).
    destruct (Hl1 _ _ Hlive) as (t & Hp & Ht). apply In_used_blocks in Hp.
    exists bs, fl. split; [|split; [split; assumption|exact Hf]].
    apply (Inv_upd_payload _ _ _ _ _ _ _ HInv Hp). zlia.
Qed.

Lemma reachable_wf fuel st live : reachable fuel st live -> wf_heap st.
Proof.
  intros H. destruct (reachable_Inv _ _ _ H) as (bs & fl & HInv & _).
  exists bs, fl. exact HInv.
Qed.


(** * Requests that wrap around *)

(** When the page count of a request wraps to zero, the new block would
    lie on the end-of-heap word: linking it writes past the heap. *)
Lemma request_more_space_no_page fuel st bs fl req :
  Inv st bs fl ->
  wrap64 (req + pagesize st - 1) / pagesize st = 0 ->
  request_more_space fuel st req = Fault.
Proof.
  intros HInv Hzero.
  pose proof HInv as [Henv Hbrk Hch Htag Hend Hna Hfl Hnd Hfree].
  pose proof Henv as (E1 & E2 & E3 & E4 & E5 & E6).
  pose proof (chain_le _ _ _ Hch) as Hle.
  assert (Hal : (mem_brk st - WORD_SIZE) mod ALIGNMENT = 0).
  { assert (Hlo8 : (mem_start_brk st + WORD_SIZE) mod ALIGNMENT = 0) by zlia.
    apply (chain_aligned _ _ _ Hlo8 Hch). }
  unfold request_more_space, mem_pagesize. rewrite Hzero.
  change (wrap64 (0 * pagesize st)) with 0.
  unfold mem_sbrk.
  replace (mem_brk st + 0 >? mem_max_addr st) with false
    by (symmetry; rewrite Z.gtb_ltb; apply Z.ltb_ge; lia).
  replace (mem_brk st =? wrap64 (-1)) with false
    by (symmetry; apply Z.eqb_neq; rewrite wrap64_minus1; zlia).
  rewrite ptr_sub_small by zlia.
  unfold off_size_and_tags. rewrite !Z.add_0_r.
  rewrite load_ok by acc. cbn [bind].
  rewrite store_ok by acc. cbn [bind].
  change (wrap64 (0 - WORD_SIZE)) with (wrap64 (-8)).
  unfold UNSCALED_POINTER_ADD. rewrite to_int_wrap_neg by lia.
  change (to_int 0) with 0. rewrite !Z.add_0_r.
  rewrite store_ok by acc. cbn [bind].
  rewrite store_ok by acc. cbn [bind].
  unfold insert_free_block, get_FREE_LIST_HEAD, mem_heap_lo.
  rewrite load_ok by acc. cbn [bind].
  rewrite store_fault; [reflexivity|].
  unfold valid_access. simpl.
  replace (mem_brk st - WORD_SIZE + off_next + WORD_SIZE <=? mem_brk st + 0) with false
    by (symmetry; apply Z.leb_gt; zlia).
  rewrite andb_false_r. reflexivity.
Qed.

(** The request size of any [size_t] value is 0 (after a wrap) or a
    multiple of the alignment that is at least the minimum block size. *)
Lemma request_size_cases size :
  0 <= size < 2 ^ 64 ->
  request_size size = 0
  \/ (MIN_BLOCK_SIZE <= request_size size < 2 ^ 64
      /\ request_size size mod ALIGNMENT = 0).
Proof.
  intros Hs. unfold request_size.
  pose proof (wrap64_range (size + WORD_SIZE)) as Hr.
  set (size' := wrap64 (size + WORD_SIZE)) in *.
  destruct (Z.leb_spec size' MIN_BLOCK_SIZE) as [Hle | Hgt].
  - right. repeat split; zlia.
  - pose proof (wrap64_range (size' + ALIGNMENT - 1)) as Hx.
    set (x := wrap64 (size' + ALIGNMENT - 1)) in *.
    rewrite wrap64_small by zlia.
    destruct (Z.ltb_spec (size' + ALIGNMENT - 1) (2 ^ 64)) as [Hno | Hwrap].
    + right. assert (Ex : x = size' + ALIGNMENT - 1)
        by (unfold x; apply wrap64_small; zlia).
      repeat split; zlia.
    + left. assert (Ex : x = size' + ALIGNMENT - 1 - 2 ^ 64).
      { unfold x, wrap64. symmetry. apply Z.mod_unique with (q := 1); zlia. }
      zlia.
Qed.

Lemma no_page_cases req ps :
  0 < ps < 2 ^ 31 -> 0 <= req < 2 ^ 64 ->
  (req = 0 \/ 2 ^ 64 < req + ps) ->
  wrap64 (req + ps - 1) / ps = 0.
Proof.
  intros Hps Hreq Hcase. apply Z.div_small.
  destruct Hcase as [-> | Hbig].
  - rewrite wrap64_small by zlia. lia.
  - assert (E : wrap64 (req + ps - 1) = req + ps - 1 - 2 ^ 64).
    { unfold wrap64. symmetry. apply Z.mod_unique with (q := 1); zlia. }
    rewrite E. zlia.
Qed.

(** * Heaps with at most one used block *)

Lemma last_used_In bs : forall pu,
  last_used pu bs = true ->
  (bs = [] /\ pu = true) \/ exists y s, In (y, s, true) bs.
Proof.
  induction bs as [|[[y s] u] r IH]; intros pu H.
  - left. auto.
  - right. simpl in H. destruct (IH u H) as [(-> & ->) | (z & t & Hz)].
    + exists y, s. left. reflexivity.
    + exists z, t. right. exact Hz.
Qed.

Lemma no_member_nil {A} (l : list A) : (forall q, ~ In q l) -> l = [].
Proof.
  destruct l as [|q l]; [reflexivity|]. intros H. exfalso. apply (H q). left. reflexivity.
Qed.

(** A used block that follows a used block (or nothing) and is the only
    used block of the layout is the first block. *)
Lemma only_used_is_first bs1 x t bs2 a e :
  chain a (bs1 ++ (x, t, true) :: bs2) e ->
  (forall q, In q (used_blocks (bs1 ++ (x, t, true) :: bs2)) -> q = (x, t)) ->
  last_used true bs1 = true ->
  bs1 = [] /\ x = a.
Proof.
  intros Hch Hused Hlast.
  pose proof (chain_mid _ _ _ _ _ _ _ Hch) as (C1 & C2 & C3 & C4).
  destruct (last_used_In _ _ Hlast) as [(-> & _) | (y & s & Hy)].
  - simpl in C1. auto.
  - exfalso. pose proof (chain_In _ _ _ _ _ _ C1 Hy) as (I1 & I2 & I3 & I4).
    assert (Hq : (y, s) = (x, t)).
    { apply Hused, In_used_blocks, in_or_app. left. exact Hy. }
    inversion Hq; subst. zlia.
Qed.

(** A layout whose only used block is its first block has at most one
    more block, a free one. *)
Lemma single_used_layout bs a t e :
  chain a bs e -> no_adjacent true bs ->
  (forall q, In q (used_blocks bs) <-> q = (a, t)) ->
  bs = (a, t, true)
       :: (if a + t =? e then [] else [(a + t, e - (a + t), false)]).
Proof.
  intros Hch Hna Hused.
  assert (Hin : In (a, t, true) bs) by (apply In_used_blocks, Hused; reflexivity).
  destruct bs as [|[[x s] u] r]; [contradiction|].
  pose proof Hch as Hch0. simpl in Hch. destruct Hch as (-> & C2 & C3 & C4).
  destruct (chain_same_addr _ _ _ _ _ _ _ _ Hch0 Hin (or_introl eq_refl)) as (<- & <-).
  f_equal.
  assert (Hfree : forall y n v, In (y, n, v) r -> v = false).
  { intros y n [|] Hy; [|reflexivity]. exfalso.
    pose proof (chain_In _ _ _ _ _ _ C4 Hy) as (I1 & _).
    assert (Hq : (y, n) = (a, t)).
    { apply Hused, In_used_blocks. right. exact Hy. }
    inversion Hq; subst. zlia. }
  simpl in Hna. destruct Hna as (_ & Hna).
  destruct r as [|[[y n] v] r].
  - simpl in C4. apply Z.eqb_eq in C4. rewrite C4. reflexivity.
  - pose proof (Hfree y n v (or_introl eq_refl)) as ->.
    simpl in C4. destruct C4 as (-> & D2 & D3 & D4).
    pose proof (chain_le _ _ _ D4) as Hle.
    replace (a + t =? e) with false by (symmetry; apply Z.eqb_neq; zlia).
    destruct r as [|[[z k] w] r].
    + simpl in D4. f_equal. f_equal. f_equal. lia.
    + exfalso. pose proof (Hfree z k w (or_intror (or_introl eq_refl))) as ->.
      simpl in Hna. destruct Hna as (_ & [Hw | Hw] & _); discriminate.
Qed.

Lemma NoDup_members_one (l : list Z) x :
  NoDup l -> (forall b, In b l <-> b = x) -> l = [x].
Proof.
  intros Hnd H. destruct l as [|y l].
  - exfalso. apply (proj2 (H x) eq_refl).
  - pose proof (proj1 (H y) (or_introl eq_refl)) as ->. f_equal.
    destruct l as [|z l]; [reflexivity|]. exfalso.
    pose proof (proj1 (H z) (or_intror (or_introl eq_refl))) as ->.
    inversion Hnd as [|? ? Hnin _]. apply Hnin. left. reflexivity.
Qed.

(** The free list of a heap with a single used block, the first. *)
Lemma single_used_Inv st bs fl t :
  Inv st bs fl ->
  (forall q, In q (used_blocks bs) <-> q = (mem_start_brk st + WORD_SIZE, t)) ->
  let a := mem_start_brk st + WORD_SIZE in
  let e := mem_brk st - WORD_SIZE in
  bs = (a, t, true) :: (if a + t =? e then [] else [(a + t, e - (a + t), false)])
  /\ fl = (if a + t =? e then [] else [a + t]).
Proof.
  intros HInv Hused a e.
  pose proof (single_used_layout _ _ _ _ (inv_chain _ _ _ HInv)
                (inv_noadj _ _ _ HInv) Hused) as Hbs.
  fold a e in Hbs. split; [exact Hbs|].
  pose proof (inv_free _ _ _ HInv) as Hfree. rewrite Hbs in Hfree.
  destruct (a + t =? e).
  - apply no_member_nil. intros b Hb. apply Hfree in Hb. exact Hb.
  - apply NoDup_members_one; [exact (inv_nodup _ _ _ HInv)|].
    intros b. rewrite Hfree. simpl. intuition.
Qed.

(** On a heap without used blocks, [mm_malloc] returns the payload of
    the first block of the heap. *)
Lemma malloc_first fuel st bs fl size :
  Inv st bs fl -> used_blocks bs = [] ->
  valid_size size -> size <> 0 ->
  mem_max_addr st - mem_start_brk st <= Z.of_nat fuel ->
  mm_malloc fuel st size = Exit 0
  \/ exists st' bs' fl' t,
       mm_malloc fuel st size = Ok (st', mem_start_brk st + 2 * WORD_SIZE)
       /\ Inv st' bs' fl' /\ same_consts st st'
       /\ size + WORD_SIZE <= t
       /\ (forall q, In q (used_blocks bs')
                     <-> q = (mem_start_brk st + WORD_SIZE, t)).
Proof.
  intros HInv Hnone Hsize Hnz Hfuel.
  destruct (mm_malloc_spec fuel _ _ _ size HInv Hsize Hnz Hfuel)
    as [E | (st' & bs' & fl' & p & t & E & HInv' & Hc & Hp & Ht & Hnew & Hup
             & bs1 & bs2 & Ebs & Hlast)]; [left; exact E|].
  right. rewrite Hnone in Hup.
  assert (Hfirst : bs1 = [] /\ p - WORD_SIZE = mem_start_brk st' + WORD_SIZE).
  { apply (only_used_is_first bs1 _ t bs2 _ (mem_brk st' - WORD_SIZE)).
    - rewrite <- Ebs. exact (inv_chain _ _ _ HInv').
    - rewrite <- Ebs. intros q Hq. apply Hup in Hq. destruct Hq as [Hq | []]. exact Hq.
    - exact Hlast. }
  destruct Hfirst as (_ & Ep). destruct Hc as (K1 & K2 & K3). rewrite K1 in Ep.
  exists st', bs', fl', t.
  replace (mem_start_brk st + 2 * WORD_SIZE) with p by lia.
  split; [exact E|]. split; [exact HInv'|]. split; [repeat split; assumption|].
  split; [exact Ht|].
  intros q. rewrite Hup, <- Ep. simpl. tauto.
Qed.

(** * The observable state of a well-formed heap *)

(** The links of the blocks of a list are fixed by the list. *)
Lemma flist_links m m' l : forall p h h',
  flist m p h l -> flist m' p h' l ->
  Forall (fun b => m (b + off_next) = m' (b + off_next)
                   /\ m (b + off_prev) = m' (b + off_prev)) l.
Proof.
  induction l as [|b l IH]; intros p h h' H H'; [constructor|].
  simpl in H, H'.
  destruct H as (_ & _ & Hp & Hr). destruct H' as (_ & _ & Hp' & Hr').
  constructor.
  - split; [|congruence].
    rewrite (flist_hd _ _ _ _ Hr), (flist_hd _ _ _ _ Hr'). reflexivity.
  - exact (IH _ _ _ Hr Hr').
Qed.

Lemma rows_of_links m m' bs : forall pu,
  (forall a s, In (a, s, false) bs ->
     m (a + off_next) = m' (a + off_next) /\ m (a + off_prev) = m' (a + off_prev)) ->
  rows_of m pu bs = rows_of m' pu bs.
Proof.
  induction bs as [|[[a s] u] r IH]; intros pu H; [reflexivity|].
  cbn [rows_of]. f_equal.
  - destruct u; [reflexivity|].
    destruct (H a s (or_introl eq_refl)) as (-> & ->). reflexivity.
  - apply IH. intros x t Hx. apply (H x t). right. exact Hx.
Qed.

(** The footers of the free blocks are fixed by the layout. *)
Lemma footers_tagged st st' m bs : forall pu,
  tagged (mem st) pu bs -> tagged (mem st') pu bs ->
  footers st (rows_of m pu bs) = footers st' (rows_of m pu bs).
Proof.
  unfold footers.
  induction bs as [|[[a s] u] r IH]; intros pu H H'; [reflexivity|].
  cbn [tagged] in H, H'. destruct H as (_ & Hf & Hr). destruct H' as (_ & Hf' & Hr').
  cbn [rows_of filter row_used]. destruct u.
  - change (TAG_USED =? 0) with false. cbv iota. exact (IH _ Hr Hr').
  - change (0 =? 0) with true. cbv iota. cbn [map row_block row_size].
    rewrite (Hf eq_refl), (Hf' eq_refl). f_equal. exact (IH _ Hr Hr').
Qed.

(** Two heaps with the same bounds, layout and free list have the same
    observable state. *)
Lemma heap_view_determined fuel st st' bs fl :
  Inv st bs fl -> Inv st' bs fl -> same_sim st st' ->
  mem_max_addr st - mem_start_brk st <= Z.of_nat fuel ->
  exists v, heap_view fuel st = Ok v /\ heap_view fuel st' = Ok v.
Proof.
  intros HInv HInv' (K1 & K2 & K3 & K4) Hfuel.
  assert (Hfuel' : mem_max_addr st' - mem_start_brk st' <= Z.of_nat fuel)
    by (rewrite K1, K3; exact Hfuel).
  destruct (Inv_fuel _ _ _ _ HInv Hfuel) as (_ & Ffl & Fbs).
  assert (Hview : forall s, Inv s bs fl ->
            heap_view fuel s
            = Ok (mkView (mem_heap_lo s) (mem_heap_hi s) (hd NULL fl)
                    (rows_of (mem s) true bs)
                    (footers s (rows_of (mem s) true bs))
                    (tagword 0 (last_used true bs) true) fl)).
  { intros s Hs. unfold heap_view.
    rewrite (examine_heap_spec _ _ _ _ Hs Fbs). cbn [bind]. cbv beta iota.
    rewrite (free_list_spec _ _ _ (Inv_FL _ _ _ Hs) Ffl). cbn [bind].
    pose proof Hs as [Henv Hbrk Hch _ Hend _ _ _ _].
    pose proof Henv as (E1 & E2 & E3 & E4 & E5 & E6).
    pose proof (chain_le _ _ _ Hch) as Hle.
    assert (Hal : (mem_brk s - WORD_SIZE) mod ALIGNMENT = 0).
    { assert (Hlo8 : (mem_start_brk s + WORD_SIZE) mod ALIGNMENT = 0) by zlia.
      apply (chain_aligned _ _ _ Hlo8 Hch). }
    change (wrap64 (WORD_SIZE - 1)) with 7.
    rewrite ptr_sub_small by zlia. unfold mem_heap_hi.
    replace (mem_brk s - 1 - 7) with (mem_brk s - WORD_SIZE) by zlia.
    rewrite load_ok by (apply valid_access_intro; zlia).
    cbn [bind]. rewrite Hend. reflexivity. }
  rewrite (Hview st HInv), (Hview st' HInv').
  eexists. split; [reflexivity|].
  unfold mem_heap_lo, mem_heap_hi. rewrite K1, K2. f_equal.
  assert (Hrows : rows_of (mem st') true bs = rows_of (mem st) true bs).
  { apply rows_of_links. intros a s Ha.
    pose proof (flist_links _ _ _ _ _ _ (inv_flist _ _ _ HInv') (inv_flist _ _ _ HInv))
      as Hl.
    rewrite Forall_forall in Hl. apply Hl.
    apply (inv_free _ _ _ HInv), In_free_blocks. exists s. exact Ha. }
  rewrite Hrows. f_equal.
  apply footers_tagged; [exact (inv_tagged _ _ _ HInv') | exact (inv_tagged _ _ _ HInv)].
Qed.

(** * The scenarios *)

(** Freeing two of three used blocks leaves the third. *)
Lemma free_two fuel st bs fl p q tp tq a ta :
  Inv st bs fl ->
  mem_max_addr st - mem_start_brk st <= Z.of_nat fuel ->
  (forall z, In z (used_blocks bs)
             <-> z = (p - WORD_SIZE, tp) \/ z = (q - WORD_SIZE, tq) \/ z = (a, ta)) ->
  p - WORD_SIZE <> q - WORD_SIZE -> p - WORD_SIZE <> a -> q - WORD_SIZE <> a ->
  exists st1 st2 bs2 fl2,
    mm_free fuel st p = Ok st1 /\ mm_free fuel st1 q = Ok st2
    /\ Inv st2 bs2 fl2 /\ same_sim st st2
    /\ (forall z, In z (used_blocks bs2) <-> z = (a, ta)).
Proof.
  intros HInv Hfuel Hused Hpq Hpa Hqa.
  destruct (Inv_fuel _ _ _ _ HInv Hfuel) as (F2 & _).
  assert (Hp : In (p - WORD_SIZE, tp, true) bs).
  { apply In_used_blocks, Hused. left. reflexivity. }
  destruct (mm_free_spec fuel _ _ _ _ _ HInv Hp F2)
    as (st1 & bs1 & fl1 & E1 & HInv1 & Hsim1 & Hu1).
  assert (Hq : In (q - WORD_SIZE, tq, true) bs1).
  { apply In_used_blocks, Hu1. split.
    - apply Hused. right. left. reflexivity.
    - simpl. congruence. }
  destruct (mm_free_spec fuel _ _ _ _ _ HInv1 Hq F2)
    as (st2 & bs2 & fl2 & E2 & HInv2 & Hsim2 & Hu2).
  exists st1, st2, bs2, fl2.
  split; [exact E1|]. split; [exact E2|]. split; [exact HInv2|].
  split; [exact (same_sim_trans _ _ _ Hsim1 Hsim2)|].
  intros z. rewrite Hu2, Hu1, Hused. split.
  - intros (([-> | [-> | ->]] & H1) & H2); simpl in H1, H2; congruence.
  - intros ->. simpl. split; [split|]; auto.
Qed.

(** The set-up of scenarios S3 and S4: the simulator runs out of memory,
    or three blocks are used, the first of them at the start of the
    heap. *)
Lemma three_blocks_spec fuel m lo max ps :
  env_ok (mem_init m lo max ps) ->
  max - lo <= Z.of_nat fuel ->
  (exists status, three_blocks fuel (mem_init m lo max ps) = Exit status)
  \/ exists st bs fl b c ta tb tc,
       three_blocks fuel (mem_init m lo max ps)
       = Ok (st, lo + 2 * WORD_SIZE, b, c)
       /\ Inv st bs fl
       /\ mem_start_brk st = lo /\ mem_max_addr st = max
       /\ b - WORD_SIZE <> c - WORD_SIZE
       /\ b - WORD_SIZE <> lo + WORD_SIZE
       /\ c - WORD_SIZE <> lo + WORD_SIZE
       /\ (forall z, In z (used_blocks bs)
                     <-> z = (b - WORD_SIZE, tb) \/ z = (c - WORD_SIZE, tc)
                         \/ z = (lo + WORD_SIZE, ta)).
Proof.
  intros Henv Hfuel. unfold three_blocks.
  assert (Hsize : valid_size 64) by (unfold valid_size; lia).
  assert (Hnz : 64 <> 0) by discriminate.
  destruct (mm_init_spec m lo max ps Henv) as [E0 | (st0 & E0 & HInv0 & A1 & A2 & A3)];
    rewrite E0; cbn [bind]; cbv beta iota; [left; eexists; reflexivity|].
  simpl in A1, A2.
  assert (F0 : mem_max_addr st0 - mem_start_brk st0 <= Z.of_nat fuel)
    by (rewrite A1, A2; exact Hfuel).
  destruct (malloc_first fuel _ _ _ 64 HInv0 eq_refl Hsize Hnz F0)
    as [E1 | (st1 & bs1 & fl1 & ta & E1 & HInv1 & (B1 & B2 & B3) & _ & Hu1)];
    rewrite E1; cbn [bind]; cbv beta iota; [left; eexists; reflexivity|].
  rewrite A1 in Hu1.
  assert (F1 : mem_max_addr st1 - mem_start_brk st1 <= Z.of_nat fuel)
    by (rewrite B1, B2; exact F0).
  destruct (mm_malloc_spec fuel _ _ _ 64 HInv1 Hsize Hnz F1)
    as [E2 | (st2 & bs2 & fl2 & b & tb & E2 & HInv2 & (C1 & C2 & C3) & _ & _
              & Hn2 & Hu2 & _)];
    rewrite E2; cbn [bind]; cbv beta iota; [left; eexists; reflexivity|].
  assert (F2 : mem_max_addr st2 - mem_start_brk st2 <= Z.of_nat fuel)
    by (rewrite C1, C2; exact F1).
  destruct (mm_malloc_spec fuel _ _ _ 64 HInv2 Hsize Hnz F2)
    as [E3 | (st3 & bs3 & fl3 & c & tc & E3 & HInv3 & (D1 & D2 & D3) & _ & _
              & Hn3 & Hu3 & _)];
    rewrite E3; cbn [bind]; cbv beta iota; [left; eexists; reflexivity|].
  right. exists st3, bs3, fl3, b, c, ta, tb, tc.
  rewrite A1. split; [reflexivity|]. split; [exact HInv3|].
  split; [congruence|]. split; [congruence|].
  assert (Hb : b - WORD_SIZE <> lo + WORD_SIZE).
  { intros Hb. apply (Hn2 ta). apply Hu1. rewrite Hb. reflexivity. }
  assert (Hcb : b - WORD_SIZE <> c - WORD_SIZE).
  { intros Hcb. apply (Hn3 tb). apply Hu2. left. rewrite Hcb. reflexivity. }
  assert (Hc : c - WORD_SIZE <> lo + WORD_SIZE).
  { intros Hc. apply (Hn3 ta). apply Hu2. right. apply Hu1. rewrite Hc. reflexivity. }
  split; [exact Hcb|]. split; [exact Hb|]. split; [exact Hc|].
  intros z. rewrite Hu3, Hu2, Hu1. tauto.
Qed.

(** * The claims of the specification *)

Lemma ex_env_ok m : env_ok (ex_sim m).
Proof. unfold env_ok. simpl. repeat split; reflexivity. Qed.

Lemma ex_init_reachable : reachable ex_fuel ex_init [].
Proof.
  apply (reach_init ex_fuel (fun _ => 0) ex_lo ex_max ex_pagesize ex_init 0).
  - apply ex_env_ok.
  - vm_compute. discriminate.
  - vm_compute. reflexivity.
Qed.

Lemma ex_full_reachable : reachable ex_fuel ex_full [(65552, 16)].
Proof.
  apply (reach_malloc ex_fuel ex_init [] 16 ex_full 65552).
  - apply ex_init_reachable.
  - unfold valid_size. lia.
  - vm_compute. reflexivity.
Qed.



(** C2 (scenario S6), as stated: the pointer returned last equals [b].
    On the concrete simulator it does not: the sequence returns
    [a = 65552], [b = 65584] and [c = 65552]. *)
Lemma lifo_scenario_not_second_block :
  exists a b c,
    lifo_scenario ex_fuel (ex_sim (fun _ => 0)) = Ok (a, b, c) /\ c <> b.
Proof.
  exists 65552, 65584, 65552. split.
  - vm_compute. reflexivity.
  - discriminate.
Qed.

(** C2, amended: [a] and [b] are neighbours in memory, so freeing both
    coalesces them (and the free rest of the heap) into one block that
    starts where [a]'s block started; the next allocation returns [a].
    On every simulator, over every initial memory: the sequence stops
    because the simulator is out of memory, or it returns [c = a] and
    [a <> b]. *)
Theorem lifo_scenario_returns_first_block fuel m lo max ps :
  env_ok (mem_init m lo max ps) ->
  max - lo <= Z.of_nat fuel ->
  (exists status, lifo_scenario fuel (mem_init m lo max ps) = Exit status)
  \/ exists a b c,
       lifo_scenario fuel (mem_init m lo max ps) = Ok (a, b, c)
       /\ c = a /\ a <> b.
Proof.
  intros Henv Hfuel. unfold lifo_scenario.
  assert (Hsize : valid_size 16) by (unfold valid_size; lia).
  assert (Hnz : 16 <> 0) by discriminate.
  destruct (mm_init_spec m lo max ps Henv) as [E0 | (st0 & E0 & HInv0 & A1 & A2 & A3)];
    rewrite E0; cbn [bind]; cbv beta iota; [left; eexists; reflexivity|].
  simpl in A1, A2.
  assert (F0 : mem_max_addr st0 - mem_start_brk st0 <= Z.of_nat fuel)
    by (rewrite A1, A2; exact Hfuel).
  destruct (malloc_first fuel _ _ _ 16 HInv0 eq_refl Hsize Hnz F0)
    as [E1 | (st1 & bs1 & fl1 & ta & E1 & HInv1 & (B1 & B2 & B3) & _ & Hu1)];
    rewrite E1; cbn [bind]; cbv beta iota; [left; eexists; reflexivity|].
  rewrite A1 in Hu1 |- *.
  assert (F1 : mem_max_addr st1 - mem_start_brk st1 <= Z.of_nat fuel)
    by (rewrite B1, B2; exact F0).
  destruct (mm_malloc_spec fuel _ _ _ 16 HInv1 Hsize Hnz F1)
    as [E2 | (st2 & bs2 & fl2 & b & tb & E2 & HInv2 & (C1 & C2 & C3) & _ & _
              & Hn2 & Hu2 & _)];
    rewrite E2; cbn [bind]; cbv beta iota; [left; eexists; reflexivity|].
  assert (F2 : mem_max_addr st2 - mem_start_brk st2 <= Z.of_nat fuel)
    by (rewrite C1, C2; exact F1).
  assert (Hb : b - WORD_SIZE <> lo + WORD_SIZE).
  { intros Hb. apply (Hn2 ta). apply Hu1. rewrite Hb. reflexivity. }
  destruct (Inv_fuel _ _ _ _ HInv2 F2) as (G2 & _).
  assert (Ha : In (lo + 2 * WORD_SIZE - WORD_SIZE, ta, true) bs2).
  { apply In_used_blocks, Hu2. right. apply Hu1. f_equal. lia. }
  destruct (mm_free_spec fuel _ _ _ _ _ HInv2 Ha G2)
    as (st3 & bs3 & fl3 & E3 & HInv3 & Hsim3 & Hu3).
  rewrite E3. cbn [bind].
  assert (Hb3 : In (b - WORD_SIZE, tb, true) bs3).
  { apply In_used_blocks, Hu3. split.
    - apply Hu2. left. reflexivity.
    - cbn [fst]. lia. }
  destruct (mm_free_spec fuel _ _ _ _ _ HInv3 Hb3 G2)
    as (st4 & bs4 & fl4 & E4 & HInv4 & Hsim4 & Hu4).
  rewrite E4. cbn [bind].
  assert (Hnone : used_blocks bs4 = []).
  { apply no_member_nil. intros q Hq.
    apply Hu4 in Hq. destruct Hq as (Hq & N4).
    apply Hu3 in Hq. destruct Hq as (Hq & N3).
    apply Hu2 in Hq. destruct Hq as [-> | Hq]; [apply N4; reflexivity|].
    apply Hu1 in Hq. subst q. apply N3. cbn [fst]. lia. }
  destruct (same_sim_trans _ _ _ Hsim3 Hsim4) as (S1 & _ & S3 & _).
  assert (F4 : mem_max_addr st4 - mem_start_brk st4 <= Z.of_nat fuel)
    by (rewrite S1, S3; exact F2).
  destruct (malloc_first fuel _ _ _ 16 HInv4 Hnone Hsize Hnz F4)
    as [E5 | (st5 & bs5 & fl5 & tc & E5 & _)];
    rewrite E5; cbn [bind]; cbv beta iota; [left; eexists; reflexivity|].
  right. exists (lo + 2 * WORD_SIZE), b, (mem_start_brk st4 + 2 * WORD_SIZE).
  split; [reflexivity|]. split; [|lia].
  rewrite S1, C1, B1, A1. reflexivity.
Qed.

Lemma lifo_scenario_returns_first_block_witness :
  env_ok (mem_init (fun _ => 0) ex_lo ex_max ex_pagesize)
  /\ ex_max - ex_lo <= Z.of_nat ex_fuel
  /\ ((exists status,
         lifo_scenario ex_fuel (mem_init (fun _ => 0) ex_lo ex_max ex_pagesize)
         = Exit status)
      \/ exists a b c,
           lifo_scenario ex_fuel (mem_init (fun _ => 0) ex_lo ex_max ex_pagesize)
           = Ok (a, b, c)
           /\ c = a /\ a <> b).
Proof.
  assert (H1 : env_ok (mem_init (fun _ => 0) ex_lo ex_max ex_pagesize))
    by (apply (ex_env_ok (fun _ => 0))).
  assert (H2 : ex_max - ex_lo <= Z.of_nat ex_fuel) by (vm_compute; discriminate).
  split; [exact H1|]. split; [exact H2|].
  exact (lifo_scenario_returns_first_block ex_fuel (fun _ => 0) ex_lo ex_max
           ex_pagesize H1 H2).
Defined.

(** C3, as stated: [mm_check] returns nonzero whenever an invariant is
    violated.  It returns 0 on a heap whose end-of-heap word has lost
    its [TAG_USED] (I6), which no layout can explain. *)
Lemma mm_check_misses_violation :
  Z.land (mem ex_bad (mem_brk ex_bad - WORD_SIZE)) TAG_USED = 0
  /\ ~ wf_heap ex_bad
  /\ mm_check ex_bad = 0.
Proof.
  split; [vm_compute; reflexivity|]. split; [|reflexivity].
  intros (bs & fl & HInv). pose proof (inv_end _ _ _ HInv) as Hend.
  change (mem ex_bad (mem_brk ex_bad - WORD_SIZE)) with 0 in Hend.
  unfold tagword in Hend. destruct (last_used true bs); discriminate.
Qed.

(** C3, amended: [mm_check] is a stub; it returns 0 on every heap. *)
Theorem mm_check_always_zero (st : heap) : mm_check st = 0.
Proof. reflexivity. Qed.

(** C4 (the second scan succeeds).  For every request of a non-zero
    [size_t] size: when the first scan of the free list finds nothing
    and [request_more_space] returns, the second scan returns a block
    that is not null and whose header is a word of the heap. *)
Theorem second_scan_finds_block fuel st live size st' :
  reachable fuel st live ->
  0 < size < 2 ^ 64 ->
  search_free_list fuel st (request_size size) = Ok NULL ->
  request_more_space fuel st (request_size size) = Ok st' ->
  exists p,
    search_free_list fuel st' (request_size size) = Ok p
    /\ p <> NULL /\ valid_access st' p = true.
Proof.
  intros Hreach Hsize _ Hgrow.
  destruct (reachable_Inv _ _ _ Hreach) as (bs & fl & HInv & _ & Hf).
  destruct (Inv_fuel _ _ _ _ HInv Hf) as (F2 & _).
  pose proof (inv_env _ _ _ HInv) as (E1 & E2 & E3 & E4 & E5 & E6).
  set (req := request_size size) in *.
  assert (Hcases : (MIN_BLOCK_SIZE <= req /\ req + pagesize st <= 2 ^ 64)
                   \/ wrap64 (req + pagesize st - 1) / pagesize st = 0).
  { destruct (request_size_cases size ltac:(lia)) as [Hz | (R1 & R2)]; fold req in Hz || fold req in R1.
    - right. apply no_page_cases; auto; lia.
    - destruct (Z.leb_spec (req + pagesize st) (2 ^ 64)).
      + left. lia.
      + right. apply no_page_cases; auto; lia. }
  destruct Hcases as [(R1 & R2) | Hzero].
  2:{ rewrite (request_more_space_no_page _ _ _ _ _ HInv Hzero) in Hgrow. discriminate. }
  destruct (request_more_space_spec fuel _ _ _ req HInv R1 R2 F2)
    as [E | (st1 & bs1 & fl1 & c & n & E & HInv1 & (K1 & K2 & K3) & Hhd & Hin & Hle & _)];
    rewrite E in Hgrow; [discriminate|]. inversion Hgrow; subst st1.
  pose proof (Inv_FL _ _ _ HInv1) as HFL1.
  assert (Hfuel1 : mem_max_addr st' - mem_start_brk st' <= Z.of_nat fuel)
    by (rewrite K1, K2; exact Hf).
  destruct (Inv_fuel _ _ _ _ HInv1 Hfuel1) as (_ & Ffl1 & _).
  pose proof (chain_In _ _ _ _ _ _ (inv_chain _ _ _ HInv1) Hin) as (I1 & I2 & I3 & I4).
  pose proof (inv_brk _ _ _ HInv1) as Hbrk1.
  pose proof (block_node_ok _ _ _ _ _ ltac:(rewrite K1; exact E2) (inv_chain _ _ _ HInv1) Hin)
    as (N1 & N2 & N3).
  exists c. split; [|split].
  - rewrite (search_free_list_spec _ _ req _ HFL1 Ffl1). f_equal.
    assert (Hcin : In c fl1).
    { apply (inv_free _ _ _ HInv1), In_free_blocks. eauto. }
    destruct fl1 as [|c' fl1]; [contradiction|]. simpl in Hhd. subst c'.
    apply first_fit_hd.
    rewrite (proj1 (tagged_free _ _ _ _ _ (inv_tagged _ _ _ HInv1)
                      (inv_noadj _ _ _ HInv1) Hin)).
    rewrite SIZE_tagword by zlia. lia.
  - zlia.
  - apply valid_access_intro; zlia.
Qed.

Lemma second_scan_finds_block_witness :
  reachable ex_fuel ex_full [(65552, 16)]
  /\ 0 < 16 < 2 ^ 64
  /\ search_free_list ex_fuel ex_full (request_size 16) = Ok NULL
  /\ request_more_space ex_fuel ex_full (request_size 16) = Ok ex_grown
  /\ exists p,
       search_free_list ex_fuel ex_grown (request_size 16) = Ok p
       /\ p <> NULL /\ valid_access ex_grown p = true.
Proof.
  assert (H1 : 0 < 16 < 2 ^ 64) by (split; reflexivity).
  assert (H2 : search_free_list ex_fuel ex_full (request_size 16) = Ok NULL)
    by (vm_compute; reflexivity).
  assert (H3 : request_more_space ex_fuel ex_full (request_size 16) = Ok ex_grown)
    by (vm_compute; reflexivity).
  split; [exact ex_full_reachable|]. split; [exact H1|].
  split; [exact H2|]. split; [exact H3|].
  exact (second_scan_finds_block ex_fuel ex_full [(65552, 16)] 16 ex_grown
           ex_full_reachable H1 H2 H3).
Defined.

(** The set-up of scenarios S3 and S4 returns on the concrete
    simulator. *)
Lemma ex_three_blocks_return m :
  exists st, three_blocks ex_fuel (ex_sim m) = Ok (st, 65552, 65624, 65696).
Proof. eexists. vm_compute. reflexivity. Qed.

(** C5 (scenarios S3 and S4).  On every simulator, over every initial
    memory: unless the simulator runs out of memory during [init] and
    the three allocations of 64 bytes, freeing [c] then [b] and freeing
    [b] then [c] both return, and end in the same observable heap
    state: the same bounds, block layout, tags, list pointers, footers,
    end-of-heap word and free list. *)
Theorem coalesce_order_irrelevant fuel m lo max ps :
  env_ok (mem_init m lo max ps) ->
  max - lo <= Z.of_nat fuel ->
  (exists status, three_blocks fuel (mem_init m lo max ps) = Exit status)
  \/ exists v,
       free_b_then_c fuel (mem_init m lo max ps) = Ok v
       /\ free_c_then_b fuel (mem_init m lo max ps) = Ok v.
Proof.
  intros Henv Hfuel.
  destruct (three_blocks_spec fuel m lo max ps Henv Hfuel)
    as [Hexit | (st & bs & fl & b & c & ta & tb & tc & E & HInv & L1 & L2
                 & Hbc & Hb & Hc & Hused)]; [left; exact Hexit|].
  right. unfold free_b_then_c, free_c_then_b. rewrite E. cbn [bind]. cbv beta iota.
  assert (F : mem_max_addr st - mem_start_brk st <= Z.of_nat fuel)
    by (rewrite L1, L2; exact Hfuel).
  destruct (free_two fuel st bs fl b c tb tc (lo + WORD_SIZE) ta HInv F Hused
              Hbc Hb Hc)
    as (s1 & s2 & bs2 & fl2 & E1 & E2 & HInv2 & Hsim2 & Hu2).
  assert (Hused' : forall z, In z (used_blocks bs)
            <-> z = (c - WORD_SIZE, tc) \/ z = (b - WORD_SIZE, tb)
                \/ z = (lo + WORD_SIZE, ta)).
  { intros z. rewrite Hused. tauto. }
  destruct (free_two fuel st bs fl c b tc tb (lo + WORD_SIZE) ta HInv F Hused'
              (not_eq_sym Hbc) Hc Hb)
    as (r1 & r2 & bs2' & fl2' & E1' & E2' & HInv2' & Hsim2' & Hu2').
  rewrite E1, E1'. cbn [bind]. rewrite E2, E2'. cbn [bind].
  destruct Hsim2 as (S1 & S2 & S3 & S4). destruct Hsim2' as (R1 & R2 & R3 & R4).
  rewrite <- L1, <- S1 in Hu2. rewrite <- L1, <- R1 in Hu2'.
  pose proof (single_used_Inv _ _ _ _ HInv2 Hu2) as Hs. cbv zeta in Hs.
  pose proof (single_used_Inv _ _ _ _ HInv2' Hu2') as Hr. cbv zeta in Hr.
  rewrite S1, S2 in Hs. rewrite R1, R2 in Hr.
  destruct Hs as (Ebs & Efl). destruct Hr as (Ebs' & Efl').
  rewrite <- Ebs in Ebs'. rewrite <- Efl in Efl'. subst bs2' fl2'.
  apply (heap_view_determined fuel s2 r2 bs2 fl2 HInv2 HInv2').
  - unfold same_sim. repeat split; congruence.
  - rewrite S1, S3. exact F.
Qed.

Lemma coalesce_order_irrelevant_witness :
  env_ok (mem_init (fun _ => 0) ex_lo ex_max ex_pagesize)
  /\ ex_max - ex_lo <= Z.of_nat ex_fuel
  /\ ((exists status,
         three_blocks ex_fuel (mem_init (fun _ => 0) ex_lo ex_max ex_pagesize)
         = Exit status)
      \/ exists v,
           free_b_then_c ex_fuel (mem_init (fun _ => 0) ex_lo ex_max ex_pagesize)
           = Ok v
           /\ free_c_then_b ex_fuel (mem_init (fun _ => 0) ex_lo ex_max ex_pagesize)
              = Ok v).
Proof.
  assert (H1 : env_ok (mem_init (fun _ => 0) ex_lo ex_max ex_pagesize))
    by (apply (ex_env_ok (fun _ => 0))).
  assert (H2 : ex_max - ex_lo <= Z.of_nat ex_fuel) by (vm_compute; discriminate).
  split; [exact H1|]. split; [exact H2|].
  exact (coalesce_order_irrelevant ex_fuel (fun _ => 0) ex_lo ex_max ex_pagesize
           H1 H2).
Defined.

(** C6 (P5).  After every call of a valid sequence of calls, the sizes
    of the blocks found by the walk over the heap, with the head slot
    and the end-of-heap word, add up to the size of the heap. *)
Theorem heap_exactly_partitioned fuel st live :
  reachable fuel st live ->
  exists head rows,
    examine_heap fuel st = Ok (head, rows)
    /\ total_size rows + 2 * WORD_SIZE = mem_heap_hi st - mem_heap_lo st + 1.
Proof.
  intros Hreach.
  destruct (reachable_Inv _ _ _ Hreach) as (bs & fl & HInv & _ & Hf).
  destruct (Inv_fuel _ _ _ _ HInv Hf) as (_ & _ & Hbs).
  exists (hd NULL fl), (rows_of (mem st) true bs). split.
  - apply examine_heap_spec; assumption.
  - rewrite (total_size_rows _ _ _ _ _ (inv_chain _ _ _ HInv)).
    unfold mem_heap_hi, mem_heap_lo. zlia.
Qed.

Lemma heap_exactly_partitioned_witness :
  reachable ex_fuel ex_full [(65552, 16)]
  /\ exists head rows,
       examine_heap ex_fuel ex_full = Ok (head, rows)
       /\ total_size rows + 2 * WORD_SIZE
          = mem_heap_hi ex_full - mem_heap_lo ex_full + 1.
Proof.
  split; [exact ex_full_reachable|].
  exact (heap_exactly_partitioned ex_fuel ex_full [(65552, 16)] ex_full_reachable).
Defined.

(** C7 (B3, the split threshold).  On a well-formed heap, let the scan
    for the request size [req] select the free block [c] of [full]
    bytes.  Then [full >= req] and the rest of [mm_malloc] returns the
    payload of [c]; when [full - req >= MIN_BLOCK_SIZE] the block is
    split into a used block of [req] bytes and a free block of
    [full - req] bytes with a footer, which becomes the head of the free
    list; when [full - req < MIN_BLOCK_SIZE] the block keeps its size,
    is used, and the word behind it gets [TAG_PRECEDING_USED]. *)
Theorem split_threshold fuel st size c :
  wf_heap st ->
  mem_max_addr st - mem_start_brk st <= Z.of_nat fuel ->
  valid_size size -> size <> 0 ->
  search_free_list fuel st (request_size size) = Ok c ->
  c <> NULL ->
  let req := request_size size in
  let full := SIZE (mem st c) in
  exists st',
    place_block st c req = Ok (st', c + WORD_SIZE)
    /\ req <= full
    /\ (MIN_BLOCK_SIZE <= full - req ->
          SIZE (mem st' c) = req
          /\ Z.land (mem st' c) TAG_USED = TAG_USED
          /\ SIZE (mem st' (c + req)) = full - req
          /\ Z.land (mem st' (c + req)) TAG_USED = 0
          /\ mem st' (c + full - WORD_SIZE) = mem st' (c + req)
          /\ mem st' (mem_heap_lo st') = c + req)
    /\ (full - req < MIN_BLOCK_SIZE ->
          SIZE (mem st' c) = full
          /\ Z.land (mem st' c) TAG_USED = TAG_USED
          /\ Z.land (mem st' (c + full)) TAG_PRECEDING_USED = TAG_PRECEDING_USED).
Proof.
  intros (bs & fl & HInv) Hf Hsize Hnz Hscan Hc req full.
  destruct (request_size_spec size Hsize) as (R1 & R2 & R3). fold req in R1, R2, R3.
  destruct (Inv_fuel _ _ _ _ HInv Hf) as (_ & Ffl & _).
  pose proof (Inv_FL _ _ _ HInv) as HFL.
  rewrite (search_free_list_spec _ _ (request_size size) _ HFL Ffl) in Hscan.
  fold req in Hscan.
  assert (Hfit : first_fit (mem st) fl req = c) by congruence. clear Hscan.
  destruct (first_fit_found _ _ _ _ Hfit Hc) as (Hcfl & Hsz).
  apply (inv_free _ _ _ HInv), In_free_blocks in Hcfl. destruct Hcfl as (n & Hin).
  pose proof (tagged_free _ _ _ _ _ (inv_tagged _ _ _ HInv) (inv_noadj _ _ _ HInv) Hin)
    as (Hhdr & _).
  pose proof (inv_env _ _ _ HInv) as (E1 & E2 & E3 & E4 & E5 & E6).
  pose proof (inv_brk _ _ _ HInv) as Hbrk.
  pose proof (chain_In _ _ _ _ _ _ (inv_chain _ _ _ HInv) Hin) as (I1 & I2 & I3 & I4).
  assert (Hnr : 0 <= n < 2 ^ 63) by zlia.
  assert (Efull : full = n) by (unfold full; rewrite Hhdr; apply SIZE_tagword; assumption).
  rewrite Hhdr, SIZE_tagword in Hsz by assumption.
  destruct (in_split _ _ Hin) as (bs1 & bs2 & ->).
  destruct (place_block_spec _ _ _ _ _ _ req HInv ltac:(lia) R2)
    as (st' & bs' & fl' & E & HInv' & (K1 & K2 & K3 & K4) & Hbs).
  exists st'. split; [exact E|]. rewrite Efull. split; [lia|].
  pose proof (inv_tagged _ _ _ HInv') as Htag'.
  pose proof (chain_mid _ _ _ _ _ _ _ (inv_chain _ _ _ HInv)) as (C1 & C2 & C3 & C4).
  pose proof (chain_le _ _ _ C4) as Hle4.
  destruct (Z.geb_spec (n - req) MIN_BLOCK_SIZE) as [Hge | Hlt].
  - split; [intros _ | intros; lia].
    destruct Hbs as (-> & Hhd).
    apply tagged_app in Htag'. destruct Htag' as (_ & Hc' & _ & Hs' & Hf' & _).
    specialize (Hf' eq_refl).
    assert (Hrr : 0 <= req < 2 ^ 63) by zlia.
    assert (Hdr : 0 <= n - req < 2 ^ 63) by zlia.
    assert (Hd8 : (n - req) mod ALIGNMENT = 0) by zlia.
    rewrite Hc', Hs'.
    rewrite !SIZE_tagword, !tagword_used by assumption.
    split; [reflexivity|]. split; [reflexivity|]. split; [reflexivity|].
    split; [reflexivity|]. split.
    + rewrite <- Hf'. f_equal. lia.
    + unfold mem_heap_lo. rewrite (flist_hd _ _ _ _ (inv_flist _ _ _ HInv')).
      exact Hhd.
  - split; [intros; lia | intros _]. subst bs'.
    pose proof (inv_end _ _ _ HInv') as Hend'.
    apply tagged_app in Htag'. destruct Htag' as (_ & Hc' & _ & Ht2').
    rewrite Hc'. rewrite SIZE_tagword, tagword_used by assumption.
    split; [reflexivity|]. split; [reflexivity|].
    destruct bs2 as [|[[y t] v] bs2].
    + simpl in C4. rewrite last_used_app in Hend'. simpl in Hend'.
      rewrite K2 in Hend'. rewrite C4, Hend'.
      apply tagword_preceding_used; apply zero_size.
    + simpl in C4. destruct C4 as (-> & D1 & D2 & D3).
      pose proof (chain_le _ _ _ D3).
      simpl in Ht2'. destruct Ht2' as (Hy & _). rewrite Hy.
      apply tagword_preceding_used; zlia.
Qed.

Lemma split_threshold_witness :
  wf_heap ex_grown
  /\ mem_max_addr ex_grown - mem_start_brk ex_grown <= Z.of_nat ex_fuel
  /\ valid_size 16 /\ 16 <> 0
  /\ search_free_list ex_fuel ex_grown (request_size 16) = Ok 65576
  /\ 65576 <> NULL
  /\ exists st',
       place_block ex_grown 65576 (request_size 16) = Ok (st', 65576 + WORD_SIZE)
       /\ request_size 16 <= SIZE (mem ex_grown 65576)
       /\ (MIN_BLOCK_SIZE <= SIZE (mem ex_grown 65576) - request_size 16 ->
             SIZE (mem st' 65576) = request_size 16
             /\ Z.land (mem st' 65576) TAG_USED = TAG_USED
             /\ SIZE (mem st' (65576 + request_size 16))
                = SIZE (mem ex_grown 65576) - request_size 16
             /\ Z.land (mem st' (65576 + request_size 16)) TAG_USED = 0
             /\ mem st' (65576 + SIZE (mem ex_grown 65576) - WORD_SIZE)
                = mem st' (65576 + request_size 16)
             /\ mem st' (mem_heap_lo st') = 65576 + request_size 16)
       /\ (SIZE (mem ex_grown 65576) - request_size 16 < MIN_BLOCK_SIZE ->
             SIZE (mem st' 65576) = SIZE (mem ex_grown 65576)
             /\ Z.land (mem st' 65576) TAG_USED = TAG_USED
             /\ Z.land (mem st' (65576 + SIZE (mem ex_grown 65576)))
                  TAG_PRECEDING_USED = TAG_PRECEDING_USED).
Proof.
  assert (H1 : wf_heap ex_grown).
  { destruct (reachable_Inv _ _ _ ex_full_reachable) as (bs & fl & HInv & _ & Hf).
    destruct (request_more_space_spec ex_fuel _ _ _ 32 HInv)
      as [E | (st1 & bs1 & fl1 & c & n & E & HInv1 & _)].
    - unfold MIN_BLOCK_SIZE, sizeof_block_info, WORD_SIZE. lia.
    - vm_compute. discriminate.
    - vm_compute. lia.
    - exfalso. revert E. vm_compute. discriminate.
    - exists bs1, fl1. replace ex_grown with st1; [exact HInv1|].
      unfold ex_grown. rewrite E. reflexivity. }
  assert (H2 : mem_max_addr ex_grown - mem_start_brk ex_grown <= Z.of_nat ex_fuel)
    by (vm_compute; discriminate).
  assert (H3 : valid_size 16) by (unfold valid_size; lia).
  assert (H4 : 16 <> 0) by discriminate.
  assert (H5 : search_free_list ex_fuel ex_grown (request_size 16) = Ok 65576)
    by (vm_compute; reflexivity).
  assert (H6 : 65576 <> NULL) by discriminate.
  split; [exact H1|]. split; [exact H2|]. split; [exact H3|]. split; [exact H4|].
  split; [exact H5|]. split; [exact H6|].
  exact (split_threshold ex_fuel ex_grown 16 65576 H1 H2 H3 H4 H5 H6).
Defined.

(** C8 (B1).  [mm_malloc(0)] returns null and leaves the whole heap as
    it is, on every heap. *)
Theorem malloc_zero_no_effect (fuel : nat) (st : heap) :
  mm_malloc fuel st 0 = Ok (st, NULL).
Proof. reflexivity. Qed.

(** C9 (first fit).  On a well-formed free list [l], the scan returns;
    it returns null when no block of the list has [n] bytes, and
    otherwise the first block of the list, in list order, that has. *)
Theorem search_free_list_first_fit fuel st l n :
  FL st l -> (length l < fuel)%nat ->
  exists r,
    search_free_list fuel st n = Ok r
    /\ ((r = NULL /\ forall b, In b l -> SIZE (mem st b) < n)
        \/ (exists l1 l2,
              l = l1 ++ r :: l2 /\ n <= SIZE (mem st r)
              /\ forall b, In b l1 -> SIZE (mem st b) < n)).
Proof.
  intros HFL Hfuel. exists (first_fit (mem st) l n).
  split; [apply search_free_list_spec; assumption|].
  unfold first_fit. clear. induction l as [|x l IH]; simpl.
  - left. split; [reflexivity | contradiction].
  - destruct (Z.geb_spec (SIZE (mem st x)) n) as [Hge | Hlt].
    + right. exists [], l. split; [reflexivity|]. split; [lia | contradiction].
    + destruct IH as [(E & Hall) | (l1 & l2 & E & Hr & Hall)].
      * left. split; [exact E|]. intros b [<- | Hb]; auto.
      * right. exists (x :: l1), l2. split; [simpl; f_equal; exact E|].
        split; [exact Hr|]. intros b [<- | Hb]; auto.
Qed.

Lemma ex_grown_FL : FL ex_grown [65576].
Proof.
  constructor.
  - vm_compute. repeat split; discriminate.
  - vm_compute. repeat split; discriminate.
  - simpl. split; [constructor | exact I].
  - constructor; [|constructor]. vm_compute. repeat split; discriminate.
Qed.

Lemma search_free_list_first_fit_witness :
  FL ex_grown [65576] /\ (length [65576%Z] < ex_fuel)%nat
  /\ exists r,
       search_free_list ex_fuel ex_grown 64 = Ok r
       /\ ((r = NULL /\ forall b, In b [65576] -> SIZE (mem ex_grown b) < 64)
           \/ (exists l1 l2,
                 [65576] = l1 ++ r :: l2 /\ 64 <= SIZE (mem ex_grown r)
                 /\ forall b, In b l1 -> SIZE (mem ex_grown b) < 64)).
Proof.
  assert (H2 : (length [65576%Z] < ex_fuel)%nat).
  { apply Nat.ltb_lt. vm_compute. reflexivity. }
  split; [exact ex_grown_FL|]. split; [exact H2|].
  exact (search_free_list_first_fit ex_fuel ex_grown [65576] 64 ex_grown_FL H2).
Defined.

(** C10 (coalescing without a free neighbour).  When the header of [B]
    has [TAG_PRECEDING_USED] and the header of the block that follows
    [B] in memory has [TAG_USED], [coalesce_free_block(B)] returns the
    heap it was given: no word changes, neither a tag nor the free
    list. *)
Theorem coalesce_no_free_neighbor_noop fuel st B :
  (1 <= fuel)%nat ->
  valid_access st B = true ->
  Z.land (mem st B) TAG_PRECEDING_USED <> 0 ->
  valid_access st (UNSCALED_POINTER_ADD B (SIZE (mem st B))) = true ->
  Z.land (mem st (UNSCALED_POINTER_ADD B (SIZE (mem st B)))) TAG_USED <> 0 ->
  coalesce_free_block fuel st B = Ok st.
Proof.
  intros Hfuel HB Hprev Hnext Hused.
  destruct fuel as [|fuel]; [lia|].
  unfold coalesce_free_block. cbn [coalesce_preceding coalesce_following].
  unfold off_size_and_tags. rewrite !Z.add_0_r.
  rewrite load_ok by exact HB. cbn [bind].
  apply Z.eqb_neq in Hprev. rewrite Hprev. cbn [bind]. cbv beta iota.
  rewrite !Z.add_0_r.
  rewrite load_ok by exact Hnext. cbn [bind].
  apply Z.eqb_neq in Hused. rewrite Hused. cbn [bind]. cbv beta iota.
  rewrite Z.eqb_refl. reflexivity.
Qed.

Lemma coalesce_no_free_neighbor_noop_witness :
  (1 <= ex_fuel)%nat
  /\ valid_access ex_init 65544 = true
  /\ Z.land (mem ex_init 65544) TAG_PRECEDING_USED <> 0
  /\ valid_access ex_init (UNSCALED_POINTER_ADD 65544 (SIZE (mem ex_init 65544))) = true
  /\ Z.land (mem ex_init (UNSCALED_POINTER_ADD 65544 (SIZE (mem ex_init 65544))))
       TAG_USED <> 0
  /\ coalesce_free_block ex_fuel ex_init 65544 = Ok ex_init.
Proof.
  assert (H1 : (1 <= ex_fuel)%nat) by (apply Nat.leb_le; vm_compute; reflexivity).
  assert (H2 : valid_access ex_init 65544 = true) by (vm_compute; reflexivity).
  assert (H3 : Z.land (mem ex_init 65544) TAG_PRECEDING_USED <> 0)
    by (vm_compute; discriminate).
  assert (H4 : valid_access ex_init
                 (UNSCALED_POINTER_ADD 65544 (SIZE (mem ex_init 65544))) = true)
    by (vm_compute; reflexivity).
  assert (H5 : Z.land (mem ex_init
                         (UNSCALED_POINTER_ADD 65544 (SIZE (mem ex_init 65544))))
                 TAG_USED <> 0)
    by (vm_compute; discriminate).
  split; [exact H1|]. split; [exact H2|]. split; [exact H3|].
  split; [exact H4|]. split; [exact H5|].
  exact (coalesce_no_free_neighbor_noop ex_fuel ex_init 65544 H1 H2 H3 H4 H5).
Defined.

(** * What every call does, on any heap

    The facts of this part need no invariant: they hold on corrupted
    heaps too. *)

Lemma bind_Ok {A B : Type} (r : result A) (k : A -> result B) b :
  bind r k = Ok b -> exists a, r = Ok a /\ k a = Ok b.
Proof. destruct r; simpl; intros H; try discriminate. eauto. Qed.

Lemma bind_Exit {A B : Type} (r : result A) (k : A -> result B) s :
  bind r k = Exit s -> r = Exit s \/ exists a, r = Ok a /\ k a = Exit s.
Proof.
  destruct r; simpl; intros H; try discriminate; [eauto|].
  left. inversion H. reflexivity.
Qed.

Lemma load_Ok st a v : load st a = Ok v -> v = mem st a /\ valid_access st a = true.
Proof. unfold load. destruct (valid_access st a); intros H; inversion H; auto. Qed.

Lemma store_Ok st a v st' :
  store st a v = Ok st' -> st' = upd st a v /\ valid_access st a = true.
Proof. unfold store. destruct (valid_access st a); intros H; inversion H; auto. Qed.

Lemma modify_Ok st a f st' :
  modify st a f = Ok st' -> st' = upd st a (f (mem st a)) /\ valid_access st a = true.
Proof.
  unfold modify. intros H. apply bind_Ok in H. destruct H as (t & H1 & H2).
  apply load_Ok in H1. destruct H1 as (-> & _). apply store_Ok in H2. exact H2.
Qed.

(** Taking a returning run apart, call by call. *)
Ltac run_inv :=
  repeat match goal with
    | H : bind _ _ = Ok _ |- _ =>
        apply bind_Ok in H; let a := fresh "r" in let E := fresh "E" in
        destruct H as (a & E & H)
    | H : load _ _ = Ok _ |- _ => apply load_Ok in H; destruct H as (-> & ?)
    | H : store _ _ _ = Ok _ |- _ => apply store_Ok in H; destruct H as (-> & ?)
    | H : modify _ _ _ = Ok _ |- _ => apply modify_Ok in H; destruct H as (-> & ?)
    | H : get_FREE_LIST_HEAD _ = Ok _ |- _ => unfold get_FREE_LIST_HEAD in H
    | H : set_FREE_LIST_HEAD _ _ = Ok _ |- _ => unfold set_FREE_LIST_HEAD in H
    | H : Ok _ = Ok _ |- _ => inversion H; subst; clear H
    | H : (if ?c then _ else _) = Ok _ |- _ => destruct c eqn:?
    | H : OutOfFuel = Ok _ |- _ => discriminate H
    | H : Exit _ = Ok _ |- _ => discriminate H
    | H : Fault = Ok _ |- _ => discriminate H
    end.

(** ** No list or tag operation moves the bounds of the heap *)

Lemma insert_free_block_sim st b st' :
  insert_free_block st b = Ok st' -> same_sim st st'.
Proof. unfold insert_free_block. intros H. run_inv; repeat split. Qed.

Lemma remove_free_block_sim st b st' :
  remove_free_block st b = Ok st' -> same_sim st st'.
Proof. unfold remove_free_block. intros H. run_inv; repeat split. Qed.

Lemma coalesce_preceding_sim fuel : forall st n c st' n' c',
  coalesce_preceding fuel st n c = Ok (st', n', c') -> same_sim st st'.
Proof.
  induction fuel as [|fuel IH]; intros st n c st' n' c' H; [discriminate|].
  simpl in H. apply bind_Ok in H. destruct H as (t & Et & H).
  destruct (Z.land t TAG_PRECEDING_USED =? 0).
  - apply bind_Ok in H. destruct H as (ft & Eft & H).
    apply bind_Ok in H. destruct H as (st1 & E1 & H).
    apply remove_free_block_sim in E1.
    exact (same_sim_trans _ _ _ E1 (IH _ _ _ _ _ _ H)).
  - inversion H; subst. apply same_sim_refl.
Qed.

Lemma coalesce_following_sim fuel : forall st n c st' n' c',
  coalesce_following fuel st n c = Ok (st', n', c') -> same_sim st st'.
Proof.
  induction fuel as [|fuel IH]; intros st n c st' n' c' H; [discriminate|].
  simpl in H. apply bind_Ok in H. destruct H as (t & Et & H).
  destruct (Z.land t TAG_USED =? 0).
  - apply bind_Ok in H. destruct H as (st1 & E1 & H).
    apply remove_free_block_sim in E1.
    exact (same_sim_trans _ _ _ E1 (IH _ _ _ _ _ _ H)).
  - inversion H; subst. apply same_sim_refl.
Qed.

Lemma coalesce_free_block_sim fuel st b st' :
  coalesce_free_block fuel st b = Ok st' -> same_sim st st'.
Proof.
  unfold coalesce_free_block. intros H.
  apply bind_Ok in H. destruct H as (t & Et & H). apply load_Ok in Et.
  apply bind_Ok in H. destruct H as ([[st1 n1] c1] & E1 & H).
  apply coalesce_preceding_sim in E1.
  apply bind_Ok in H. destruct H as ([[st2 n2] c2] & E2 & H).
  apply coalesce_following_sim in E2.
  pose proof (same_sim_trans _ _ _ E1 E2) as S12.
  destruct (negb (n2 =? SIZE t)).
  - apply bind_Ok in H. destruct H as (st3 & E3 & H). apply remove_free_block_sim in E3.
    apply bind_Ok in H. destruct H as (st4 & E4 & H). apply store_Ok in E4.
    destruct E4 as (-> & _).
    apply bind_Ok in H. destruct H as (st5 & E5 & H). apply store_Ok in E5.
    destruct E5 as (-> & _).
    apply insert_free_block_sim in H.
    eapply same_sim_trans; [exact S12|]. eapply same_sim_trans; [exact E3|].
    eapply same_sim_trans; [|exact H]. repeat split.
  - inversion H; subst. exact S12.
Qed.

Lemma place_block_sim st c req st' p :
  place_block st c req = Ok (st', p) ->
  same_sim st st' /\ p = UNSCALED_POINTER_ADD c WORD_SIZE.
Proof.
  unfold place_block. intros H.
  apply bind_Ok in H. destruct H as (st1 & E1 & H). apply modify_Ok in E1.
  destruct E1 as (-> & _).
  apply bind_Ok in H. destruct H as (st2 & E2 & H). apply remove_free_block_sim in E2.
  apply bind_Ok in H. destruct H as (t & Et & H).
  apply bind_Ok in H. destruct H as (t' & Et' & H).
  apply bind_Ok in H. destruct H as (st3 & E3 & H). inversion H; subst.
  split; [|reflexivity].
  eapply same_sim_trans; [|eapply same_sim_trans; [exact E2|]]; [repeat split|].
  destruct (wrap64 (SIZE t - req) >=? MIN_BLOCK_SIZE).
  - apply bind_Ok in E3. destruct E3 as (s1 & F1 & E3). apply store_Ok in F1.
    destruct F1 as (-> & _).
    apply bind_Ok in E3. destruct E3 as (s2 & F2 & E3). apply modify_Ok in F2.
    destruct F2 as (-> & _).
    apply bind_Ok in E3. destruct E3 as (s3 & F3 & E3). apply store_Ok in F3.
    destruct F3 as (-> & _).
    apply bind_Ok in E3. destruct E3 as (s4 & F4 & E3). apply modify_Ok in F4.
    destruct F4 as (-> & _).
    apply bind_Ok in E3. destruct E3 as (s5 & F5 & E3). apply modify_Ok in F5.
    destruct F5 as (-> & _).
    apply bind_Ok in E3. destruct E3 as (u1 & F6 & E3).
    apply bind_Ok in E3. destruct E3 as (u2 & F7 & E3).
    apply bind_Ok in E3. destruct E3 as (s6 & F8 & E3). apply store_Ok in F8.
    destruct F8 as (-> & _).
    apply insert_free_block_sim in E3.
    eapply same_sim_trans; [|exact E3]. repeat split.
  - apply modify_Ok in E3. destruct E3 as (-> & _). repeat split.
Qed.

(** [mm_free] never moves the bounds of the heap. *)
Lemma mm_free_sim fuel st p st' : mm_free fuel st p = Ok st' -> same_sim st st'.
Proof.
  unfold mm_free. intros H.
  apply bind_Ok in H. destruct H as (t & Et & H).
  apply bind_Ok in H. destruct H as (st1 & E1 & H). apply modify_Ok in E1.
  destruct E1 as (-> & _).
  apply bind_Ok in H. destruct H as (st2 & E2 & H). apply modify_Ok in E2.
  destruct E2 as (-> & _).
  apply bind_Ok in H. destruct H as (t' & Et' & H).
  apply bind_Ok in H. destruct H as (st3 & E3 & H). apply store_Ok in E3.
  destruct E3 as (-> & _).
  apply bind_Ok in H. destruct H as (st4 & E4 & H). apply insert_free_block_sim in E4.
  apply coalesce_free_block_sim in H.
  eapply same_sim_trans; [|exact H]. eapply same_sim_trans; [|exact E4]. repeat split.
Qed.

(** ** Only a failed [mem_sbrk] ends the process *)

Lemma no_exit_bind {A B : Type} (r : result A) (k : A -> result B) :
  no_exit r -> (forall a, no_exit (k a)) -> no_exit (bind r k).
Proof. destruct r; simpl; auto. Qed.

Lemma load_no_exit st a : no_exit (load st a).
Proof. unfold load. destruct (valid_access st a); exact I. Qed.

Lemma store_no_exit st a v : no_exit (store st a v).
Proof. unfold store. destruct (valid_access st a); exact I. Qed.

Lemma modify_no_exit st a f : no_exit (modify st a f).
Proof.
  unfold modify. apply no_exit_bind; [apply load_no_exit|].
  intros t. apply store_no_exit.
Qed.

Ltac no_exit_step :=
  first
    [ exact I
    | apply load_no_exit
    | apply store_no_exit
    | apply modify_no_exit
    | apply no_exit_bind; [|intros ?]
    | match goal with
      | |- no_exit (if ?c then _ else _) => destruct c
      | |- no_exit (let '(_, _) := ?x in _) => destruct x
      end ].

Lemma insert_free_block_no_exit st b : no_exit (insert_free_block st b).
Proof.
  unfold insert_free_block, get_FREE_LIST_HEAD, set_FREE_LIST_HEAD.
  repeat no_exit_step.
Qed.

Lemma remove_free_block_no_exit st b : no_exit (remove_free_block st b).
Proof.
  unfold remove_free_block, get_FREE_LIST_HEAD, set_FREE_LIST_HEAD.
  repeat no_exit_step.
Qed.

Lemma search_free_list_no_exit fuel st n : no_exit (search_free_list fuel st n).
Proof.
  unfold search_free_list, get_FREE_LIST_HEAD.
  apply no_exit_bind; [apply load_no_exit|]. intros h. revert h.
  induction fuel as [|fuel IH]; intros h; [exact I|]. simpl.
  destruct (h =? NULL); [exact I|].
  apply no_exit_bind; [apply load_no_exit|]. intros t.
  destruct (SIZE t >=? n); [exact I|].
  apply no_exit_bind; [apply load_no_exit|]. intros x. apply IH.
Qed.

Lemma coalesce_preceding_no_exit fuel : forall st n c,
  no_exit (coalesce_preceding fuel st n c).
Proof.
  induction fuel as [|fuel IH]; intros st n c; [exact I|]. simpl.
  apply no_exit_bind; [apply load_no_exit|]. intros t.
  destruct (Z.land t TAG_PRECEDING_USED =? 0); [|exact I].
  apply no_exit_bind; [apply load_no_exit|]. intros ft.
  apply no_exit_bind; [apply remove_free_block_no_exit|]. intros st1. apply IH.
Qed.

Lemma coalesce_following_no_exit fuel : forall st n c,
  no_exit (coalesce_following fuel st n c).
Proof.
  induction fuel as [|fuel IH]; intros st n c; [exact I|]. simpl.
  apply no_exit_bind; [apply load_no_exit|]. intros t.
  destruct (Z.land t TAG_USED =? 0); [|exact I].
  apply no_exit_bind; [apply remove_free_block_no_exit|]. intros st1. apply IH.
Qed.

Lemma coalesce_free_block_no_exit fuel st b : no_exit (coalesce_free_block fuel st b).
Proof.
  unfold coalesce_free_block.
  apply no_exit_bind; [apply load_no_exit|]. intros t.
  apply no_exit_bind; [apply coalesce_preceding_no_exit|]. intros [[st1 n1] c1].
  apply no_exit_bind; [apply coalesce_following_no_exit|]. intros [[st2 n2] c2].
  destruct (negb (n2 =? SIZE t)); [|exact I].
  apply no_exit_bind; [apply remove_free_block_no_exit|]. intros st3.
  apply no_exit_bind; [apply store_no_exit|]. intros st4.
  apply no_exit_bind; [apply store_no_exit|]. intros st5.
  apply insert_free_block_no_exit.
Qed.

Lemma place_block_no_exit st c req : no_exit (place_block st c req).
Proof.
  unfold place_block.
  apply no_exit_bind; [apply modify_no_exit|]. intros st1.
  apply no_exit_bind; [apply remove_free_block_no_exit|]. intros st2.
  apply no_exit_bind; [apply load_no_exit|]. intros t.
  apply no_exit_bind; [apply load_no_exit|]. intros t'.
  apply no_exit_bind; [|intros st3; exact I].
  destruct (wrap64 (SIZE t - req) >=? MIN_BLOCK_SIZE); [|apply modify_no_exit].
  apply no_exit_bind; [apply store_no_exit|]. intros s1.
  apply no_exit_bind; [apply modify_no_exit|]. intros s2.
  apply no_exit_bind; [apply store_no_exit|]. intros s3.
  apply no_exit_bind; [apply modify_no_exit|]. intros s4.
  apply no_exit_bind; [apply modify_no_exit|]. intros s5.
  apply no_exit_bind; [apply load_no_exit|]. intros u1.
  apply no_exit_bind; [apply load_no_exit|]. intros u2.
  apply no_exit_bind; [apply store_no_exit|]. intros s6.
  apply insert_free_block_no_exit.
Qed.

Lemma mm_free_no_exit fuel st p : no_exit (mm_free fuel st p).
Proof.
  unfold mm_free.
  apply no_exit_bind; [apply load_no_exit|]. intros t.
  apply no_exit_bind; [apply modify_no_exit|]. intros st1.
  apply no_exit_bind; [apply modify_no_exit|]. intros st2.
  apply no_exit_bind; [apply load_no_exit|]. intros t'.
  apply no_exit_bind; [apply store_no_exit|]. intros st3.
  apply no_exit_bind; [apply insert_free_block_no_exit|]. intros st4.
  apply coalesce_free_block_no_exit.
Qed.

Lemma no_exit_Exit {A : Type} (r : result A) s : no_exit r -> r <> Exit s.
Proof. intros H E. rewrite E in H. exact H. Qed.

(** The bytes that [request_more_space] asks of the simulator. *)
Lemma request_more_space_Ok fuel st req st' :
  request_more_space fuel st req = Ok st' ->
  let total := wrap64 (wrap64 (req + pagesize st - 1) / pagesize st * pagesize st) in
  same_consts st st'
  /\ mem_brk st' = mem_brk st + total
  /\ mem_brk st + total <= mem_max_addr st.
Proof.
  intros H total. unfold request_more_space, mem_pagesize, mem_sbrk in H.
  fold total in H.
  destruct (Z.gtb_spec (mem_brk st + total) (mem_max_addr st)) as [Hfull | Hroom].
  - rewrite Z.eqb_refl in H. discriminate.
  - destruct (mem_brk st =? wrap64 (-1)); [discriminate|].
    apply bind_Ok in H. destruct H as (t & Et & H).
    apply bind_Ok in H. destruct H as (st1 & E1 & H). apply store_Ok in E1.
    destruct E1 as (-> & _).
    apply bind_Ok in H. destruct H as (st2 & E2 & H). apply store_Ok in E2.
    destruct E2 as (-> & _).
    apply bind_Ok in H. destruct H as (st3 & E3 & H). apply store_Ok in E3.
    destruct E3 as (-> & _).
    apply bind_Ok in H. destruct H as (st4 & E4 & H). apply insert_free_block_sim in E4.
    apply coalesce_free_block_sim in H.
    destruct (same_sim_trans _ _ _ E4 H) as (S1 & S2 & S3 & S4). simpl in S1, S2, S3, S4.
    unfold same_consts. repeat split; assumption.
Qed.

Lemma request_more_space_Exit fuel st req s :
  request_more_space fuel st req = Exit s ->
  let total := wrap64 (wrap64 (req + pagesize st - 1) / pagesize st * pagesize st) in
  s = 0
  /\ (mem_max_addr st < mem_brk st + total \/ mem_brk st = wrap64 (-1)).
Proof.
  intros H total. unfold request_more_space, mem_pagesize, mem_sbrk in H.
  fold total in H.
  destruct (Z.gtb_spec (mem_brk st + total) (mem_max_addr st)) as [Hfull | Hroom].
  - rewrite Z.eqb_refl in H. inversion H. split; [reflexivity | left; lia].
  - destruct (Z.eqb_spec (mem_brk st) (wrap64 (-1))) as [Em | Em].
    + inversion H. split; [reflexivity | right; exact Em].
    + exfalso. revert H. apply no_exit_Exit.
      apply no_exit_bind; [apply load_no_exit|]. intros t.
      apply no_exit_bind; [apply store_no_exit|]. intros st1.
      apply no_exit_bind; [apply store_no_exit|]. intros st2.
      apply no_exit_bind; [apply store_no_exit|]. intros st3.
      apply no_exit_bind; [apply insert_free_block_no_exit|]. intros st4.
      apply coalesce_free_block_no_exit.
Qed.

(** * [mm_malloc] and [mm_free] on a well-formed heap, in full *)

(** Placing a request in a free block of the layout. *)
Lemma place_block_at st bs fl c n req :
  Inv st bs fl -> In (c, n, false) bs ->
  MIN_BLOCK_SIZE <= req <= n -> req mod ALIGNMENT = 0 ->
  exists st' bs' fl' t,
    place_block st c req = Ok (st', c + WORD_SIZE)
    /\ Inv st' bs' fl' /\ same_sim st st'
    /\ req <= t < req + MIN_BLOCK_SIZE /\ t <= n
    /\ In (c, t, true) bs'
    /\ (forall s, ~ In (c, s) (used_blocks bs))
    /\ (forall q, In q (used_blocks bs') <-> q = (c, t) \/ In q (used_blocks bs))
    /\ kept (used_blocks bs) st st'.
Proof.
  intros HInv Hin Hreq Hreq8.
  destruct (in_split _ _ Hin) as (bs1 & bs2 & ->).
  destruct (place_block_run _ _ _ _ _ _ _ HInv Hreq Hreq8)
    as (st' & bs' & fl' & E & HInv' & Hsim & Hbs & Hkept).
  pose proof (inv_chain _ _ _ HInv) as Hch.
  exists st', bs', fl', (if n - req >=? MIN_BLOCK_SIZE then req else n).
  split; [exact E|]. split; [exact HInv'|]. split; [exact Hsim|].
  assert (Hup0 : forall q, In q (used_blocks (bs1 ++ (c, n, false) :: bs2))
                           <-> In q (used_blocks (bs1 ++ bs2))).
  { intros q. rewrite !used_blocks_app, !in_app_iff. simpl. tauto. }
  split; [destruct (Z.geb_spec (n - req) MIN_BLOCK_SIZE); zlia|].
  split; [destruct (Z.geb_spec (n - req) MIN_BLOCK_SIZE); zlia|].
  split; [|split; [|split]].
  - destruct (n - req >=? MIN_BLOCK_SIZE).
    + destruct Hbs as (-> & _). apply in_or_app. right. left. reflexivity.
    + subst bs'. apply in_or_app. right. left. reflexivity.
  - intros s Hq. apply Hup0 in Hq.
    apply (used_not_elsewhere _ _ _ _ _ _ _ _ _ Hch) in Hq. congruence.
  - intros q. rewrite Hup0.
    destruct (n - req >=? MIN_BLOCK_SIZE).
    + destruct Hbs as (-> & _).
      rewrite !used_blocks_app, !in_app_iff.
      change (used_blocks ((c, req, true) :: (c + req, n - req, false) :: bs2))
        with ((c, req) :: used_blocks bs2).
      simpl. intuition congruence.
    + subst bs'. rewrite !used_blocks_app, !in_app_iff.
      change (used_blocks ((c, n, true) :: bs2))
        with ((c, n) :: used_blocks bs2).
      simpl. intuition congruence.
  - apply (kept_sub (used_blocks (bs1 ++ bs2))); [|exact Hkept].
    intros q Hq. apply Hup0. exact Hq.
Qed.

(** [mm_malloc] of a non-zero size on a well-formed heap.  When the
    free list has no block of the request size and the simulator cannot
    supply the pages, the process ends with status 0.  Otherwise the
    call returns the payload of a block [c] of [t] bytes that was free,
    or part of a free block, and is now used; the other used blocks stay
    used and keep their contents.  The block is the first fit of the
    free list when there is one, and the break does not move then; else
    the heap grows by whole pages. *)
Lemma mm_malloc_run fuel st bs fl size :
  Inv st bs fl -> valid_size size -> size <> 0 ->
  mem_max_addr st - mem_start_brk st <= Z.of_nat fuel ->
  let req := request_size size in
  let total := (req + pagesize st - 1) / pagesize st * pagesize st in
  let c0 := first_fit (mem st) fl req in
  (c0 = NULL /\ mem_max_addr st < mem_brk st + total
   /\ mm_malloc fuel st size = Exit 0)
  \/ exists st' bs' fl' c t,
       mm_malloc fuel st size = Ok (st', c + WORD_SIZE)
       /\ Inv st' bs' fl'
       /\ req <= t < req + MIN_BLOCK_SIZE
       /\ In (c, t, true) bs'
       /\ (forall s, ~ In (c, s) (used_blocks bs))
       /\ (forall q, In q (used_blocks bs') <-> q = (c, t) \/ In q (used_blocks bs))
       /\ kept (used_blocks bs) st st'
       /\ ((c0 <> NULL /\ c = c0 /\ same_sim st st')
           \/ (c0 = NULL /\ mem_brk st + total <= mem_max_addr st
               /\ mem_brk st' = mem_brk st + total /\ same_consts st st')).
Proof.
  intros HInv Hsize Hnz Hfuel req total c0.
  destruct (request_size_spec size Hsize) as (R1 & R2 & R3). fold req in R1, R2, R3.
  destruct (Inv_fuel _ _ _ _ HInv Hfuel) as (F2 & Ffl & _).
  pose proof (Inv_FL _ _ _ HInv) as HFL.
  pose proof HInv as [Henv Hbrk Hch Htag _ Hna _ _ Hfree].
  pose proof Henv as (E1 & E2 & E3 & E4 & E5 & E6).
  assert (Etotal : wrap64 (wrap64 (req + pagesize st - 1) / pagesize st * pagesize st)
                   = total).
  { destruct (page_round req (pagesize st) ltac:(lia) E6 ltac:(zlia)) as (Htot & Htot8).
    fold total in Htot, Htot8.
    rewrite (wrap64_small (req + pagesize st - 1)) by zlia.
    fold total. apply wrap64_small. zlia. }
  unfold mm_malloc. apply Z.eqb_neq in Hnz. rewrite Hnz. fold req.
  rewrite (search_free_list_spec _ _ req _ HFL Ffl). cbn [bind]. fold c0.
  destruct (Z.eqb_spec c0 NULL) as [Enull | Efound].
  - (* no fit: grow the heap *)
    destruct (request_more_space_run fuel _ _ _ req HInv ltac:(lia) ltac:(zlia) F2)
      as [Eexit | (st1 & bs1 & fl1 & c & n & E1' & HInv1 & Hc1 & Hhd1 & Hin1 & Hle1
                   & Hup1 & _ & K1)].
    { left. rewrite Eexit. split; [exact Enull|]. split; [|reflexivity].
      destruct (request_more_space_Exit _ _ _ _ Eexit) as (_ & [Hfull | Habs]);
        rewrite ?Etotal in *; [exact Hfull|].
      exfalso. rewrite wrap64_minus1 in Habs. zlia. }
    right. rewrite E1'. cbn [bind].
    destruct (request_more_space_Ok _ _ _ _ E1') as (_ & Hbrk1 & Hroom).
    rewrite Etotal in Hbrk1, Hroom.
    pose proof (Inv_FL _ _ _ HInv1) as HFL1.
    destruct Hc1 as (K1' & K2' & K3').
    assert (Hfuel1 : mem_max_addr st1 - mem_start_brk st1 <= Z.of_nat fuel)
      by (rewrite K1', K2'; exact Hfuel).
    destruct (Inv_fuel _ _ _ _ HInv1 Hfuel1) as (_ & Ffl1 & _).
    rewrite (search_free_list_spec _ _ req _ HFL1 Ffl1). cbn [bind].
    assert (Hc : mem st1 c = tagword n true false).
    { apply (tagged_free _ _ _ _ _ (inv_tagged _ _ _ HInv1) (inv_noadj _ _ _ HInv1) Hin1). }
    pose proof (chain_In _ _ _ _ _ _ (inv_chain _ _ _ HInv1) Hin1) as (I1 & I2 & I3 & I4).
    pose proof (chain_le _ _ _ (inv_chain _ _ _ HInv1)) as Hle.
    pose proof (inv_brk _ _ _ HInv1) as Hbrk1'.
    assert (Hnr : 0 <= n < 2 ^ 63) by zlia.
    assert (Hfit : first_fit (mem st1) fl1 req = c).
    { assert (Hcin : In c fl1).
      { apply (inv_free _ _ _ HInv1), In_free_blocks. eauto. }
      destruct fl1 as [|c' fl1]; [contradiction|]. simpl in Hhd1. subst c'.
      apply first_fit_hd. rewrite Hc, SIZE_tagword by assumption. lia. }
    rewrite Hfit.
    destruct (place_block_at _ _ _ _ _ req HInv1 Hin1 ltac:(lia) R2)
      as (st' & bs' & fl' & t & E & HInv' & Hsim & Ht & _ & Hct & Hnew & Hup & K2).
    cbn [bind]. cbv beta iota. rewrite E.
    exists st', bs', fl', c, t.
    split; [reflexivity|]. split; [exact HInv'|]. split; [exact Ht|].
    split; [exact Hct|]. split.
    { intros s Hq. apply (Hnew s). apply Hup1. exact Hq. }
    split; [intros q; rewrite Hup, Hup1; tauto|].
    split.
    { apply (kept_trans _ _ st1); [exact K1|].
      apply (kept_sub (used_blocks bs1)); [intros q Hq; apply Hup1; exact Hq | exact K2]. }
    right. split; [exact Enull|]. split; [exact Hroom|].
    destruct Hsim as (S1 & S2 & S3 & S4).
    split; [congruence|]. unfold same_consts. repeat split; congruence.
  - (* a fit in the list *)
    right.
    destruct (first_fit_found _ _ _ _ eq_refl Efound) as (Hb & Hsz). fold c0 in Hb, Hsz.
    apply Hfree, In_free_blocks in Hb. destruct Hb as (n & Hin).
    assert (Hc : mem st c0 = tagword n true false).
    { apply (tagged_free _ _ _ _ _ Htag Hna Hin). }
    pose proof (chain_In _ _ _ _ _ _ Hch Hin) as (I1 & I2 & I3 & I4).
    pose proof (chain_le _ _ _ Hch) as Hle.
    assert (Hnr : 0 <= n < 2 ^ 63) by zlia.
    rewrite Hc, SIZE_tagword in Hsz by assumption.
    destruct (place_block_at _ _ _ _ _ req HInv Hin ltac:(lia) R2)
      as (st' & bs' & fl' & t & E & HInv' & Hsim & Ht & _ & Hct & Hnew & Hup & K2).
    cbn [bind]. cbv beta iota. rewrite E.
    exists st', bs', fl', c0, t.
    split; [reflexivity|]. split; [exact HInv'|]. split; [exact Ht|].
    split; [exact Hct|]. split; [exact Hnew|]. split; [exact Hup|].
    split; [exact K2|]. left. auto.
Qed.

(** The observable state of a well-formed heap, from its layout. *)
Lemma heap_view_spec fuel st bs fl :
  Inv st bs fl ->
  mem_max_addr st - mem_start_brk st <= Z.of_nat fuel ->
  heap_view fuel st
  = Ok (mkView (mem_heap_lo st) (mem_heap_hi st) (hd NULL fl)
          (rows_of (mem st) true bs)
          (footers st (rows_of (mem st) true bs))
          (tagword 0 (last_used true bs) true) fl).
Proof.
  intros HInv Hfuel.
  destruct (Inv_fuel _ _ _ _ HInv Hfuel) as (_ & Ffl & Fbs).
  unfold heap_view.
  rewrite (examine_heap_spec _ _ _ _ HInv Fbs). cbn [bind]. cbv beta iota.
  rewrite (free_list_spec _ _ _ (Inv_FL _ _ _ HInv) Ffl). cbn [bind].
  pose proof HInv as [Henv Hbrk Hch _ Hend _ _ _ _].
  pose proof Henv as (E1 & E2 & E3 & E4 & E5 & E6).
  pose proof (chain_le _ _ _ Hch) as Hle.
  assert (Hal : (mem_brk st - WORD_SIZE) mod ALIGNMENT = 0).
  { assert (Hlo8 : (mem_start_brk st + WORD_SIZE) mod ALIGNMENT = 0) by zlia.
    apply (chain_aligned _ _ _ Hlo8 Hch). }
  change (wrap64 (WORD_SIZE - 1)) with 7.
  rewrite ptr_sub_small by zlia. unfold mem_heap_hi.
  replace (mem_brk st - 1 - 7) with (mem_brk st - WORD_SIZE) by zlia.
  rewrite load_ok by (apply valid_access_intro; zlia).
  cbn [bind]. rewrite Hend. reflexivity.
Qed.

(** [mm_init] ends the process only when the simulator cannot supply the
    first 48 bytes. *)
Lemma mm_init_Exit st s :
  mm_init st = Exit s ->
  s = 1
  /\ (mem_max_addr st < mem_brk st + (WORD_SIZE + MIN_BLOCK_SIZE + WORD_SIZE)
      \/ mem_brk st = wrap64 (-1)).
Proof.
  unfold mm_init, mem_sbrk.
  change (wrap64 (WORD_SIZE + MIN_BLOCK_SIZE + WORD_SIZE))
    with (WORD_SIZE + MIN_BLOCK_SIZE + WORD_SIZE).
  intros H.
  destruct (Z.gtb_spec (mem_brk st + (WORD_SIZE + MIN_BLOCK_SIZE + WORD_SIZE))
              (mem_max_addr st)) as [Hfull | Hroom].
  - rewrite Z.eqb_refl in H. inversion H. split; [reflexivity | left; lia].
  - destruct (Z.eqb_spec (mem_brk st) (wrap64 (-1))) as [Em | Em].
    + inversion H. split; [reflexivity | right; exact Em].
    + exfalso. revert H. apply no_exit_Exit.
      unfold set_FREE_LIST_HEAD.
      apply no_exit_bind; [apply store_no_exit|]. intros st1.
      apply no_exit_bind; [apply store_no_exit|]. intros st2.
      apply no_exit_bind; [apply store_no_exit|]. intros st3.
      apply no_exit_bind; [apply store_no_exit|]. intros st4.
      apply no_exit_bind; [apply store_no_exit|]. intros st5.
      apply no_exit_bind; [apply store_no_exit|]. intros st6. exact I.
Qed.

(** The break after [mm_malloc]: where it was, or whole pages further. *)
Lemma mm_malloc_Ok fuel st size st' p :
  mm_malloc fuel st size = Ok (st', p) ->
  let total := wrap64 (wrap64 (request_size size + pagesize st - 1)
                       / pagesize st * pagesize st) in
  same_consts st st'
  /\ (mem_brk st' = mem_brk st
      \/ (mem_brk st' = mem_brk st + total
          /\ mem_brk st + total <= mem_max_addr st)).
Proof.
  intros H total. unfold mm_malloc in H.
  destruct (size =? 0).
  - inversion H; subst. split; [repeat split | left; reflexivity].
  - apply bind_Ok in H. destruct H as (c & Ec & H).
    apply bind_Ok in H. destruct H as ([st1 c1] & E1 & H).
    apply place_block_sim in H. destruct H as (Hsim & _).
    destruct (c =? NULL).
    + apply bind_Ok in E1. destruct E1 as (st2 & E2 & E1).
      apply bind_Ok in E1. destruct E1 as (c2 & Ec2 & E1). inversion E1; subst.
      destruct (request_more_space_Ok _ _ _ _ E2) as ((K1 & K2 & K3) & Hb & Hroom).
      fold total in Hb, Hroom.
      destruct Hsim as (S1 & S2 & S3 & S4).
      split; [unfold same_consts; repeat split; congruence|].
      right. split; [congruence | exact Hroom].
    + inversion E1; subst. split; [apply same_sim_consts; exact Hsim|].
      left. apply Hsim.
Qed.

(** A layout without used blocks is empty or a single free block. *)
Lemma all_free_layout bs a e :
  chain a bs e -> no_adjacent true bs -> used_blocks bs = [] ->
  bs = if a =? e then [] else [(a, e - a, false)].
Proof.
  intros Hch Hna Hnone.
  assert (Hfree : forall y n v, In (y, n, v) bs -> v = false).
  { intros y n [|] Hy; [|reflexivity]. exfalso.
    apply In_used_blocks in Hy. rewrite Hnone in Hy. exact Hy. }
  destruct bs as [|[[x s] u] r].
  - simpl in Hch. apply Z.eqb_eq in Hch. rewrite Hch. reflexivity.
  - pose proof (Hfree x s u (or_introl eq_refl)) as ->.
    simpl in Hch. destruct Hch as (-> & C2 & C3 & C4).
    pose proof (chain_le _ _ _ C4) as Hle.
    replace (a =? e) with false by (symmetry; apply Z.eqb_neq; zlia).
    destruct r as [|[[z k] w] r].
    + simpl in C4. f_equal. f_equal. f_equal. lia.
    + exfalso. pose proof (Hfree z k w (or_intror (or_introl eq_refl))) as ->.
      simpl in Hna. destruct Hna as (_ & [Hw | Hw] & _); discriminate.
Qed.

(** The request size for at most the payload of a block fits the
    block. *)
Lemma request_size_fits size s :
  valid_size size -> MIN_BLOCK_SIZE <= s -> s mod ALIGNMENT = 0 ->
  size + WORD_SIZE <= s -> request_size size <= s.
Proof.
  intros (H1 & H2) Hs Hs8 Hle. unfold request_size.
  rewrite (wrap64_small (size + WORD_SIZE)) by zlia.
  destruct (Z.leb_spec (size + WORD_SIZE) MIN_BLOCK_SIZE) as [Hmin | Hmin]; [lia|].
  rewrite (wrap64_small (size + WORD_SIZE + ALIGNMENT - 1)) by zlia.
  rewrite wrap64_small by zlia. zlia.
Qed.

(** * The walk over a well-formed heap *)

Lemma rows_tile_rows m bs : forall pu a e,
  chain a bs e -> rows_tile a (rows_of m pu bs) = true.
Proof.
  induction bs as [|[[y t] u] bs IH]; intros pu a e H; [reflexivity|].
  simpl in H. destruct H as (-> & H1 & H2 & H3).
  cbn [rows_of rows_tile row_block row_size].
  rewrite Z.eqb_refl, (proj2 (Z.leb_le _ _) H1), H2, (IH _ _ _ H3). reflexivity.
Qed.

Lemma tags_chained_rows m bs : forall pu, tags_chained pu (rows_of m pu bs) = true.
Proof.
  induction bs as [|[[y t] u] bs IH]; intros pu; [reflexivity|].
  cbn [rows_of tags_chained row_preceding_used row_used].
  rewrite Z.eqb_refl. simpl andb.
  replace (negb ((if u then TAG_USED else 0) =? 0)) with u by (destruct u; reflexivity).
  apply IH.
Qed.

Lemma last_row_used_rows m bs : forall pu,
  last_row_used pu (rows_of m pu bs) = last_used pu bs.
Proof.
  induction bs as [|[[y t] u] bs IH]; intros pu; [reflexivity|].
  cbn [rows_of last_row_used last_used row_used].
  replace (negb ((if u then TAG_USED else 0) =? 0)) with u by (destruct u; reflexivity).
  apply IH.
Qed.

Lemma free_rows_rows m bs : forall pu, free_rows (rows_of m pu bs) = free_blocks bs.
Proof.
  unfold free_rows, free_blocks.
  induction bs as [|[[y t] u] bs IH]; intros pu; [reflexivity|].
  specialize (IH u). destruct u; simpl in *.
  - exact IH.
  - f_equal. exact IH.
Qed.

Lemma rows_of_In m bs : forall pu r,
  In r (rows_of m pu bs) ->
  exists a s u (pu' : bool),
    In (a, s, u) bs
    /\ r = mkRow a s (if pu' then TAG_PRECEDING_USED else 0)
             (if u then TAG_USED else 0)
             (if u then None else Some (m (a + off_next), m (a + off_prev))).
Proof.
  induction bs as [|[[y t] u] bs IH]; intros pu r H; [contradiction|].
  cbn [rows_of] in H. destruct H as [<- | H].
  - exists y, t, u, pu. split; [left; reflexivity | reflexivity].
  - destruct (IH _ _ H) as (a & s & v & pu' & Hin & ->).
    exists a, s, v, pu'. split; [right; exact Hin | reflexivity].
Qed.

Lemma rows_of_free_In m bs a s : forall pu,
  In (a, s, false) bs ->
  exists pu' : bool,
    In (mkRow a s (if pu' then TAG_PRECEDING_USED else 0) 0
                    (Some (m (a + off_next), m (a + off_prev))))
                (rows_of m pu bs).
Proof.
  induction bs as [|[[y t] u] bs IH]; intros pu H; [contradiction|].
  cbn [rows_of]. destruct H as [E | H].
  - inversion E; subst. exists pu. left. reflexivity.
  - destruct (IH u H) as (pu' & Hin). exists pu'. right. exact Hin.
Qed.

(** * The layout is fixed by the used blocks *)




Lemma used_rows_rows m bs : forall pu, used_rows (rows_of m pu bs) = used_blocks bs.
Proof.
  unfold used_rows, used_blocks.
  induction bs as [|[[y t] u] bs IH]; intros pu; [reflexivity|].
  specialize (IH u). destruct u; simpl in *.
  - f_equal. exact IH.
  - exact IH.
Qed.


(** * The words that the list operations write *)

(** The heap after [insert_free_block], word by word. *)
Lemma insert_free_block_writes st b st' :
  insert_free_block st b = Ok st' ->
  let h := mem st (mem_heap_lo st) in
  let st1 := upd st (b + off_next) h in
  let st2 := if negb (h =? NULL) then upd st1 (h + off_prev) b else st1 in
  st' = upd (upd st2 (b + off_prev) NULL) (mem_heap_lo st) b.
Proof.
  unfold insert_free_block, get_FREE_LIST_HEAD, set_FREE_LIST_HEAD. intros H.
  apply bind_Ok in H. destruct H as (h & Eh & H). apply load_Ok in Eh.
  destruct Eh as (-> & _).
  apply bind_Ok in H. destruct H as (s1 & E1 & H). apply store_Ok in E1.
  destruct E1 as (-> & _).
  apply bind_Ok in H. destruct H as (s2 & E2 & H).
  apply bind_Ok in H. destruct H as (s3 & E3 & H). apply store_Ok in E3.
  destruct E3 as (-> & _). apply store_Ok in H. destruct H as (-> & _).
  cbv zeta. destruct (negb (mem st (mem_heap_lo st) =? NULL)).
  - apply store_Ok in E2. destruct E2 as (-> & _). reflexivity.
  - inversion E2; subst. reflexivity.
Qed.

(** The heap after [remove_free_block], word by word. *)
Lemma remove_free_block_writes st b st' :
  remove_free_block st b = Ok st' ->
  let next := mem st (b + off_next) in
  let prev := mem st (b + off_prev) in
  let st1 := if negb (next =? NULL) then upd st (next + off_prev) prev else st in
  st' = if b =? mem st1 (mem_heap_lo st)
        then upd st1 (mem_heap_lo st) next
        else upd st1 (prev + off_next) next.
Proof.
  unfold remove_free_block, get_FREE_LIST_HEAD, set_FREE_LIST_HEAD. intros H.
  apply bind_Ok in H. destruct H as (next & En & H). apply load_Ok in En.
  destruct En as (-> & _).
  apply bind_Ok in H. destruct H as (prev & Ep & H). apply load_Ok in Ep.
  destruct Ep as (-> & _).
  apply bind_Ok in H. destruct H as (s1 & E1 & H).
  apply bind_Ok in H. destruct H as (head & Eh & H). apply load_Ok in Eh.
  destruct Eh as (-> & _).
  cbv zeta.
  assert (Es1 : s1 = if negb (mem st (b + off_next) =? NULL)
                     then upd st (mem st (b + off_next) + off_prev)
                            (mem st (b + off_prev))
                     else st).
  { destruct (negb (mem st (b + off_next) =? NULL)).
    - apply store_Ok in E1. apply E1.
    - inversion E1; reflexivity. }
  assert (Elo : mem_heap_lo s1 = mem_heap_lo st).
  { rewrite Es1. destruct (negb (mem st (b + off_next) =? NULL)); reflexivity. }
  rewrite Elo in H. rewrite <- Es1.
  destruct (b =? mem s1 (mem_heap_lo st)); apply store_Ok in H; apply H.
Qed.

(** [insert_free_block] writes the head slot, the links of the new
    block and the [prev] link of the old head, and nothing else. *)
Lemma insert_free_block_footprint st l b st' x :
  FL st l -> insert_free_block st b = Ok st' ->
  x <> mem_heap_lo st -> x <> b + off_next -> x <> b + off_prev ->
  (l = [] \/ x <> hd NULL l + off_prev) ->
  mem st' x = mem st x.
Proof.
  intros HFL H X1 X2 X3 X4.
  rewrite (insert_free_block_writes _ _ _ H). cbv zeta.
  unfold mem_heap_lo in *.
  rewrite (flist_hd _ _ _ _ (fl_list _ _ HFL)).
  rewrite !mem_upd_other by assumption.
  destruct l as [|h l].
  - cbn [hd]. change (negb (NULL =? NULL)) with false. cbv iota.
    apply mem_upd_other. exact X2.
  - cbn [hd] in *. destruct X4 as [X4 | X4]; [discriminate|].
    destruct (negb (h =? NULL)); rewrite !mem_upd_other by assumption; reflexivity.
Qed.

(** [remove_free_block] writes the [next] link of the block before [b],
    or the head slot when [b] is the head, and the [prev] link of the
    block behind [b], and nothing else. *)
Lemma remove_free_block_footprint st l1 b l2 st' x :
  FL st (l1 ++ b :: l2) -> remove_free_block st b = Ok st' ->
  x <> match l1 with [] => mem_heap_lo st | _ => last l1 NULL + off_next end ->
  (l2 = [] \/ x <> hd NULL l2 + off_prev) ->
  mem st' x = mem st x.
Proof.
  intros HFL H X1 X2.
  destruct HFL as [(Hp & Hlo & Hbrk) Hl Hs Hn].
  destruct (flist_mid _ _ _ _ _ _ Hl) as (Eprev & Enext & Ehead & Hbn).
  rewrite (remove_free_block_writes _ _ _ H). cbv zeta.
  rewrite Eprev, Enext. unfold mem_heap_lo in *.
  set (st1 := if negb (hd NULL l2 =? NULL)
              then upd st (hd NULL l2 + off_prev) (last l1 NULL) else st).
  assert (E1 : mem st1 x = mem st x).
  { unfold st1. destruct l2 as [|y l2]; [reflexivity|].
    cbn [hd] in *. destruct X2 as [X2 | X2]; [discriminate|].
    destruct (negb (y =? NULL)); [apply mem_upd_other; exact X2 | reflexivity]. }
  assert (Elo : mem st1 (mem_start_brk st) = mem st (mem_start_brk st)).
  { unfold st1. destruct l2 as [|y l2]; [reflexivity|]. cbn [hd].
    destruct (negb (y =? NULL)); [|reflexivity].
    apply mem_upd_other.
    rewrite Forall_forall in Hn.
    destruct (Hn y) as (N1 & _); [apply in_or_app; right; right; left; reflexivity|].
    zlia. }
  rewrite Elo, Ehead.
  destruct l1 as [|z l1].
  - cbn [hd]. rewrite Z.eqb_refl. rewrite mem_upd_other by exact X1. exact E1.
  - cbn [hd].
    assert (Hne : b <> z).
    { apply sep_NoDup in Hs. intros ->.
      change ((z :: l1) ++ z :: l2) with (z :: (l1 ++ z :: l2)) in Hs.
      inversion Hs as [|? ? Hnin _]. apply Hnin.
      apply in_or_app. right. left. reflexivity. }
    apply Z.eqb_neq in Hne. rewrite Hne.
    rewrite mem_upd_other by exact X1. exact E1.
Qed.

(** * Further properties of the allocator *)

(** ** Arithmetic of sizes, tags and pointers *)

(** X1 (request size).  For every size whose arithmetic does not wrap
    (below [2^64 - 15]), the request size of [mm_malloc] is the size plus
    one header word, rounded up to a multiple of the alignment, and at
    least the minimum block size: it covers the payload and the header,
    and wastes less than the alignment beyond the minimum. *)
Theorem request_size_rounds_up size :
  0 <= size < 2 ^ 64 - 15 ->
  request_size size
  = Z.max MIN_BLOCK_SIZE
      (ALIGNMENT * ((size + WORD_SIZE + ALIGNMENT - 1) / ALIGNMENT))
  /\ request_size size mod ALIGNMENT = 0
  /\ size + WORD_SIZE <= request_size size
  /\ (MIN_BLOCK_SIZE < request_size size ->
      request_size size < size + WORD_SIZE + ALIGNMENT).
Proof.
  intros Hs. unfold request_size.
  rewrite (wrap64_small (size + WORD_SIZE)) by zlia.
  destruct (Z.leb_spec (size + WORD_SIZE) MIN_BLOCK_SIZE) as [Hle | Hgt].
  - repeat split; zlia.
  - rewrite (wrap64_small (size + WORD_SIZE + ALIGNMENT - 1)) by zlia.
    rewrite wrap64_small by zlia. repeat split; zlia.
Qed.

Lemma request_size_rounds_up_witness :
  0 <= 100 < 2 ^ 64 - 15
  /\ (request_size 100
      = Z.max MIN_BLOCK_SIZE
          (ALIGNMENT * ((100 + WORD_SIZE + ALIGNMENT - 1) / ALIGNMENT))
      /\ request_size 100 mod ALIGNMENT = 0
      /\ 100 + WORD_SIZE <= request_size 100
      /\ (MIN_BLOCK_SIZE < request_size 100 ->
          request_size 100 < 100 + WORD_SIZE + ALIGNMENT)).
Proof.
  assert (H : 0 <= 100 < 2 ^ 64 - 15) by (split; [discriminate | reflexivity]).
  split; [exact H|]. exact (request_size_rounds_up 100 H).
Defined.

(** X2 (request size, wrap-around).  For the 15 largest values of
    [size_t] the arithmetic of the request size wraps: the request is 0
    for sizes from [2^64 - 15] to [2^64 - 9], and the minimum block size
    for sizes from [2^64 - 8] on.  The block that [mm_malloc] then
    places is far smaller than the size asked for. *)
Theorem request_size_wraps size :
  2 ^ 64 - 15 <= size < 2 ^ 64 ->
  request_size size = (if size <? 2 ^ 64 - 8 then 0 else MIN_BLOCK_SIZE)
  /\ request_size size < size.
Proof.
  intros Hs. unfold request_size.
  destruct (Z.ltb_spec size (2 ^ 64 - 8)) as [Hlo | Hhi].
  - rewrite (wrap64_small (size + WORD_SIZE)) by zlia.
    replace (size + WORD_SIZE <=? MIN_BLOCK_SIZE) with false
      by (symmetry; apply Z.leb_gt; zlia).
    assert (E : wrap64 (size + WORD_SIZE + ALIGNMENT - 1)
                = size + WORD_SIZE + ALIGNMENT - 1 - 2 ^ 64).
    { unfold wrap64. symmetry. apply Z.mod_unique with (q := 1); zlia. }
    rewrite E.
    replace ((size + WORD_SIZE + ALIGNMENT - 1 - 2 ^ 64) / ALIGNMENT) with 0
      by (symmetry; apply Z.div_small; zlia).
    change (wrap64 (ALIGNMENT * 0)) with 0. split; [reflexivity | zlia].
  - assert (E : wrap64 (size + WORD_SIZE) = size + WORD_SIZE - 2 ^ 64).
    { unfold wrap64. symmetry. apply Z.mod_unique with (q := 1); zlia. }
    rewrite E.
    replace (size + WORD_SIZE - 2 ^ 64 <=? MIN_BLOCK_SIZE) with true
      by (symmetry; apply Z.leb_le; zlia).
    split; [reflexivity | zlia].
Qed.

Lemma request_size_wraps_witness :
  2 ^ 64 - 15 <= 2 ^ 64 - 10 < 2 ^ 64
  /\ (request_size (2 ^ 64 - 10)
      = (if 2 ^ 64 - 10 <? 2 ^ 64 - 8 then 0 else MIN_BLOCK_SIZE)
      /\ request_size (2 ^ 64 - 10) < 2 ^ 64 - 10).
Proof.
  assert (H : 2 ^ 64 - 15 <= 2 ^ 64 - 10 < 2 ^ 64)
    by (split; [discriminate | reflexivity]).
  split; [exact H|]. exact (request_size_wraps (2 ^ 64 - 10) H).
Defined.

(** X3 (boundary tags, round trip).  A size that is a multiple of the
    alignment, or-ed with the two tag bits, is read back by [SIZE] and
    by the two tag masks; and [SIZE] rounds any word down to a multiple
    of the alignment. *)
Theorem tags_round_trip s (pu u : bool) :
  0 <= s < 2 ^ 63 -> s mod ALIGNMENT = 0 ->
  let w := Z.lor (Z.lor s (if pu then TAG_PRECEDING_USED else 0))
             (if u then TAG_USED else 0) in
  SIZE w = s
  /\ Z.land w TAG_USED = (if u then TAG_USED else 0)
  /\ Z.land w TAG_PRECEDING_USED = (if pu then TAG_PRECEDING_USED else 0)
  /\ forall x, 0 <= x < 2 ^ 64 -> SIZE x = x - x mod ALIGNMENT.
Proof.
  intros Hs H8 w.
  assert (Ew : w = tagword s pu u).
  { unfold w. rewrite (lor_size_mask s Hs H8 pu).
    destruct u; [apply tagword_set_used; assumption|].
    rewrite Z.lor_0_r. reflexivity. }
  rewrite Ew. split; [apply SIZE_tagword; assumption|].
  split; [apply tagword_used; assumption|].
  split; [apply tagword_preceding_used; assumption|].
  intros x Hx. unfold SIZE. rewrite land_wrap_lnot by exact Hx.
  change (ALIGNMENT - 1) with 7. change ALIGNMENT with 8.
  change 7 with (Z.ones 3). rewrite Z.land_ones by lia. reflexivity.
Qed.

Lemma tags_round_trip_witness :
  0 <= 48 < 2 ^ 63 /\ 48 mod ALIGNMENT = 0
  /\ (let w := Z.lor (Z.lor 48 (if true then TAG_PRECEDING_USED else 0))
                 (if false then TAG_USED else 0) in
      SIZE w = 48
      /\ Z.land w TAG_USED = (if false then TAG_USED else 0)
      /\ Z.land w TAG_PRECEDING_USED = (if true then TAG_PRECEDING_USED else 0)
      /\ forall x, 0 <= x < 2 ^ 64 -> SIZE x = x - x mod ALIGNMENT).
Proof.
  assert (H1 : 0 <= 48 < 2 ^ 63) by (split; [discriminate | reflexivity]).
  assert (H2 : 48 mod ALIGNMENT = 0) by reflexivity.
  split; [exact H1|]. split; [exact H2|].
  exact (tags_round_trip 48 true false H1 H2).
Defined.



(** ** Initialisation, bounds and failures *)

(** X5 ([mm_init]).  On a fresh simulator, [mm_init] ends the process
    with status 1 when fewer than 48 bytes are available.  Otherwise it
    returns 0 and the heap has 48 bytes: the head slot, one free block
    of the minimum size that is the only block of the free list, with
    null links and a footer equal to its header, and the end-of-heap
    word tagged used. *)
Theorem mm_init_first_heap fuel m lo max ps :
  env_ok (mem_init m lo max ps) ->
  max - lo <= Z.of_nat fuel ->
  let init_size := WORD_SIZE + MIN_BLOCK_SIZE + WORD_SIZE in
  (max < lo + init_size -> mm_init (mem_init m lo max ps) = Exit 1)
  /\ (lo + init_size <= max ->
      exists st,
        mm_init (mem_init m lo max ps) = Ok (st, 0)
        /\ mem_max_addr st = max /\ pagesize st = ps
        /\ heap_view fuel st
           = Ok (mkView lo (lo + init_size - 1) (lo + WORD_SIZE)
                   [mkRow (lo + WORD_SIZE) MIN_BLOCK_SIZE TAG_PRECEDING_USED 0
                      (Some (NULL, NULL))]
                   [(lo + MIN_BLOCK_SIZE, MIN_BLOCK_SIZE + TAG_PRECEDING_USED)]
                   TAG_USED [lo + WORD_SIZE])).
Proof.
  intros Henv Hfuel init_size. split.
  - intros Hfull. unfold mm_init, mem_sbrk. simpl mem_brk. simpl mem_max_addr.
    change (wrap64 (WORD_SIZE + MIN_BLOCK_SIZE + WORD_SIZE)) with init_size.
    replace (lo + init_size >? max) with true
      by (symmetry; rewrite Z.gtb_ltb; apply Z.ltb_lt; exact Hfull).
    reflexivity.
  - intros Hroom.
    destruct (mm_init_spec m lo max ps Henv) as [E | (st & E & HInv & A1 & A2 & A3)].
    { exfalso. unfold init_size in Hroom.
      destruct (mm_init_Exit _ _ E) as (_ & [Hfull | Habs]).
      - cbn [mem_init mem_max_addr mem_brk] in Hfull. lia.
      - destruct Henv as (E1 & E2 & E3 & E4 & E5 & E6).
        cbn [mem_init mem_max_addr mem_brk mem_start_brk] in Habs, E1, E3, E4.
        rewrite wrap64_minus1 in Habs. zlia. }
    simpl in A1, A2, A3.
    exists st. split; [exact E|]. split; [exact A2|]. split; [exact A3|].
    assert (Hfuel' : mem_max_addr st - mem_start_brk st <= Z.of_nat fuel)
      by (rewrite A1, A2; exact Hfuel).
    rewrite (heap_view_spec _ _ _ _ HInv Hfuel').
    pose proof (inv_chain _ _ _ HInv) as Hch. rewrite A1 in Hch.
    simpl in Hch. destruct Hch as (_ & _ & _ & Hbrk).
    pose proof (inv_flist _ _ _ HInv) as Hfl. simpl in Hfl.
    destruct Hfl as (_ & _ & Hprev & Hnext).
    pose proof (inv_tagged _ _ _ HInv) as Htag. simpl in Htag.
    destruct Htag as (_ & Hftr & _). specialize (Hftr eq_refl).
    unfold mem_heap_lo, mem_heap_hi. rewrite A1.
    replace (mem_brk st - 1) with (lo + init_size - 1) by (unfold init_size; lia).
    cbn [hd rows_of last_used]. unfold footers.
    cbn [filter row_used]. change (0 =? 0) with true. cbv iota.
    cbn [map row_block row_size].
    rewrite Hprev, Hnext, Hftr.
    replace (lo + WORD_SIZE + MIN_BLOCK_SIZE - WORD_SIZE) with (lo + MIN_BLOCK_SIZE)
      by lia.
    reflexivity.
Qed.

Lemma mm_init_first_heap_witness :
  env_ok (mem_init (fun _ => 0) ex_lo ex_max ex_pagesize)
  /\ ex_max - ex_lo <= Z.of_nat ex_fuel
  /\ (let init_size := WORD_SIZE + MIN_BLOCK_SIZE + WORD_SIZE in
      (ex_max < ex_lo + init_size ->
       mm_init (mem_init (fun _ => 0) ex_lo ex_max ex_pagesize) = Exit 1)
      /\ (ex_lo + init_size <= ex_max ->
          exists st,
            mm_init (mem_init (fun _ => 0) ex_lo ex_max ex_pagesize) = Ok (st, 0)
            /\ mem_max_addr st = ex_max /\ pagesize st = ex_pagesize
            /\ heap_view ex_fuel st
               = Ok (mkView ex_lo (ex_lo + init_size - 1) (ex_lo + WORD_SIZE)
                       [mkRow (ex_lo + WORD_SIZE) MIN_BLOCK_SIZE TAG_PRECEDING_USED 0
                          (Some (NULL, NULL))]
                       [(ex_lo + MIN_BLOCK_SIZE, MIN_BLOCK_SIZE + TAG_PRECEDING_USED)]
                       TAG_USED [ex_lo + WORD_SIZE]))).
Proof.
  assert (H1 : env_ok (mem_init (fun _ => 0) ex_lo ex_max ex_pagesize))
    by (apply (ex_env_ok (fun _ => 0))).
  assert (H2 : ex_max - ex_lo <= Z.of_nat ex_fuel) by (vm_compute; discriminate).
  split; [exact H1|]. split; [exact H2|].
  exact (mm_init_first_heap ex_fuel (fun _ => 0) ex_lo ex_max ex_pagesize H1 H2).
Defined.

(** X6 ([mm_free] of a pointer outside the heap).  [mm_free] reads the
    word before its argument first: when that word is misaligned or not
    inside the heap, the call is an invalid access.  In particular
    [mm_free(NULL)] is no no-op. *)
Theorem mm_free_outside_heap_faults fuel st p :
  p - WORD_SIZE < mem_heap_lo st \/ mem_heap_hi st < p - 1 \/ p mod WORD_SIZE <> 0 ->
  mm_free fuel st p = Fault.
Proof.
  intros Hp. unfold mm_free.
  rewrite ptr_sub_small by zlia. unfold off_size_and_tags. rewrite Z.add_0_r.
  rewrite load_fault; [reflexivity|].
  unfold valid_access, mem_heap_lo, mem_heap_hi in *.
  destruct Hp as [Hp | [Hp | Hp]].
  - replace (mem_start_brk st <=? p - WORD_SIZE) with false
      by (symmetry; apply Z.leb_gt; exact Hp). reflexivity.
  - replace (p - WORD_SIZE + WORD_SIZE <=? mem_brk st) with false
      by (symmetry; apply Z.leb_gt; lia). apply andb_false_intro1, andb_false_r.
  - replace ((p - WORD_SIZE) mod WORD_SIZE =? 0) with false
      by (symmetry; apply Z.eqb_neq; zlia). apply andb_false_r.
Qed.

Lemma mm_free_outside_heap_faults_witness :
  (NULL - WORD_SIZE < mem_heap_lo ex_init \/ mem_heap_hi ex_init < NULL - 1
   \/ NULL mod WORD_SIZE <> 0)
  /\ mm_free ex_fuel ex_init NULL = Fault.
Proof.
  assert (H : NULL - WORD_SIZE < mem_heap_lo ex_init
              \/ mem_heap_hi ex_init < NULL - 1 \/ NULL mod WORD_SIZE <> 0)
    by (left; reflexivity).
  split; [exact H|]. exact (mm_free_outside_heap_faults ex_fuel ex_init NULL H).
Defined.

(** X7 (the bounds of the heap).  On every heap, well-formed or not: a
    call of [mm_free] that returns leaves the bounds of the heap as they
    are, and a call of [mm_malloc] that returns leaves the start, the
    limit and the page size as they are, and the break where it was or
    further up by the bytes of the pages it asked for, never beyond the
    limit of the simulator.  The heap never shrinks. *)
Theorem heap_bounds_only_grow fuel st :
  (forall p st', mm_free fuel st p = Ok st' -> same_sim st st')
  /\ (forall size st' p,
        mm_malloc fuel st size = Ok (st', p) ->
        let total := wrap64 (wrap64 (request_size size + pagesize st - 1)
                             / pagesize st * pagesize st) in
        same_consts st st'
        /\ mem_brk st <= mem_brk st'
        /\ (mem_brk st' = mem_brk st
            \/ (mem_brk st' = mem_brk st + total
                /\ mem_brk st' <= mem_max_addr st'))).
Proof.
  split.
  - intros p st'. apply mm_free_sim.
  - intros size st' p H total.
    destruct (mm_malloc_Ok _ _ _ _ _ H) as (Hc & Hb). fold total in Hb.
    pose proof (wrap64_range (wrap64 (request_size size + pagesize st - 1)
                              / pagesize st * pagesize st)) as Hr.
    fold total in Hr. destruct Hc as (K1 & K2 & K3).
    split; [repeat split; assumption|].
    destruct Hb as [Hb | (Hb & Hroom)].
    + split; [lia | left; exact Hb].
    + split; [lia|]. right. split; [exact Hb | lia].
Qed.

(** ** What a client gets from [mm_malloc] and [mm_free] *)

(** X8 (the block of [mm_malloc]).  After a valid sequence of calls, a
    call of [mm_malloc] with a non-zero size that returns gives a
    pointer that is not null and aligned; the payload lies inside the
    heap, behind the head slot and before the end-of-heap word; the
    header before it is tagged used and its size is the request size or
    up to one minimum block (less one alignment) more, and the whole
    block ends before the end-of-heap word. *)
Theorem mm_malloc_returns_usable_block fuel st live size st' p :
  reachable fuel st live ->
  valid_size size -> size <> 0 ->
  mm_malloc fuel st size = Ok (st', p) ->
  let t := SIZE (mem st' (p - WORD_SIZE)) in
  p <> NULL /\ p mod ALIGNMENT = 0
  /\ mem_heap_lo st' + 2 * WORD_SIZE <= p
  /\ p + size <= p - WORD_SIZE + t
  /\ p - WORD_SIZE + t <= mem_heap_hi st' - WORD_SIZE + 1
  /\ Z.land (mem st' (p - WORD_SIZE)) TAG_USED = TAG_USED
  /\ request_size size <= t <= request_size size + MIN_BLOCK_SIZE - ALIGNMENT.
Proof.
  intros Hreach Hsize Hnz Hm t.
  destruct (reachable_Inv _ _ _ Hreach) as (bs & fl & HInv & _ & Hfuel).
  destruct (request_size_spec size Hsize) as (R1 & R2 & R3).
  destruct (mm_malloc_run fuel _ _ _ size HInv Hsize Hnz Hfuel)
    as [(_ & _ & E) | (st1 & bs' & fl' & c & t' & E & HInv' & Ht & Hin & _)];
    rewrite E in Hm; [discriminate|]. inversion Hm; subst st1 p. clear Hm.
  pose proof HInv' as [Henv Hbrk Hch Htag _ _ _ _ _].
  pose proof Henv as (E1 & E2 & E3 & E4 & E5 & E6).
  pose proof (chain_In _ _ _ _ _ _ Hch Hin) as (I1 & I2 & I3 & I4).
  pose proof (block_node_ok _ _ _ _ _ E2 Hch Hin) as (_ & _ & Hal).
  destruct (tagged_In _ _ _ _ _ _ Htag Hin) as (pu & Hhdr & _).
  assert (Htr : 0 <= t' < 2 ^ 63) by zlia.
  assert (Et : t = t').
  { unfold t. replace (c + WORD_SIZE - WORD_SIZE) with c by lia.
    rewrite Hhdr. apply SIZE_tagword; assumption. }
  rewrite Et. replace (c + WORD_SIZE - WORD_SIZE) with c by lia.
  rewrite Hhdr, tagword_used by assumption.
  unfold mem_heap_lo, mem_heap_hi.
  repeat split; try zlia.
Qed.

Lemma mm_malloc_returns_usable_block_witness :
  reachable ex_fuel ex_init [] /\ valid_size 16 /\ 16 <> 0
  /\ mm_malloc ex_fuel ex_init 16 = Ok (ex_full, 65552)
  /\ (let t := SIZE (mem ex_full (65552 - WORD_SIZE)) in
      65552 <> NULL /\ 65552 mod ALIGNMENT = 0
      /\ mem_heap_lo ex_full + 2 * WORD_SIZE <= 65552
      /\ 65552 + 16 <= 65552 - WORD_SIZE + t
      /\ 65552 - WORD_SIZE + t <= mem_heap_hi ex_full - WORD_SIZE + 1
      /\ Z.land (mem ex_full (65552 - WORD_SIZE)) TAG_USED = TAG_USED
      /\ request_size 16 <= t <= request_size 16 + MIN_BLOCK_SIZE - ALIGNMENT).
Proof.
  assert (H2 : valid_size 16) by (unfold valid_size; lia).
  assert (H3 : 16 <> 0) by discriminate.
  assert (H4 : mm_malloc ex_fuel ex_init 16 = Ok (ex_full, 65552))
    by (vm_compute; reflexivity).
  split; [exact ex_init_reachable|]. split; [exact H2|]. split; [exact H3|].
  split; [exact H4|].
  exact (mm_malloc_returns_usable_block ex_fuel ex_init [] 16 ex_full 65552
           ex_init_reachable H2 H3 H4).
Defined.

(** X9 (no overlap).  The block that [mm_malloc] returns overlaps no
    payload that the client holds: each lies entirely before the header
    of the other. *)
Theorem mm_malloc_block_is_fresh fuel st live size st' p q sz :
  reachable fuel st live ->
  valid_size size -> size <> 0 ->
  mm_malloc fuel st size = Ok (st', p) ->
  In (q, sz) live ->
  p + size <= q - WORD_SIZE \/ q + sz <= p - WORD_SIZE.
Proof.
  intros Hreach Hsize Hnz Hm Hlive.
  destruct (reachable_Inv _ _ _ Hreach) as (bs & fl & HInv & (Hl1 & _) & Hfuel).
  destruct (request_size_spec size Hsize) as (R1 & R2 & R3).
  destruct (mm_malloc_run fuel _ _ _ size HInv Hsize Hnz Hfuel)
    as [(_ & _ & E) | (st1 & bs' & fl' & c & t & E & HInv' & Ht & Hin & Hnew & Hup & _)];
    rewrite E in Hm; [discriminate|]. inversion Hm; subst st1 p. clear Hm.
  destruct (Hl1 _ _ Hlive) as (t' & Hq & Hsz).
  assert (Hq' : In (q - WORD_SIZE, t', true) bs').
  { apply In_used_blocks, Hup. right. exact Hq. }
  destruct (chain_disjoint _ _ _ _ _ _ _ _ _ (inv_chain _ _ _ HInv') Hin Hq')
    as [Heq | [Hd | Hd]].
  - exfalso. injection Heq as Ec Et. apply (Hnew t'). rewrite Ec. exact Hq.
  - left. lia.
  - right. lia.
Qed.

Lemma mm_malloc_block_is_fresh_witness :
  reachable ex_fuel ex_full [(65552, 16)] /\ valid_size 16 /\ 16 <> 0
  /\ (exists st', mm_malloc ex_fuel ex_full 16 = Ok (st', 65584))
  /\ In (65552, 16) [(65552, 16)]
  /\ (65584 + 16 <= 65552 - WORD_SIZE \/ 65552 + 16 <= 65584 - WORD_SIZE).
Proof.
  assert (H2 : valid_size 16) by (unfold valid_size; lia).
  assert (H3 : 16 <> 0) by discriminate.
  assert (H4 : exists st', mm_malloc ex_fuel ex_full 16 = Ok (st', 65584))
    by (eexists; vm_compute; reflexivity).
  assert (H5 : In (65552, 16) [(65552, 16)]) by (left; reflexivity).
  split; [exact ex_full_reachable|]. split; [exact H2|]. split; [exact H3|].
  split; [exact H4|]. split; [exact H5|].
  destruct H4 as (st' & H4).
  exact (mm_malloc_block_is_fresh ex_fuel ex_full [(65552, 16)] 16 st' 65584 65552 16
           ex_full_reachable H2 H3 H4 H5).
Defined.

Lemma ex_two_reachable : reachable ex_fuel ex_two [(65584, 16); (65552, 16)].
Proof.
  apply (reach_malloc ex_fuel ex_full [(65552, 16)] 16 ex_two 65584).
  - exact ex_full_reachable.
  - unfold valid_size. lia.
  - vm_compute. reflexivity.
Qed.

(** X10 ([mm_malloc] keeps the payloads).  A call of [mm_malloc] that
    returns changes no word of the payloads that the client holds. *)
Theorem mm_malloc_keeps_payloads fuel st live size st' p q sz x :
  reachable fuel st live ->
  valid_size size ->
  mm_malloc fuel st size = Ok (st', p) ->
  In (q, sz) live -> q <= x < q + sz ->
  mem st' x = mem st x.
Proof.
  intros Hreach Hsize Hm Hlive Hx.
  destruct (Z.eq_dec size 0) as [-> | Hnz].
  { unfold mm_malloc in Hm. simpl in Hm. inversion Hm. reflexivity. }
  destruct (reachable_Inv _ _ _ Hreach) as (bs & fl & HInv & (Hl1 & _) & Hfuel).
  destruct (mm_malloc_run fuel _ _ _ size HInv Hsize Hnz Hfuel)
    as [(_ & _ & E) | (st1 & bs' & fl' & c & t & E & _ & _ & _ & _ & _ & Hkept & _)];
    rewrite E in Hm; [discriminate|]. inversion Hm; subst st1 p. clear Hm.
  destruct (Hl1 _ _ Hlive) as (t' & Hq & Hsz).
  apply Hkept. exists (q - WORD_SIZE), t'. split; [exact Hq | zlia].
Qed.

Lemma mm_malloc_keeps_payloads_witness :
  reachable ex_fuel ex_full [(65552, 16)] /\ valid_size 16
  /\ mm_malloc ex_fuel ex_full 16 = Ok (ex_two, 65584)
  /\ In (65552, 16) [(65552, 16)] /\ 65552 <= 65560 < 65552 + 16
  /\ mem ex_two 65560 = mem ex_full 65560.
Proof.
  assert (H2 : valid_size 16) by (unfold valid_size; lia).
  assert (H3 : mm_malloc ex_fuel ex_full 16 = Ok (ex_two, 65584))
    by (vm_compute; reflexivity).
  assert (H4 : In (65552, 16) [(65552, 16)]) by (left; reflexivity).
  assert (H5 : 65552 <= 65560 < 65552 + 16) by lia.
  split; [exact ex_full_reachable|]. split; [exact H2|]. split; [exact H3|].
  split; [exact H4|]. split; [exact H5|].
  exact (mm_malloc_keeps_payloads ex_fuel ex_full [(65552, 16)] 16 ex_two 65584
           65552 16 65560 ex_full_reachable H2 H3 H4 H5).
Defined.

(** X11 ([mm_free] keeps the other payloads).  A call of [mm_free] on a
    pointer that the client holds changes no word of the other payloads
    that the client holds. *)
Theorem mm_free_keeps_other_payloads fuel st live p sz0 st' q sz x :
  reachable fuel st live ->
  In (p, sz0) live ->
  mm_free fuel st p = Ok st' ->
  In (q, sz) live -> q <> p -> q <= x < q + sz ->
  mem st' x = mem st x.
Proof.
  intros Hreach Hp Hf Hlive Hne Hx.
  destruct (reachable_Inv _ _ _ Hreach) as (bs & fl & HInv & (Hl1 & _) & Hfuel).
  destruct (Inv_fuel _ _ _ _ HInv Hfuel) as (F2 & _).
  destruct (Hl1 _ _ Hp) as (s & Hs & _). apply In_used_blocks in Hs.
  destruct (mm_free_run fuel _ _ _ _ _ HInv Hs F2)
    as (st1 & bs' & fl' & c & n & E & _ & _ & Hup & _ & _ & _ & _ & Hkept).
  rewrite E in Hf. inversion Hf; subst st1. clear Hf.
  destruct (Hl1 _ _ Hlive) as (t' & Hq & Hsz).
  apply Hkept. exists (q - WORD_SIZE), t'. split; [|zlia].
  apply Hup. split; [exact Hq|]. cbn [fst]. lia.
Qed.

Lemma mm_free_keeps_other_payloads_witness :
  reachable ex_fuel ex_two [(65584, 16); (65552, 16)]
  /\ In (65584, 16) [(65584, 16); (65552, 16)]
  /\ (exists st',
        mm_free ex_fuel ex_two 65584 = Ok st'
        /\ In (65552, 16) [(65584, 16); (65552, 16)] /\ 65552 <> 65584
        /\ 65552 <= 65560 < 65552 + 16
        /\ mem st' 65560 = mem ex_two 65560).
Proof.
  assert (H2 : In (65584, 16) [(65584, 16); (65552, 16)]) by (left; reflexivity).
  assert (H3 : exists st', mm_free ex_fuel ex_two 65584 = Ok st')
    by (eexists; vm_compute; reflexivity).
  assert (H4 : In (65552, 16) [(65584, 16); (65552, 16)])
    by (right; left; reflexivity).
  assert (H5 : 65552 <> 65584) by discriminate.
  assert (H6 : 65552 <= 65560 < 65552 + 16) by lia.
  split; [exact ex_two_reachable|]. split; [exact H2|].
  destruct H3 as (st' & H3). exists st'.
  split; [exact H3|]. split; [exact H4|]. split; [exact H5|]. split; [exact H6|].
  exact (mm_free_keeps_other_payloads ex_fuel ex_two _ 65584 16 st' 65552 16 65560
           ex_two_reachable H2 H3 H4 H5 H6).
Defined.

(** ** Placement and failure *)

(** X12 (out of memory).  After a valid sequence of calls, [mm_malloc]
    of a non-zero size ends the process exactly when no block of the
    free list fits the request and the simulator cannot supply the
    pages of the request; the exit status is 0, and [mm_malloc] never
    returns null then. *)
Theorem mm_malloc_exits_without_room fuel st live size :
  reachable fuel st live ->
  valid_size size -> size <> 0 ->
  let req := request_size size in
  let total := (req + pagesize st - 1) / pagesize st * pagesize st in
  (mm_malloc fuel st size = Exit 0
   <-> search_free_list fuel st req = Ok NULL
       /\ mem_max_addr st < mem_brk st + total)
  /\ (forall s, mm_malloc fuel st size = Exit s -> s = 0)
  /\ (forall st' p, mm_malloc fuel st size = Ok (st', p) -> p <> NULL).
Proof.
  intros Hreach Hsize Hnz req total.
  destruct (reachable_Inv _ _ _ Hreach) as (bs & fl & HInv & _ & Hfuel).
  destruct (Inv_fuel _ _ _ _ HInv Hfuel) as (_ & Ffl & _).
  pose proof (search_free_list_spec _ _ req _ (Inv_FL _ _ _ HInv) Ffl) as Hs.
  destruct (mm_malloc_run fuel _ _ _ size HInv Hsize Hnz Hfuel)
    as [(Hc0 & Hfull & E)
       | (st1 & bs' & fl' & c & t & E & HInv' & _ & Hin & _ & _ & _ & Hcase)];
    fold req in Hc0 || fold req in Hcase; fold req total in Hfull || idtac.
  - rewrite E. split; [|split].
    + split; [intros _ | reflexivity]. rewrite Hs, Hc0. split; [reflexivity | exact Hfull].
    + intros s Hx. inversion Hx. reflexivity.
    + intros st' p Hx. discriminate.
  - rewrite E. split; [|split].
    + split; [discriminate|]. intros (Hn & Hfull). exfalso.
      rewrite Hs in Hn. inversion Hn as [Hn'].
      fold total in Hcase.
      destruct Hcase as [(Hne & _) | (_ & Hroom & _)]; [congruence | lia].
    + intros s Hx. discriminate.
    + intros st' p Hx. inversion Hx; subst.
      pose proof (chain_In _ _ _ _ _ _ (inv_chain _ _ _ HInv') Hin) as (I1 & _).
      pose proof (inv_env _ _ _ HInv') as (E1 & _). zlia.
Qed.

Lemma mm_malloc_exits_without_room_witness :
  reachable ex_fuel ex_full [(65552, 16)] /\ valid_size 16 /\ 16 <> 0
  /\ (let req := request_size 16 in
      let total := (req + pagesize ex_full - 1) / pagesize ex_full
                   * pagesize ex_full in
      (mm_malloc ex_fuel ex_full 16 = Exit 0
       <-> search_free_list ex_fuel ex_full req = Ok NULL
           /\ mem_max_addr ex_full < mem_brk ex_full + total)
      /\ (forall s, mm_malloc ex_fuel ex_full 16 = Exit s -> s = 0)
      /\ (forall st' p, mm_malloc ex_fuel ex_full 16 = Ok (st', p) -> p <> NULL)).
Proof.
  assert (H2 : valid_size 16) by (unfold valid_size; lia).
  assert (H3 : 16 <> 0) by discriminate.
  split; [exact ex_full_reachable|]. split; [exact H2|]. split; [exact H3|].
  exact (mm_malloc_exits_without_room ex_fuel ex_full [(65552, 16)] 16
           ex_full_reachable H2 H3).
Defined.

(** X13 (first fit, at the interface).  After a valid sequence of calls,
    when the scan of the free list finds a block for the request size of
    a non-zero size, [mm_malloc] returns the payload of that block, and
    the bounds of the heap stay as they are. *)
Theorem mm_malloc_takes_first_fit fuel st live size c :
  reachable fuel st live ->
  valid_size size -> size <> 0 ->
  search_free_list fuel st (request_size size) = Ok c -> c <> NULL ->
  exists st', mm_malloc fuel st size = Ok (st', c + WORD_SIZE) /\ same_sim st st'.
Proof.
  intros Hreach Hsize Hnz Hscan Hc.
  destruct (reachable_Inv _ _ _ Hreach) as (bs & fl & HInv & _ & Hfuel).
  destruct (Inv_fuel _ _ _ _ HInv Hfuel) as (_ & Ffl & _).
  rewrite (search_free_list_spec _ _ _ _ (Inv_FL _ _ _ HInv) Ffl) in Hscan.
  assert (Hc0 : first_fit (mem st) fl (request_size size) = c) by congruence.
  destruct (mm_malloc_run fuel _ _ _ size HInv Hsize Hnz Hfuel)
    as [(Hn & _) | (st' & bs' & fl' & c' & t & E & _ & _ & _ & _ & _ & _ & Hcase)].
  - congruence.
  - destruct Hcase as [(_ & Ec & Hsim) | (Hn & _)]; [|congruence].
    exists st'. rewrite E, Ec, Hc0. auto.
Qed.

Lemma mm_malloc_takes_first_fit_witness :
  reachable ex_fuel ex_init [] /\ valid_size 16 /\ 16 <> 0
  /\ search_free_list ex_fuel ex_init (request_size 16) = Ok 65544
  /\ 65544 <> NULL
  /\ exists st',
       mm_malloc ex_fuel ex_init 16 = Ok (st', 65544 + WORD_SIZE)
       /\ same_sim ex_init st'.
Proof.
  assert (H2 : valid_size 16) by (unfold valid_size; lia).
  assert (H3 : 16 <> 0) by discriminate.
  assert (H4 : search_free_list ex_fuel ex_init (request_size 16) = Ok 65544)
    by (vm_compute; reflexivity).
  assert (H5 : 65544 <> NULL) by discriminate.
  split; [exact ex_init_reachable|]. split; [exact H2|]. split; [exact H3|].
  split; [exact H4|]. split; [exact H5|].
  exact (mm_malloc_takes_first_fit ex_fuel ex_init [] 16 65544
           ex_init_reachable H2 H3 H4 H5).
Defined.

(** X14 (freed memory is reused first).  After [mm_free] of a payload of
    [sz] bytes, the free block that contains the freed block heads the
    free list, and the next [mm_malloc] of a non-zero size of at most
    [sz] bytes returns the payload of that head: a pointer that is not
    above the freed payload, without growing the heap. *)
Theorem freed_block_is_reused_first fuel st live p sz st1 size :
  reachable fuel st live ->
  In (p, sz) live ->
  mm_free fuel st p = Ok st1 ->
  valid_size size -> size <> 0 -> size <= sz ->
  exists c st2,
    get_FREE_LIST_HEAD st1 = Ok c
    /\ mm_malloc fuel st1 size = Ok (st2, c + WORD_SIZE)
    /\ c + WORD_SIZE <= p
    /\ p <= c + SIZE (mem st1 c)
    /\ same_sim st1 st2.
Proof.
  intros Hreach Hp Hf Hsize Hnz Hle.
  destruct (reachable_Inv _ _ _ Hreach) as (bs & fl & HInv & (Hl1 & _) & Hfuel).
  destruct (Inv_fuel _ _ _ _ HInv Hfuel) as (F2 & _).
  destruct (Hl1 _ _ Hp) as (s & Hs & Hsz). apply In_used_blocks in Hs.
  pose proof (chain_In _ _ _ _ _ _ (inv_chain _ _ _ HInv) Hs) as (J1 & J2 & J3 & J4).
  destruct (mm_free_run fuel _ _ _ _ _ HInv Hs F2)
    as (st' & bs1 & fl1 & c & n & E & HInv1 & Hsim & _ & Hhd & Hcin & Hca & Hcs & _).
  rewrite E in Hf. inversion Hf; subst st'. clear Hf.
  destruct Hsim as (S1 & S2 & S3 & S4).
  assert (Hfuel1 : mem_max_addr st1 - mem_start_brk st1 <= Z.of_nat fuel)
    by (rewrite S1, S3; exact Hfuel).
  pose proof HInv1 as [Henv1 Hbrk1 Hch1 Htag1 _ Hna1 Hfl1 _ Hfree1].
  pose proof Henv1 as (E1 & E2 & E3 & E4 & E5 & E6).
  pose proof (chain_In _ _ _ _ _ _ Hch1 Hcin) as (I1 & I2 & I3 & I4).
  assert (Hnr : 0 <= n < 2 ^ 63) by zlia.
  assert (Hc : mem st1 c = tagword n true false).
  { apply (tagged_free _ _ _ _ _ Htag1 Hna1 Hcin). }
  assert (Hreq : request_size size <= n).
  { apply (Z.le_trans _ s); [|lia].
    apply request_size_fits; auto. lia. }
  assert (Hfit : first_fit (mem st1) fl1 (request_size size) = c).
  { assert (Hcfl : In c fl1) by (apply Hfree1, In_free_blocks; eauto).
    destruct fl1 as [|c' fl1]; [contradiction|]. simpl in Hhd. subst c'.
    apply first_fit_hd. rewrite Hc, SIZE_tagword by assumption. exact Hreq. }
  assert (Hcnz : c <> NULL) by zlia.
  destruct (mm_malloc_run fuel _ _ _ size HInv1 Hsize Hnz Hfuel1)
    as [(Hn & _) | (st2 & bs2 & fl2 & c' & t & E2' & _ & _ & _ & _ & _ & _ & Hcase)].
  { congruence. }
  destruct Hcase as [(_ & Ec & Hsim2) | (Hn & _)]; [|congruence].
  exists c, st2. split; [|split; [|split; [|split]]].
  - unfold get_FREE_LIST_HEAD, mem_heap_lo.
    rewrite load_ok by (apply valid_access_intro; zlia).
    rewrite (flist_hd _ _ _ _ Hfl1), Hhd. reflexivity.
  - rewrite E2', Ec, Hfit. reflexivity.
  - lia.
  - rewrite Hc, SIZE_tagword by assumption. zlia.
  - exact Hsim2.
Qed.

Lemma freed_block_is_reused_first_witness :
  reachable ex_fuel ex_two [(65584, 16); (65552, 16)]
  /\ In (65584, 16) [(65584, 16); (65552, 16)]
  /\ exists st1,
       mm_free ex_fuel ex_two 65584 = Ok st1
       /\ valid_size 16 /\ 16 <> 0 /\ 16 <= 16
       /\ exists c st2,
            get_FREE_LIST_HEAD st1 = Ok c
            /\ mm_malloc ex_fuel st1 16 = Ok (st2, c + WORD_SIZE)
            /\ c + WORD_SIZE <= 65584
            /\ 65584 <= c + SIZE (mem st1 c)
            /\ same_sim st1 st2.
Proof.
  assert (H2 : In (65584, 16) [(65584, 16); (65552, 16)]) by (left; reflexivity).
  assert (H3 : exists st1, mm_free ex_fuel ex_two 65584 = Ok st1)
    by (eexists; vm_compute; reflexivity).
  assert (H4 : valid_size 16) by (unfold valid_size; lia).
  assert (H5 : 16 <> 0) by discriminate.
  assert (H6 : 16 <= 16) by lia.
  split; [exact ex_two_reachable|]. split; [exact H2|].
  destruct H3 as (st1 & H3). exists st1.
  split; [exact H3|]. split; [exact H4|]. split; [exact H5|]. split; [exact H6|].
  exact (freed_block_is_reused_first ex_fuel ex_two _ 65584 16 st1 16
           ex_two_reachable H2 H3 H4 H5 H6).
Defined.

(** ** The invariants of the heap *)

(** X15 (I1 and I6: the blocks tile the heap).  After every call of a
    valid sequence of calls, the blocks found by the walk follow each
    other from the word behind the head slot on, every size is a
    multiple of the alignment and at least the minimum block size, the
    bounds of the heap are aligned, and the end-of-heap word has size 0,
    [TAG_USED], and [TAG_PRECEDING_USED] exactly when the last block is
    used. *)
Theorem walk_tiles_heap fuel st live :
  reachable fuel st live ->
  exists v,
    heap_view fuel st = Ok v
    /\ rows_tile (mem_heap_lo st + WORD_SIZE) (view_rows v) = true
    /\ view_end_word v
       = TAG_USED + (if last_row_used true (view_rows v)
                     then TAG_PRECEDING_USED else 0)
    /\ mem_heap_lo st mod ALIGNMENT = 0
    /\ (mem_heap_hi st + 1) mod ALIGNMENT = 0.
Proof.
  intros Hreach.
  destruct (reachable_Inv _ _ _ Hreach) as (bs & fl & HInv & _ & Hfuel).
  rewrite (heap_view_spec _ _ _ _ HInv Hfuel). eexists. split; [reflexivity|].
  cbn [view_rows view_end_word].
  pose proof HInv as [Henv _ Hch _ _ _ _ _ _].
  pose proof Henv as (E1 & E2 & _).
  split; [exact (rows_tile_rows _ _ _ _ _ Hch)|].
  split; [rewrite last_row_used_rows; unfold tagword; destruct (last_used true bs); lia|].
  unfold mem_heap_lo, mem_heap_hi. split; [exact E2|].
  assert (Hlo8 : (mem_start_brk st + WORD_SIZE) mod ALIGNMENT = 0) by zlia.
  destruct (chain_aligned _ _ _ Hlo8 Hch) as (He & _). zlia.
Qed.

Lemma walk_tiles_heap_witness :
  reachable ex_fuel ex_two [(65584, 16); (65552, 16)]
  /\ exists v,
       heap_view ex_fuel ex_two = Ok v
       /\ rows_tile (mem_heap_lo ex_two + WORD_SIZE) (view_rows v) = true
       /\ view_end_word v
          = TAG_USED + (if last_row_used true (view_rows v)
                        then TAG_PRECEDING_USED else 0)
       /\ mem_heap_lo ex_two mod ALIGNMENT = 0
       /\ (mem_heap_hi ex_two + 1) mod ALIGNMENT = 0.
Proof.
  split; [exact ex_two_reachable|].
  exact (walk_tiles_heap ex_fuel ex_two _ ex_two_reachable).
Defined.

(** X16 (I2: the tags agree).  After every call of a valid sequence of
    calls, the [TAG_PRECEDING_USED] of every block found by the walk is
    set exactly when the block before it in memory is used; it is set in
    the first block. *)
Theorem preceding_used_tags_agree fuel st live :
  reachable fuel st live ->
  exists head rows,
    examine_heap fuel st = Ok (head, rows) /\ tags_chained true rows = true.
Proof.
  intros Hreach.
  destruct (reachable_Inv _ _ _ Hreach) as (bs & fl & HInv & _ & Hf).
  destruct (Inv_fuel _ _ _ _ HInv Hf) as (_ & _ & Hbs).
  exists (hd NULL fl), (rows_of (mem st) true bs). split.
  - apply examine_heap_spec; assumption.
  - apply tags_chained_rows.
Qed.

Lemma preceding_used_tags_agree_witness :
  reachable ex_fuel ex_two [(65584, 16); (65552, 16)]
  /\ exists head rows,
       examine_heap ex_fuel ex_two = Ok (head, rows)
       /\ tags_chained true rows = true.
Proof.
  split; [exact ex_two_reachable|].
  exact (preceding_used_tags_agree ex_fuel ex_two _ ex_two_reachable).
Defined.

(** X17 (I3: footers).  After every call of a valid sequence of calls,
    the last word of every free block found by the walk holds the same
    word as its header, and the size in it is the size of the block. *)
Theorem free_blocks_have_footers fuel st live :
  reachable fuel st live ->
  exists head rows,
    examine_heap fuel st = Ok (head, rows)
    /\ forall r, In r rows -> row_used r = 0 ->
         mem st (row_block r + row_size r - WORD_SIZE) = mem st (row_block r)
         /\ SIZE (mem st (row_block r + row_size r - WORD_SIZE)) = row_size r.
Proof.
  intros Hreach.
  destruct (reachable_Inv _ _ _ Hreach) as (bs & fl & HInv & _ & Hf).
  destruct (Inv_fuel _ _ _ _ HInv Hf) as (_ & _ & Hbs).
  exists (hd NULL fl), (rows_of (mem st) true bs). split.
  - apply examine_heap_spec; assumption.
  - intros r Hr Hu.
    destruct (rows_of_In _ _ _ _ Hr) as (a & s & u & pu' & Hin & ->).
    cbn [row_used row_block row_size] in *.
    destruct u; [discriminate|].
    pose proof HInv as [Henv Hbrk Hch Htag _ _ _ _ _].
    pose proof Henv as (E1 & E2 & E3 & _).
    pose proof (chain_In _ _ _ _ _ _ Hch Hin) as (I1 & I2 & I3 & I4).
    destruct (tagged_In _ _ _ _ _ _ Htag Hin) as (pu & Hhdr & Hftr).
    rewrite (Hftr eq_refl), Hhdr. split; [reflexivity|].
    apply SIZE_tagword; zlia.
Qed.

Lemma free_blocks_have_footers_witness :
  reachable ex_fuel ex_two [(65584, 16); (65552, 16)]
  /\ exists head rows,
       examine_heap ex_fuel ex_two = Ok (head, rows)
       /\ forall r, In r rows -> row_used r = 0 ->
            mem ex_two (row_block r + row_size r - WORD_SIZE)
            = mem ex_two (row_block r)
            /\ SIZE (mem ex_two (row_block r + row_size r - WORD_SIZE))
               = row_size r.
Proof.
  split; [exact ex_two_reachable|].
  exact (free_blocks_have_footers ex_fuel ex_two _ ex_two_reachable).
Defined.

(** X18 (I5: the free list).  After every call of a valid sequence of
    calls, the free list holds exactly the free blocks found by the
    walk, each once; the head slot holds its first block; and the links
    of every block of the list point to its neighbours in the list, null
    at both ends. *)
Theorem free_list_is_the_free_blocks fuel st live :
  reachable fuel st live ->
  exists head rows fl,
    examine_heap fuel st = Ok (head, rows)
    /\ free_list fuel st = Ok fl
    /\ head = hd NULL fl
    /\ NoDup fl
    /\ (forall b, In b fl <-> In b (free_rows rows))
    /\ (forall l1 b l2, fl = l1 ++ b :: l2 ->
          exists r, In r rows /\ row_block r = b /\ row_used r = 0
                    /\ row_links r = Some (hd NULL l2, last l1 NULL)).
Proof.
  intros Hreach.
  destruct (reachable_Inv _ _ _ Hreach) as (bs & fl & HInv & _ & Hf).
  destruct (Inv_fuel _ _ _ _ HInv Hf) as (_ & Ffl & Hbs).
  exists (hd NULL fl), (rows_of (mem st) true bs), fl.
  split; [apply examine_heap_spec; assumption|].
  split; [apply free_list_spec; [apply (Inv_FL _ _ _ HInv) | exact Ffl]|].
  split; [reflexivity|]. split; [exact (inv_nodup _ _ _ HInv)|].
  split; [intros b; rewrite free_rows_rows; apply (inv_free _ _ _ HInv)|].
  intros l1 b l2 Efl.
  assert (Hb : In b fl) by (rewrite Efl; apply in_or_app; right; left; reflexivity).
  apply (inv_free _ _ _ HInv), In_free_blocks in Hb. destruct Hb as (s & Hb).
  destruct (rows_of_free_In (mem st) bs b s true Hb) as (pu' & Hrow).
  eexists. split; [exact Hrow|]. cbn [row_block row_used row_links].
  split; [reflexivity|]. split; [reflexivity|].
  pose proof (inv_flist _ _ _ HInv) as Hfl. rewrite Efl in Hfl.
  destruct (flist_mid _ _ _ _ _ _ Hfl) as (Hp & Hn & _). rewrite Hp, Hn. reflexivity.
Qed.

Lemma free_list_is_the_free_blocks_witness :
  reachable ex_fuel ex_two [(65584, 16); (65552, 16)]
  /\ exists head rows fl,
       examine_heap ex_fuel ex_two = Ok (head, rows)
       /\ free_list ex_fuel ex_two = Ok fl
       /\ head = hd NULL fl
       /\ NoDup fl
       /\ (forall b, In b fl <-> In b (free_rows rows))
       /\ (forall l1 b l2, fl = l1 ++ b :: l2 ->
             exists r, In r rows /\ row_block r = b /\ row_used r = 0
                       /\ row_links r = Some (hd NULL l2, last l1 NULL)).
Proof.
  split; [exact ex_two_reachable|].
  exact (free_list_is_the_free_blocks ex_fuel ex_two _ ex_two_reachable).
Defined.



(** X20 (freeing the only block).  When the client holds a single
    payload, [mm_free] of it leaves one free block that spans the heap
    from behind the head slot to the end-of-heap word; it is the only
    block of the free list, its links are null and its footer repeats
    its header. *)
Theorem free_of_only_block_empties_heap fuel st p sz st' :
  reachable fuel st [(p, sz)] ->
  mm_free fuel st p = Ok st' ->
  let lo := mem_heap_lo st in
  let hi := mem_heap_hi st in
  let n := hi + 1 - lo - 2 * WORD_SIZE in
  heap_view fuel st'
  = Ok (mkView lo hi (lo + WORD_SIZE)
          [mkRow (lo + WORD_SIZE) n TAG_PRECEDING_USED 0 (Some (NULL, NULL))]
          [(hi + 1 - 2 * WORD_SIZE, n + TAG_PRECEDING_USED)]
          TAG_USED [lo + WORD_SIZE]).
Proof.
  intros Hreach Hf lo hi n.
  destruct (reachable_Inv _ _ _ Hreach) as (bs & fl & HInv & (Hl1 & Hl2) & Hfuel).
  destruct (Inv_fuel _ _ _ _ HInv Hfuel) as (F2 & _).
  destruct (Hl1 p sz (or_introl eq_refl)) as (s & Hs & _). apply In_used_blocks in Hs.
  pose proof (chain_In _ _ _ _ _ _ (inv_chain _ _ _ HInv) Hs) as (J1 & J2 & J3 & J4).
  destruct (mm_free_run fuel _ _ _ _ _ HInv Hs F2)
    as (st1 & bs' & fl' & c & k & E & HInv' & Hsim & Hup & _).
  rewrite E in Hf. inversion Hf; subst st1. clear Hf.
  destruct Hsim as (S1 & S2 & S3 & S4).
  assert (Hnone : used_blocks bs' = []).
  { apply no_member_nil. intros [a t] Hq. apply Hup in Hq. destruct Hq as (Hq & Hne).
    destruct (Hl2 _ _ Hq) as (size & [Hsize | []]). inversion Hsize. cbn [fst] in Hne. lia. }
  pose proof (all_free_layout _ _ _ (inv_chain _ _ _ HInv') (inv_noadj _ _ _ HInv') Hnone)
    as Ebs.
  rewrite S1, S2 in Ebs.
  replace (mem_start_brk st + WORD_SIZE =? mem_brk st - WORD_SIZE) with false in Ebs
    by (symmetry; apply Z.eqb_neq; zlia).
  assert (Hfuel' : mem_max_addr st' - mem_start_brk st' <= Z.of_nat fuel)
    by (rewrite S1, S3; exact Hfuel).
  assert (Efl : fl' = [mem_start_brk st + WORD_SIZE]).
  { apply NoDup_members_one; [exact (inv_nodup _ _ _ HInv')|].
    intros b. rewrite (inv_free _ _ _ HInv'), Ebs. simpl. intuition. }
  subst bs' fl'.
  rewrite (heap_view_spec _ _ _ _ HInv' Hfuel').
  pose proof (inv_flist _ _ _ HInv') as Hfl. simpl in Hfl.
  destruct Hfl as (_ & _ & Hprev & Hnext).
  pose proof (inv_tagged _ _ _ HInv') as Htag. simpl in Htag.
  destruct Htag as (_ & Hftr & _). specialize (Hftr eq_refl).
  unfold n, lo, hi, mem_heap_lo, mem_heap_hi. rewrite S1, S2.
  cbn [hd rows_of last_used]. unfold footers.
  cbn [filter row_used]. change (0 =? 0) with true. cbv iota.
  cbn [map row_block row_size].
  rewrite Hprev, Hnext, Hftr. unfold tagword.
  replace (mem_brk st - WORD_SIZE - (mem_start_brk st + WORD_SIZE))
    with (mem_brk st - 1 + 1 - mem_start_brk st - 2 * WORD_SIZE) by lia.
  replace (mem_start_brk st + WORD_SIZE
           + (mem_brk st - 1 + 1 - mem_start_brk st - 2 * WORD_SIZE) - WORD_SIZE)
    with (mem_brk st - 1 + 1 - 2 * WORD_SIZE) by lia.
  f_equal. f_equal. f_equal. f_equal. lia.
Qed.

Lemma free_of_only_block_empties_heap_witness :
  reachable ex_fuel ex_full [(65552, 16)]
  /\ exists st',
       mm_free ex_fuel ex_full 65552 = Ok st'
       /\ (let lo := mem_heap_lo ex_full in
           let hi := mem_heap_hi ex_full in
           let n := hi + 1 - lo - 2 * WORD_SIZE in
           heap_view ex_fuel st'
           = Ok (mkView lo hi (lo + WORD_SIZE)
                   [mkRow (lo + WORD_SIZE) n TAG_PRECEDING_USED 0 (Some (NULL, NULL))]
                   [(hi + 1 - 2 * WORD_SIZE, n + TAG_PRECEDING_USED)]
                   TAG_USED [lo + WORD_SIZE])).
Proof.
  assert (H2 : exists st', mm_free ex_fuel ex_full 65552 = Ok st')
    by (eexists; vm_compute; reflexivity).
  split; [exact ex_full_reachable|].
  destruct H2 as (st' & H2). exists st'. split; [exact H2|].
  exact (free_of_only_block_empties_heap ex_fuel ex_full 65552 16 st'
           ex_full_reachable H2).
Defined.

(** ** The operations of the free list *)

(** X21 ([insert_free_block] is LIFO).  On a well-formed free list,
    inserting a block that lies in the heap apart from the blocks of the
    list puts it at the head: the list is the new block followed by the
    old list, a scan for any size that the new block has returns the new
    block, and only the head slot, the two links of the new block and
    the [prev] link of the old head are written. *)
Theorem insert_free_block_is_lifo fuel st l b :
  FL st l -> node_ok st b -> far b l ->
  (length (b :: l) < fuel)%nat ->
  exists st',
    insert_free_block st b = Ok st'
    /\ free_list fuel st' = Ok (b :: l)
    /\ (forall n, n <= SIZE (mem st b) -> search_free_list fuel st' n = Ok b)
    /\ (forall x,
          x <> mem_heap_lo st -> x <> b + off_next -> x <> b + off_prev ->
          (l = [] \/ x <> hd NULL l + off_prev) ->
          mem st' x = mem st x).
Proof.
  intros HFL Hb Hfar Hfuel.
  destruct (insert_free_block_spec _ _ _ HFL Hb Hfar) as (st' & E & _ & HFL').
  exists st'. split; [exact E|].
  split; [apply free_list_spec; assumption|].
  assert (Hfoot : forall x,
            x <> mem_heap_lo st -> x <> b + off_next -> x <> b + off_prev ->
            (l = [] \/ x <> hd NULL l + off_prev) -> mem st' x = mem st x).
  { intros x. apply (insert_free_block_footprint _ _ _ _ _ HFL E). }
  split; [|exact Hfoot].
  intros n Hn. rewrite (search_free_list_spec _ _ n _ HFL' Hfuel). f_equal.
  apply first_fit_hd. rewrite Hfoot; [exact Hn | | | |].
  - destruct Hb as (B1 & _). unfold mem_heap_lo. zlia.
  - zlia.
  - zlia.
  - destruct l as [|h l]; [left; reflexivity | right]. cbn [hd].
    pose proof (far_In _ _ _ Hfar (or_introl eq_refl)). zlia.
Qed.

Lemma insert_free_block_is_lifo_witness :
  FL ex_grown [65576] /\ node_ok ex_grown 65544 /\ far 65544 [65576]
  /\ (length [65544; 65576] < ex_fuel)%nat
  /\ exists st',
       insert_free_block ex_grown 65544 = Ok st'
       /\ free_list ex_fuel st' = Ok [65544; 65576]
       /\ (forall n, n <= SIZE (mem ex_grown 65544) ->
             search_free_list ex_fuel st' n = Ok 65544)
       /\ (forall x,
             x <> mem_heap_lo ex_grown -> x <> 65544 + off_next ->
             x <> 65544 + off_prev ->
             ([65576] = [] \/ x <> hd NULL [65576] + off_prev) ->
             mem st' x = mem ex_grown x).
Proof.
  assert (H2 : node_ok ex_grown 65544)
    by (unfold node_ok; vm_compute; repeat split; discriminate).
  assert (H3 : far 65544 [65576]).
  { constructor; [left; vm_compute; discriminate | constructor]. }
  assert (H4 : (length [65544; 65576] < ex_fuel)%nat)
    by (apply Nat.ltb_lt; vm_compute; reflexivity).
  split; [exact ex_grown_FL|]. split; [exact H2|]. split; [exact H3|].
  split; [exact H4|].
  exact (insert_free_block_is_lifo ex_fuel ex_grown [65576] 65544
           ex_grown_FL H2 H3 H4).
Defined.

(** X22 ([remove_free_block]).  Removing a block of a well-formed free
    list leaves the other blocks in their order, and writes only the
    [next] link of the block before it (the head slot when it is the
    first) and the [prev] link of the block behind it; the links of the
    removed block are not touched. *)
Theorem remove_free_block_unlinks fuel st l1 b l2 :
  FL st (l1 ++ b :: l2) ->
  (length (l1 ++ l2) < fuel)%nat ->
  exists st',
    remove_free_block st b = Ok st'
    /\ free_list fuel st' = Ok (l1 ++ l2)
    /\ (forall x,
          x <> match l1 with
               | [] => mem_heap_lo st
               | _ => last l1 NULL + off_next
               end ->
          (l2 = [] \/ x <> hd NULL l2 + off_prev) ->
          mem st' x = mem st x).
Proof.
  intros HFL Hfuel.
  destruct (remove_free_block_spec _ _ _ _ HFL) as (st' & E & _ & HFL').
  exists st'. split; [exact E|].
  split; [apply free_list_spec; assumption|].
  intros x. apply (remove_free_block_footprint _ _ _ _ _ _ HFL E).
Qed.

Lemma remove_free_block_unlinks_witness :
  FL ex_grown ([] ++ 65576 :: []) /\ (length ([] ++ [] : list Z) < ex_fuel)%nat
  /\ exists st',
       remove_free_block ex_grown 65576 = Ok st'
       /\ free_list ex_fuel st' = Ok ([] ++ [])
       /\ (forall x,
             x <> match ([] : list Z) with
                  | [] => mem_heap_lo ex_grown
                  | _ => last [] NULL + off_next
                  end ->
             (([] : list Z) = [] \/ x <> hd NULL [] + off_prev) ->
             mem st' x = mem ex_grown x).
Proof.
  assert (H2 : (length ([] ++ [] : list Z) < ex_fuel)%nat)
    by (apply Nat.ltb_lt; vm_compute; reflexivity).
  split; [exact ex_grown_FL|]. split; [exact H2|].
  exact (remove_free_block_unlinks ex_fuel ex_grown [] 65576 [] ex_grown_FL H2).
Defined.

(** X23 (insert and remove, round trip).  On a well-formed free list,
    inserting a block and removing it again gives back the list, and the
    heap as it was except for the two links of the block. *)
Theorem insert_then_remove_restores fuel st l b :
  FL st l -> node_ok st b -> far b l ->
  (length l < fuel)%nat ->
  exists st1 st2,
    insert_free_block st b = Ok st1
    /\ remove_free_block st1 b = Ok st2
    /\ free_list fuel st2 = Ok l
    /\ (forall x, x <> b + off_next -> x <> b + off_prev ->
          mem st2 x = mem st x).
Proof.
  intros HFL Hb Hfar Hfuel.
  destruct (insert_free_block_spec _ _ _ HFL Hb Hfar) as (st1 & E1 & (Hsim1 & _) & HFL1).
  destruct (remove_free_block_spec st1 [] b l HFL1) as (st2 & E2 & (Hsim2 & _) & HFL2).
  exists st1, st2. split; [exact E1|]. split; [exact E2|].
  split; [apply free_list_spec; assumption|].
  intros x X2 X3.
  destruct Hsim1 as (S1 & _). destruct Hsim2 as (T1 & _).
  destruct (Z.eq_dec x (mem_start_brk st)) as [-> | Hlo].
  { rewrite <- S1 at 1. rewrite <- T1.
    rewrite (flist_hd _ _ _ _ (fl_list _ _ HFL2)).
    rewrite (flist_hd _ _ _ _ (fl_list _ _ HFL)). reflexivity. }
  assert (Hstep : (l = [] \/ x <> hd NULL l + off_prev) -> mem st2 x = mem st x).
  { intros X4.
    rewrite (remove_free_block_footprint st1 [] b l st2 x HFL1 E2).
    - apply (insert_free_block_footprint _ _ _ _ _ HFL E1); auto.
    - unfold mem_heap_lo. rewrite S1. exact Hlo.
    - exact X4. }
  destruct l as [|h l]; [apply Hstep; left; reflexivity|].
  destruct (Z.eq_dec x (h + off_prev)) as [-> | Hh];
    [|apply Hstep; right; exact Hh].
  pose proof (fl_list _ _ HFL2) as L2. pose proof (fl_list _ _ HFL) as L0.
  simpl in L2, L0.
  destruct L2 as (_ & _ & P2 & _). destruct L0 as (_ & _ & P0 & _).
  rewrite P2, P0. reflexivity.
Qed.

Lemma insert_then_remove_restores_witness :
  FL ex_grown [65576] /\ node_ok ex_grown 65544 /\ far 65544 [65576]
  /\ (length [65576%Z] < ex_fuel)%nat
  /\ exists st1 st2,
       insert_free_block ex_grown 65544 = Ok st1
       /\ remove_free_block st1 65544 = Ok st2
       /\ free_list ex_fuel st2 = Ok [65576]
       /\ (forall x, x <> 65544 + off_next -> x <> 65544 + off_prev ->
             mem st2 x = mem ex_grown x).
Proof.
  assert (H2 : node_ok ex_grown 65544)
    by (unfold node_ok; vm_compute; repeat split; discriminate).
  assert (H3 : far 65544 [65576]).
  { constructor; [left; vm_compute; discriminate | constructor]. }
  assert (H4 : (length [65576%Z] < ex_fuel)%nat)
    by (apply Nat.ltb_lt; vm_compute; reflexivity).
  split; [exact ex_grown_FL|]. split; [exact H2|]. split; [exact H3|].
  split; [exact H4|].
  exact (insert_then_remove_restores ex_fuel ex_grown [65576] 65544
           ex_grown_FL H2 H3 H4).
Defined.

(** ** The used blocks across a call *)

(** X24 ([mm_free] releases one block).  After [mm_free] of a payload
    that the client holds, the used blocks found by the walk are those
    found before, with their sizes, except the block of that payload. *)
Theorem mm_free_releases_one_block fuel st live p sz st' :
  reachable fuel st live ->
  In (p, sz) live ->
  mm_free fuel st p = Ok st' ->
  exists h rows h' rows',
    examine_heap fuel st = Ok (h, rows)
    /\ examine_heap fuel st' = Ok (h', rows')
    /\ forall q, In q (used_rows rows')
                 <-> In q (used_rows rows) /\ fst q <> p - WORD_SIZE.
Proof.
  intros Hreach Hp Hf.
  destruct (reachable_Inv _ _ _ Hreach) as (bs & fl & HInv & (Hl1 & _) & Hfuel).
  destruct (Inv_fuel _ _ _ _ HInv Hfuel) as (F2 & _ & Hbs).
  destruct (Hl1 _ _ Hp) as (s & Hs & _). apply In_used_blocks in Hs.
  destruct (mm_free_run fuel _ _ _ _ _ HInv Hs F2)
    as (st1 & bs' & fl' & c & n & E & HInv' & (S1 & S2 & S3 & S4) & Hup & _).
  rewrite E in Hf. inversion Hf; subst st1. clear Hf.
  assert (Hfuel' : mem_max_addr st' - mem_start_brk st' <= Z.of_nat fuel)
    by (rewrite S1, S3; exact Hfuel).
  destruct (Inv_fuel _ _ _ _ HInv' Hfuel') as (_ & _ & Hbs').
  exists (hd NULL fl), (rows_of (mem st) true bs),
    (hd NULL fl'), (rows_of (mem st') true bs').
  split; [apply examine_heap_spec; assumption|].
  split; [apply examine_heap_spec; assumption|].
  intros q. rewrite !used_rows_rows. apply Hup.
Qed.

Lemma mm_free_releases_one_block_witness :
  reachable ex_fuel ex_two [(65584, 16); (65552, 16)]
  /\ In (65584, 16) [(65584, 16); (65552, 16)]
  /\ exists st',
       mm_free ex_fuel ex_two 65584 = Ok st'
       /\ exists h rows h' rows',
            examine_heap ex_fuel ex_two = Ok (h, rows)
            /\ examine_heap ex_fuel st' = Ok (h', rows')
            /\ forall q, In q (used_rows rows')
                         <-> In q (used_rows rows) /\ fst q <> 65584 - WORD_SIZE.
Proof.
  assert (H2 : In (65584, 16) [(65584, 16); (65552, 16)]) by (left; reflexivity).
  assert (H3 : exists st', mm_free ex_fuel ex_two 65584 = Ok st')
    by (eexists; vm_compute; reflexivity).
  split; [exact ex_two_reachable|]. split; [exact H2|].
  destruct H3 as (st' & H3). exists st'. split; [exact H3|].
  exact (mm_free_releases_one_block ex_fuel ex_two _ 65584 16 st'
           ex_two_reachable H2 H3).
Defined.

(** X25 ([mm_malloc] takes one block).  After [mm_malloc] of a non-zero
    size, the used blocks found by the walk are those found before, with
    their sizes, and the block of the returned payload, which was not
    used before. *)
Theorem mm_malloc_takes_one_block fuel st live size st' p :
  reachable fuel st live ->
  valid_size size -> size <> 0 ->
  mm_malloc fuel st size = Ok (st', p) ->
  exists h rows h' rows' t,
    examine_heap fuel st = Ok (h, rows)
    /\ examine_heap fuel st' = Ok (h', rows')
    /\ (forall s, ~ In (p - WORD_SIZE, s) (used_rows rows))
    /\ forall q, In q (used_rows rows')
                 <-> q = (p - WORD_SIZE, t) \/ In q (used_rows rows).
Proof.
  intros Hreach Hsize Hnz Hm.
  destruct (reachable_Inv _ _ _ Hreach) as (bs & fl & HInv & _ & Hfuel).
  destruct (Inv_fuel _ _ _ _ HInv Hfuel) as (_ & _ & Hbs).
  destruct (mm_malloc_run fuel _ _ _ size HInv Hsize Hnz Hfuel)
    as [(_ & _ & E) | (st1 & bs' & fl' & c & t & E & HInv' & _ & _ & Hnew & Hup & _
                       & Hcase)];
    rewrite E in Hm; [discriminate|]. inversion Hm; subst st1 p. clear Hm.
  assert (Hfuel' : mem_max_addr st' - mem_start_brk st' <= Z.of_nat fuel).
  { destruct Hcase as [(_ & _ & (S1 & _ & S3 & _)) | (_ & _ & _ & (K1 & K2 & _))].
    - rewrite S1, S3. exact Hfuel.
    - rewrite K1, K2. exact Hfuel. }
  destruct (Inv_fuel _ _ _ _ HInv' Hfuel') as (_ & _ & Hbs').
  exists (hd NULL fl), (rows_of (mem st) true bs),
    (hd NULL fl'), (rows_of (mem st') true bs'), t.
  split; [apply examine_heap_spec; assumption|].
  split; [apply examine_heap_spec; assumption|].
  rewrite !used_rows_rows. replace (c + WORD_SIZE - WORD_SIZE) with c by lia.
  split; [exact Hnew | exact Hup].
Qed.

Lemma mm_malloc_takes_one_block_witness :
  reachable ex_fuel ex_full [(65552, 16)] /\ valid_size 16 /\ 16 <> 0
  /\ mm_malloc ex_fuel ex_full 16 = Ok (ex_two, 65584)
  /\ exists h rows h' rows' t,
       examine_heap ex_fuel ex_full = Ok (h, rows)
       /\ examine_heap ex_fuel ex_two = Ok (h', rows')
       /\ (forall s, ~ In (65584 - WORD_SIZE, s) (used_rows rows))
       /\ forall q, In q (used_rows rows')
                    <-> q = (65584 - WORD_SIZE, t) \/ In q (used_rows rows).
Proof.
  assert (H2 : valid_size 16) by (unfold valid_size; lia).
  assert (H3 : 16 <> 0) by discriminate.
  assert (H4 : mm_malloc ex_fuel ex_full 16 = Ok (ex_two, 65584))
    by (vm_compute; reflexivity).
  split; [exact ex_full_reachable|]. split; [exact H2|]. split; [exact H3|].
  split; [exact H4|].
  exact (mm_malloc_takes_one_block ex_fuel ex_full _ 16 ex_two 65584
           ex_full_reachable H2 H3 H4).
Defined.

(** X26 ([request_more_space]).  After a valid sequence of calls,
    [request_more_space] for a request of at least the minimum block
    size asks the simulator for the request rounded up to whole pages.
    When the simulator cannot supply them the process ends with status
    0.  Otherwise the break moves up by exactly these bytes, the heap is
    well formed again, the head of the free list is a free block of at
    least the request size that reaches the end-of-heap word, and the
    payloads that the client holds keep their contents. *)
Theorem request_more_space_grows_by_pages fuel st live req :
  reachable fuel st live ->
  MIN_BLOCK_SIZE <= req < 2 ^ 63 ->
  let total := (req + pagesize st - 1) / pagesize st * pagesize st in
  req <= total /\ total mod pagesize st = 0
  /\ (mem_max_addr st < mem_brk st + total ->
      request_more_space fuel st req = Exit 0)
  /\ (mem_brk st + total <= mem_max_addr st ->
      exists st' c,
        request_more_space fuel st req = Ok st'
        /\ mem_brk st' = mem_brk st + total
        /\ wf_heap st'
        /\ get_FREE_LIST_HEAD st' = Ok c
        /\ Z.land (mem st' c) TAG_USED = 0
        /\ req <= SIZE (mem st' c)
        /\ c + SIZE (mem st' c) = mem_brk st' - WORD_SIZE
        /\ (forall q sz x, In (q, sz) live -> q <= x < q + sz ->
              mem st' x = mem st x)).
Proof.
  intros Hreach Hreq total.
  destruct (reachable_Inv _ _ _ Hreach) as (bs & fl & HInv & (Hl1 & _) & Hfuel).
  destruct (Inv_fuel _ _ _ _ HInv Hfuel) as (F2 & _).
  pose proof (inv_env _ _ _ HInv) as (E1 & E2 & E3 & E4 & E5 & E6).
  destruct (page_round req (pagesize st) ltac:(lia) E6 ltac:(zlia)) as (Htot & Htot8).
  fold total in Htot, Htot8.
  assert (Etotal : wrap64 (wrap64 (req + pagesize st - 1) / pagesize st * pagesize st)
                   = total).
  { rewrite (wrap64_small (req + pagesize st - 1)) by zlia.
    fold total. apply wrap64_small. zlia. }
  split; [lia|]. split; [unfold total; apply Z.mod_mul; lia|].
  destruct (request_more_space_run fuel _ _ _ req HInv ltac:(lia) ltac:(zlia) F2)
    as [E | (st' & bs' & fl' & c & n & E & HInv' & Hc & Hhd & Hin & Hle & Hup & Hend
             & Hkept)].
  - destruct (request_more_space_Exit _ _ _ _ E) as (_ & Hcase).
    rewrite Etotal in Hcase. split; [intros _; exact E|].
    intros Hroom. exfalso. destruct Hcase as [Hfull | Habs]; [lia|].
    rewrite wrap64_minus1 in Habs. pose proof (inv_brk _ _ _ HInv). zlia.
  - destruct (request_more_space_Ok _ _ _ _ E) as (_ & Hbrk & Hroom).
    rewrite Etotal in Hbrk, Hroom. split; [intros Hfull; lia|].
    intros _. exists st', c. split; [exact E|]. split; [exact Hbrk|].
    split; [exists bs', fl'; exact HInv'|].
    pose proof HInv' as [Henv' Hbrk' Hch' Htag' _ Hna' Hfl' _ _].
    pose proof Henv' as (G1 & G2 & G3 & _).
    pose proof (chain_In _ _ _ _ _ _ Hch' Hin) as (I1 & I2 & I3 & I4).
    assert (Hhdr : mem st' c = tagword n true false).
    { apply (tagged_free _ _ _ _ _ Htag' Hna' Hin). }
    assert (Hnr : 0 <= n < 2 ^ 63) by zlia.
    rewrite Hhdr, SIZE_tagword, tagword_used by assumption.
    split; [|split; [reflexivity | split; [exact Hle | split; [exact Hend|]]]].
    + unfold get_FREE_LIST_HEAD, mem_heap_lo.
      rewrite load_ok by (apply valid_access_intro; zlia).
      rewrite (flist_hd _ _ _ _ Hfl'), Hhd. reflexivity.
    + intros q sz x Hq Hx. destruct (Hl1 _ _ Hq) as (t' & Hq' & Hsz).
      apply Hkept. exists (q - WORD_SIZE), t'. split; [exact Hq' | zlia].
Qed.

Lemma request_more_space_grows_by_pages_witness :
  reachable ex_fuel ex_full [(65552, 16)]
  /\ MIN_BLOCK_SIZE <= 32 < 2 ^ 63
  /\ (let total := (32 + pagesize ex_full - 1) / pagesize ex_full
                   * pagesize ex_full in
      32 <= total /\ total mod pagesize ex_full = 0
      /\ (mem_max_addr ex_full < mem_brk ex_full + total ->
          request_more_space ex_fuel ex_full 32 = Exit 0)
      /\ (mem_brk ex_full + total <= mem_max_addr ex_full ->
          exists st' c,
            request_more_space ex_fuel ex_full 32 = Ok st'
            /\ mem_brk st' = mem_brk ex_full + total
            /\ wf_heap st'
            /\ get_FREE_LIST_HEAD st' = Ok c
            /\ Z.land (mem st' c) TAG_USED = 0
            /\ 32 <= SIZE (mem st' c)
            /\ c + SIZE (mem st' c) = mem_brk st' - WORD_SIZE
            /\ (forall q sz x, In (q, sz) [(65552, 16)] -> q <= x < q + sz ->
                  mem st' x = mem ex_full x))).
Proof.
  assert (H2 : MIN_BLOCK_SIZE <= 32 < 2 ^ 63)
    by (split; [discriminate | reflexivity]).
  split; [exact ex_full_reachable|]. split; [exact H2|].
  exact (request_more_space_grows_by_pages ex_fuel ex_full _ 32
           ex_full_reachable H2).
Defined.
